(** * Deep clone and configuration merge of v-termeh/utils

    A shallow embedding of [deepClone] (src/src/inliner.ts, the module that
    the merge imports as "./common") and of [mergeConfig] with its inner
    recursive [merge] (src/unnamed/part_003), over an explicit object store,
    so that object identity, aliasing and the in-place mutation of the
    working copy are visible.

    Scope of the embedding.  JavaScript values are the primitives plus
    references into a store of objects.  An object has a kind (plain record,
    array, Date, Map, Set) and its own enumerable string-keyed data
    properties, kept in insertion order (the engine enumerates integer-like
    keys first; this only changes the order in which keys are visited and
    objects are allocated).  Every object has the prototype that its kind
    gives it.  An array is dense: its elements are a list without holes.
    Numbers are integers.  Functions and accessors are not values of the
    store, so an own property never holds a function: where the code calls
    a method on an object ([map], [getTime], [entries], [values], [every])
    an own property of that name makes the call a TypeError.

    Where the code leaves this frame the embedding says so instead of
    guessing: an assignment that would change a prototype, leave a hole in
    an array or convert a value to an array length, and a read that would
    return a prototype, have the outcome [Unmodelled].  What the code does
    with the members that objects inherit (the setter [__proto__], the
    [length] of an array, the getter [size] of a Map or a Set, the members
    of [Object.prototype] found by a lookup in the strategy table) is
    written out where it is within the frame.  A thrown error is [Stuck].
    Unbounded recursion (the engine's stack overflow) is the absence of any
    sufficient recursion budget. *)

From Stdlib Require Import ZArith String Ascii List Lia Bool.
From stdpp Require Import base list strings.
Import ListNotations.
Local Open Scope string_scope.
Local Open Scope list_scope.
Local Open Scope nat_scope.

(** ** Values and the object store *)

Abbreviation loc := nat.

Inductive value : Type :=
| VUndef
| VNull
| VBool (b : bool)
| VNum (z : Z)
| VStr (s : string)
| VRef (l : loc).

Abbreviation props := (list (string * value)).

Inductive kind : Type :=
| KPlain
| KArray (elems : list value)
| KDate (t : Z)
| KMap (entries : list (value * value))
| KSet (members : list value).

Record obj : Type := Obj { okind : kind; oprops : props }.

Abbreviation heap := (list obj).

(** Outcome of running a piece of the program with a recursion budget: it
    returns ([Ok]), it throws ([Stuck]), the budget is used up
    ([OutOfFuel]), or it goes on in a way that the store does not represent
    ([Unmodelled]). *)
Inductive res (A : Type) : Type :=
| Ok (a : A)
| Stuck
| OutOfFuel
| Unmodelled.
Arguments Ok {A} a.
Arguments Stuck {A}.
Arguments OutOfFuel {A}.
Arguments Unmodelled {A}.

Definition bind {A B} (m : res A) (f : A -> res B) : res B :=
  match m with
  | Ok a => f a
  | Stuck => Stuck
  | OutOfFuel => OutOfFuel
  | Unmodelled => Unmodelled
  end.

Notation "'do' p <- m ;; k" := (bind m (fun x => match x with p => k end))
  (at level 10, p pattern, m at level 99, k at level 200).

Definition alloc (o : obj) (h : heap) : value * heap :=
  (VRef (length h), h ++ [o]).

(** ** Primitive tests of the language *)

Definition is_undef (v : value) : bool :=
  match v with VUndef => true | _ => false end.

Definition is_null (v : value) : bool :=
  match v with VNull => true | _ => false end.

(** [typeof v === "object"] *)
Definition typeof_object (v : value) : bool :=
  match v with VNull | VRef _ => true | _ => false end.

(** [v === VStr s] for a string literal [s] *)
Definition is_str (s : string) (v : value) : bool :=
  match v with VStr s' => String.eqb s s' | _ => false end.

(** [Array.isArray v] *)
Definition isArray (h : heap) (v : value) : bool :=
  match v with
  | VRef l =>
      match h !! l with
      | Some (Obj (KArray _) _) => true
      | _ => false
      end
  | _ => false
  end.

(** ** Own properties *)

Fixpoint get_prop (k : string) (ps : props) : value :=
  match ps with
  | [] => VUndef
  | (k', v) :: ps' => if String.eqb k k' then v else get_prop k ps'
  end.

Fixpoint set_prop (k : string) (v : value) (ps : props) : props :=
  match ps with
  | [] => [(k, v)]
  | (k', v') :: ps' =>
      if String.eqb k k' then (k, v) :: ps' else (k', v') :: set_prop k v ps'
  end.

Definition keys (ps : props) : list string := map fst ps.

(** Canonical array index of a property key: a decimal numeral without
    leading zero, below 2^32 - 1. *)
Definition digit_of (c : ascii) : option N :=
  let n := N_of_ascii c in
  if ((48 <=? n) && (n <=? 57))%N then Some (n - 48)%N else None.

Fixpoint parse_digits (s : string) (acc : N) : option N :=
  match s with
  | EmptyString => Some acc
  | String c s' =>
      match digit_of c with
      | Some d => parse_digits s' (10 * acc + d)%N
      | None => None
      end
  end.

Definition array_index (k : string) : option nat :=
  match k with
  | EmptyString => None
  | String "0"%char EmptyString => Some 0
  | String "0"%char _ => None
  | _ =>
      match parse_digits k 0 with
      | Some n => if (n <? 4294967295)%N then Some (N.to_nat n) else None
      | None => None
      end
  end.

(** [Object.prototype.hasOwnProperty.call(o, k)] *)
Definition has_own (k : string) (ps : props) : bool :=
  existsb (String.eqb k) (keys ps).

(** [o[k]] for an own key or an array index [k]: the own property or the
    element. *)
Definition read_prop (o : obj) (k : string) : value :=
  match okind o, array_index k with
  | KArray es, Some i => default VUndef (es !! i)
  | _, _ => get_prop k (oprops o)
  end.

(** The object [o] with the own property [k] set to [v]. *)
Definition set_own (o : obj) (k : string) (v : value) : obj :=
  Obj (okind o) (set_prop k v (oprops o)).

(** [arr.length = v].  A number that is an array length and does not exceed
    the present length truncates the array; a longer length would leave
    holes.  A number that is no array length (negative, or 2^32 and above)
    and [undefined], which converts to NaN, throw a RangeError.  Any other
    value is first converted to a number. *)
Definition set_length (es : list value) (v : value) : res (list value) :=
  match v with
  | VNum z =>
      if ((0 <=? z) && (z <? 4294967296))%Z then
        if Z.to_nat z <=? length es then Ok (take (Z.to_nat z) es)
        else Unmodelled
      else Stuck
  | VUndef => Stuck
  | _ => Unmodelled
  end.

(** [o[k] = v] in strict code, which a module is.
    - Under the key [__proto__], unless [o] has an own property of that
      name, the assignment goes to the setter of [Object.prototype]: it
      changes the prototype of [o] when [v] is an object or null and does
      nothing otherwise.
    - On an array, an index within the array replaces the element, the
      index just after the last element appends, a later index would leave
      holes, and [length] is set by [set_length].
    - On a Map or a Set, [size] is an inherited getter without a setter: the
      assignment throws a TypeError.
    - In every other case the own property is set: a method of the
      prototype of that name is writable, so the assignment shadows it. *)
Definition write_prop (o : obj) (k : string) (v : value) : res obj :=
  if String.eqb k "__proto__" && negb (has_own k (oprops o)) then
    match v with
    | VNull | VRef _ => Unmodelled
    | _ => Ok o
    end
  else
    match okind o with
    | KArray es =>
        match array_index k with
        | Some i =>
            if i <? length es
            then Ok (Obj (KArray (<[i := v]> es)) (oprops o))
            else if i =? length es
            then Ok (Obj (KArray (es ++ [v])) (oprops o))
            else Unmodelled
        | None =>
            if String.eqb k "length"
            then do es' <- set_length es v ;; Ok (Obj (KArray es') (oprops o))
            else Ok (set_own o k v)
        end
    | KMap _ | KSet _ =>
        if String.eqb k "size" then Stuck
        else Ok (set_own o k v)
    | _ => Ok (set_own o k v)
    end.

(** ** deepClone (src/src/inliner.ts, lines 168-183) *)

(** [cloned[key] = v] on the properties of the new object [cloned], which
    never has an own property named [__proto__]: under that key the
    assignment goes to the setter of [Object.prototype], which makes [v] the
    prototype of the clone when [v] is an object or null (the store does not
    record it) and does nothing otherwise.  Either way no own property is
    added: the key is not among the own keys of the clone. *)
Definition assign (key : string) (v : value) (cloned : props) : props :=
  if String.eqb key "__proto__" then cloned else set_prop key v cloned.

Section Traversals.
Variable clone : heap -> value -> res (value * heap).

(** [arr.map(clone)] *)
Fixpoint clone_elems (h : heap) (vs : list value) : res (list value * heap) :=
  match vs with
  | [] => Ok ([], h)
  | v :: vs' =>
      do (v', h1) <- clone h v ;;
      do (vs'', h2) <- clone_elems h1 vs' ;;
      Ok (v' :: vs'', h2)
  end.

(** [for (const key in obj) cloned[key] = clone(obj[key])], over the own
    keys of [obj] *)
Fixpoint clone_keys (src : props) (h : heap) (ks : list string)
    (cloned : props) : res (props * heap) :=
  match ks with
  | [] => Ok (cloned, h)
  | key :: ks' =>
      do (v', h1) <- clone h (get_prop key src) ;;
      clone_keys src h1 ks' (assign key v' cloned)
  end.
End Traversals.

(** [obj.m(...)] calls the method [m] of the prototype unless [obj] has an
    own property of that name: an own property holds data, and calling it is
    a TypeError. *)
Definition callable (m : string) (o : obj) : bool :=
  negb (has_own m (oprops o)).

(** The array that [map] creates for its result (ArraySpeciesCreate) is a
    plain array when the [constructor] found on the array is the inherited
    one, or an own property that holds [undefined] or an object (none of the
    objects of the store has a member [Symbol.species]); an own property
    that holds another primitive is a TypeError. *)
Definition species_ok (o : obj) : bool :=
  match get_prop "constructor" (oprops o) with
  | VUndef | VRef _ => true
  | _ => false
  end.

(** The method that deepClone calls on an object of each kind can be
    called: [getTime] on a Date, [entries] on a Map, [values] on a Set, [map]
    on an array. *)
Definition methods_ok (o : obj) : bool :=
  match okind o with
  | KDate _ => callable "getTime" o
  | KMap _ => callable "entries" o
  | KSet _ => callable "values" o
  | KArray _ => callable "map" o && species_ok o
  | KPlain => true
  end.

Fixpoint deepClone (fuel : nat) (h : heap) (v : value) : res (value * heap) :=
  match v with
  | VRef l =>
      match fuel with
      | 0 => OutOfFuel
      | S n =>
          match h !! l with
          | None => Stuck
          | Some o =>
              if methods_ok o then
                match okind o with
                | KDate t => Ok (alloc (Obj (KDate t) []) h)
                | KMap entries => Ok (alloc (Obj (KMap entries) []) h)
                | KSet members => Ok (alloc (Obj (KSet members) []) h)
                | KArray elems =>
                    do (vs, h1) <- clone_elems (deepClone n) h elems ;;
                    Ok (alloc (Obj (KArray vs) []) h1)
                | KPlain =>
                    do (cloned, h1) <-
                      clone_keys (deepClone n) (oprops o) h (keys (oprops o))
                        [] ;;
                    Ok (alloc (Obj KPlain cloned) h1)
                end
              else Stuck
          end
      end
  | _ => Ok (v, h)
  end.

(** ** mergeConfig (src/unnamed/part_003, lines 39-103) *)

Definition current_path (path key : string) : string :=
  match path with
  | EmptyString => key
  | _ => String.append path (String.append "." key)
  end.

(** The string-keyed members of [Object.prototype]: a lookup in an object
    without an own property of one of these names finds the member. *)
Definition object_prototype_names : list string :=
  [ "constructor"; "hasOwnProperty"; "isPrototypeOf"; "propertyIsEnumerable";
    "toLocaleString"; "toString"; "valueOf"; "__proto__";
    "__defineGetter__"; "__defineSetter__"; "__lookupGetter__";
    "__lookupSetter__" ].

(** What a lookup in the strategy table finds: [Entry v] is an own entry, or
    [undefined] where the table has no member of that name; [Member] is a
    member of [Object.prototype], a function or (for [__proto__]) the
    prototype itself, which is neither [undefined] nor a string. *)
Inductive entry : Type :=
| Entry (v : value)
| Member.

(** [strategies[currentPath]] *)
Definition strategy_entry (strategies : props) (p : string) : entry :=
  if has_own p strategies then Entry (get_prop p strategies)
  else if existsb (String.eqb p) object_prototype_names then Member
  else Entry VUndef.

(** [strategy === s] for a string literal [s] *)
Definition entry_is (s : string) (e : entry) : bool :=
  match e with Entry v => is_str s v | Member => false end.

(** [strategy === undefined] *)
Definition entry_undefined (e : entry) : bool :=
  match e with Entry v => is_undef v | Member => false end.

(** [target[key]], read for the test that the value is a non-null object
    and for the recursion into it: the own property or element.  Under the
    key [__proto__], unless the object has an own property of that name, the
    code finds the prototype of [target], an object that is not in the
    store.  Any other inherited member is a function or a number, which
    the test does not tell from [undefined].  A property of [undefined] or
    [null] is a TypeError; a property of another primitive is looked up in
    the prototype of its wrapper. *)
Definition read_target (h : heap) (target : value) (key : string)
    : res value :=
  match target with
  | VRef lt =>
      match h !! lt with
      | None => Stuck
      | Some ot =>
          if String.eqb key "__proto__" && negb (has_own key (oprops ot))
          then Unmodelled
          else Ok (read_prop ot key)
      end
  | VUndef | VNull => Stuck
  | _ => if String.eqb key "__proto__" then Unmodelled else Ok VUndef
  end.

(** [target[key] = v] on the store; on a primitive it is a TypeError in
    strict code. *)
Definition store_prop (h : heap) (target : value) (key : string) (v : value)
    : res heap :=
  match target with
  | VRef lt =>
      match h !! lt with
      | Some ot => do o' <- write_prop ot key v ;; Ok (<[lt := o']> h)
      | None => Stuck
      end
  | _ => Stuck
  end.

Section MergeLoop.
Variable strategies : props.
Variable clone : heap -> value -> res (value * heap).
Variable merge_rec : heap -> value -> value -> string -> res heap.

(** One iteration of the loop over [Object.keys(source)]. *)
Definition merge_key (h : heap) (target : value) (ls : loc) (path key : string)
    : res heap :=
  match h !! ls with
  | None => Stuck
  | Some os =>
      let currentPath := current_path path key in
      let strategy := strategy_entry strategies currentPath in
      let sourceValue := read_prop os key in
      do targetValue <- read_target h target key ;;
      if entry_is "safe" strategy && is_undef sourceValue then Ok h
      else if entry_undefined strategy && negb (typeof_object sourceValue)
              && is_undef sourceValue then Ok h
      else if entry_is "replace" strategy || isArray h sourceValue then
        do (v, h1) <- clone h sourceValue ;;
        store_prop h1 target key v
      else if typeof_object sourceValue && negb (is_null sourceValue)
              && typeof_object targetValue && negb (is_null targetValue)
      then merge_rec h targetValue sourceValue currentPath
      else
        do (v, h1) <- clone h sourceValue ;;
        store_prop h1 target key v
  end.

Fixpoint merge_keys (h : heap) (target : value) (ls : loc) (path : string)
    (ks : list string) : res heap :=
  match ks with
  | [] => Ok h
  | key :: ks' =>
      do h1 <- merge_key h target ls path key ;;
      merge_keys h1 target ls path ks'
  end.
End MergeLoop.

Fixpoint merge (fuel : nat) (strategies : props) (h : heap)
    (target source : value) (path : string) : res heap :=
  match source with
  | VRef ls =>
      match h !! ls with
      | None => Stuck
      | Some os =>
          match okind os with
          | KArray _ => Ok h
          | _ =>
              match fuel with
              | 0 => OutOfFuel
              | S n =>
                  merge_keys strategies (deepClone n) (merge n strategies)
                    h target ls path (keys (oprops os))
              end
          end
      end
  | _ => Ok h
  end.

Definition mergeConfig (fuel : nat) (h : heap) (config newConfig : value)
    (options : option props) : res (value * heap) :=
  let strategies := default [] options in
  do (result, h1) <- deepClone fuel h config ;;
  do h2 <- merge fuel strategies h1 result newConfig "" ;;
  Ok (result, h2).

(** ** Reachability in the store *)

(** Values held in the property and element slots of an object: what
    [o[k]] can read. *)
Definition slots (o : obj) : list value :=
  match okind o with KArray es => es | _ => [] end ++ map snd (oprops o).

(** Values held inside a Map (keys and values) or a Set (members). *)
Definition contents (o : obj) : list value :=
  match okind o with
  | KMap entries => flat_map (fun e => [fst e; snd e]) entries
  | KSet members => members
  | _ => []
  end.

Definition children (o : obj) : list value := slots o ++ contents o.

Section Reach.
Variable sub : obj -> list value.
Variable h : heap.

Inductive reach : value -> loc -> Prop :=
| reach_here l : reach (VRef l) l
| reach_step l o v l' :
    h !! l = Some o -> v ∈ sub o -> reach v l' -> reach (VRef l) l'.
End Reach.

(** Reachable through properties and array elements only. *)
Abbreviation slot_reach := (reach slots).
(** Reachable through properties, elements, Map entries and Set members. *)
Abbreviation any_reach := (reach children).

Definition is_prim (v : value) : bool :=
  match v with VRef _ => false | _ => true end.

(** Pairwise disjoint slot-reachable sets. *)
Fixpoint sep (h : heap) (vs : list value) : Prop :=
  match vs with
  | [] => True
  | v :: vs' =>
      (forall l v', slot_reach h v l -> v' ∈ vs' -> ~ slot_reach h v' l)
      /\ sep h vs'
  end.

(** [tree h v]: the structure under [v] is a tree, no object is reached
    along two different slot paths. *)
Inductive tree (h : heap) : value -> Prop :=
| tree_prim v : is_prim v = true -> tree h v
| tree_node l o :
    h !! l = Some o ->
    sep h (slots o) ->
    (forall v, v ∈ slots o -> tree h v) ->
    (forall v, v ∈ slots o -> ~ slot_reach h v l) ->
    tree h (VRef l).


(** All objects slot-reachable from [v] lie in the address range [a, b). *)
Definition region (h : heap) (v : value) (a b : nat) : Prop :=
  forall l, slot_reach h v l -> a <= l < b.

(** A list of values whose subtrees are disjoint trees allocated at or
    above address [a]. *)
Definition forest (h : heap) (a : nat) (vs : list value) : Prop :=
  sep h vs /\ forall v, v ∈ vs -> tree h v /\ region h v a (length h).

(** What a successful clone of [v] in store [h] looks like: the store is
    only extended, a primitive is returned as it is, and an object is
    copied into a tree made of newly allocated objects. *)
Definition clone_post (h : heap) (v v' : value) (h' : heap) : Prop :=
  (exists ext, h' = h ++ ext) /\
  is_prim v' = is_prim v /\
  (is_prim v = true -> v' = v /\ h' = h) /\
  tree h' v' /\ region h' v' (length h) (length h').

(** ** Well-formed inputs *)

(** The structure that [deepClone] walks from [v] (array elements and
    properties of plain objects) has nesting depth at most [n] and reaches
    allocated objects only, and on each object that it reaches the method
    that [deepClone] calls is not shadowed by an own property. *)
Fixpoint bounded (n : nat) (h : heap) (v : value) : bool :=
  match v with
  | VRef l =>
      match n with
      | 0 => false
      | S n' =>
          match h !! l with
          | None => false
          | Some o =>
              methods_ok o &&
              match okind o with
              | KArray es => forallb (bounded n' h) es
              | KPlain => forallb (bounded n' h) (map snd (oprops o))
              | _ => true
              end
          end
      end
  | _ => true
  end.

Definition no_props_unless_plain (o : obj) : bool :=
  match okind o, oprops o with
  | KPlain, _ => true
  | _, [] => true
  | _, _ => false
  end.

(** [wf n h v]: [v] is plain data of nesting depth at most [n]: every object
    reachable from it (also through Map entries and Set members) is
    allocated, has distinct own keys, none of them [__proto__], and only
    plain objects carry own properties. *)
Fixpoint wf (n : nat) (h : heap) (v : value) : bool :=
  match v with
  | VRef l =>
      match n with
      | 0 => false
      | S n' =>
          match h !! l with
          | None => false
          | Some o =>
              bool_decide (NoDup (keys (oprops o)))
              && no_props_unless_plain o
              && negb (has_own "__proto__" (oprops o))
              && forallb (wf n' h) (children o)
          end
      end
  | _ => true
  end.

(** A key under which an assignment sets an own property whatever the kind
    of the object: not [__proto__], not an array index, not [length] (which
    an array has) and not [size] (which a Map and a Set inherit). *)
Definition ordinary (k : string) : bool :=
  negb (String.eqb k "__proto__") && negb (String.eqb k "length")
  && negb (String.eqb k "size")
  && match array_index k with Some _ => false | None => true end.

(** [tame n h v]: the objects of the override [v] that the merge walks (the
    objects other than arrays that it reaches through properties, to depth
    [n]) have ordinary keys only. *)
Fixpoint tame (n : nat) (h : heap) (v : value) : bool :=
  match v with
  | VRef l =>
      match n with
      | 0 => false
      | S n' =>
          match h !! l with
          | None => false
          | Some o =>
              match okind o with
              | KArray _ => true
              | _ =>
                  forallb ordinary (keys (oprops o))
                  && forallb (tame n' h) (map snd (oprops o))
              end
          end
      end
  | _ => true
  end.

(** [h] still holds every object of [h0] unchanged. *)
Definition prefix (h0 h : heap) : Prop :=
  forall l o, h0 !! l = Some o -> h !! l = Some o.

(** ** Deep structure of a value *)

Inductive ktag : Type :=
| TagPlain | TagArray | TagDate (t : Z) | TagMap | TagSet.

Definition tag_of (k : kind) : ktag :=
  match k with
  | KPlain => TagPlain
  | KArray _ => TagArray
  | KDate t => TagDate t
  | KMap _ => TagMap
  | KSet _ => TagSet
  end.

(** The store-independent shape of a value: a primitive, or an object with
    its kind, own keys, the shapes of its slots (elements, then property
    values) and the shapes of its Map entries or Set members. *)
#[local] Unset Elimination Schemes.
Inductive dval : Type :=
| DPrim (v : value)
| DObj (tag : ktag) (ks : list string) (slot_vals : list dval)
       (content_vals : list dval).
#[local] Set Elimination Schemes.

Fixpoint traverse {A B} (f : A -> option B) (xs : list A) : option (list B) :=
  match xs with
  | [] => Some []
  | x :: xs' =>
      match f x, traverse f xs' with
      | Some y, Some ys => Some (y :: ys)
      | _, _ => None
      end
  end.

Fixpoint reify (n : nat) (h : heap) (v : value) : option dval :=
  match v with
  | VRef l =>
      match n with
      | 0 => None
      | S n' =>
          match h !! l with
          | None => None
          | Some o =>
              match traverse (reify n' h) (slots o),
                    traverse (reify n' h) (contents o) with
              | Some ss, Some cs =>
                  Some (DObj (tag_of (okind o)) (keys (oprops o)) ss cs)
              | _, _ => None
              end
          end
      end
  | _ => Some (DPrim v)
  end.

(** Deep equality of a value of one store and a value of another. *)
Definition deep_equal (h1 : heap) (v1 : value) (h2 : heap) (v2 : value) : Prop :=
  exists n d, reify n h1 v1 = Some d /\ reify n h2 v2 = Some d.

(** Map entries and Set members held by the objects allocated after [h0]
    are well-formed values of [h0]: such objects are shallow copies. *)
Definition contents_wf (h0 h : heap) : Prop :=
  forall l o c, length h0 <= l -> h !! l = Some o -> c ∈ contents o ->
    exists m, wf m h0 c = true.

(** ** Invariants of the merge *)

(** The working copy [t] in store [h]: the inputs of [h0] are untouched and
    [t] is a tree of objects allocated after [h0]. *)
Definition tgt (h0 h : heap) (t : value) : Prop :=
  prefix h0 h /\ contents_wf h0 h /\
  tree h t /\ region h t (length h0) (length h).

(** Effect of a merge into the working copy rooted at [lt]: the store only
    changes inside the working copy or by allocation, and the working copy
    only grows by newly allocated objects. *)
Definition merge_post (h0 h : heap) (lt : loc) (h' : heap) : Prop :=
  tgt h0 h' (VRef lt) /\ length h <= length h' /\
  (forall l, l < length h -> ~ slot_reach h (VRef lt) l -> h' !! l = h !! l) /\
  (forall l, slot_reach h' (VRef lt) l ->
     slot_reach h (VRef lt) l \/ length h <= l).

(** Effect of one loop iteration for [key]: besides the root object, the
    store only changes under the slot [child] that [key] reads. *)
Definition step_post (h0 h : heap) (lt : loc) (key : string) (child : value)
    (h' : heap) : Prop :=
  tgt h0 h' (VRef lt) /\ length h <= length h' /\
  (forall l, l < length h -> l <> lt -> ~ slot_reach h child l ->
     h' !! l = h !! l) /\
  (forall l, slot_reach h' (VRef lt) l ->
     slot_reach h (VRef lt) l \/ length h <= l) /\
  (exists o o', h !! lt = Some o /\ h' !! lt = Some o' /\
     (o' = o \/ exists v, o' = set_own o key v)).

(** ** Concrete stores used in examples *)

Definition plain (ps : props) : obj := Obj KPlain ps.

(** [const a = {}; a.self = a] *)
Definition cyclic_store : heap := [plain [("self", VRef 0)]].

(** 0: [{c: 2, d: 3}]   1: [[1, 2, 3]]   2: [new Map([["k", #0]])]
    3: base [{a: 1, b: #0, arr: #1, m: #2}] *)
Definition base_store : heap :=
  [ plain [("c", VNum 2); ("d", VNum 3)];
    Obj (KArray [VNum 1; VNum 2; VNum 3]) [];
    Obj (KMap [(VStr "k", VRef 0)]) [];
    plain [("a", VNum 1); ("b", VRef 0); ("arr", VRef 1); ("m", VRef 2)] ].







(** 0: [{a: 1}]   1: [JSON.parse('{"__proto__": {"a": 1}, "b": 2}')], an
    object with an own key [__proto__]   2: [{}] *)
Definition proto_store : heap :=
  [ plain [("a", VNum 1)];
    plain [("__proto__", VRef 0); ("b", VNum 2)];
    plain [] ].


(** 0: the array [[1]] with an own property [map: 7]
    1: [new Date(0)] with an own property [getTime: 7]
    2: [new Map()] with an own property [entries: 7]
    3: [new Set()] with an own property [values: 7]
    4: the array [[1]] with an own property [constructor: 7] *)
Definition shadow_store : heap :=
  [ Obj (KArray [VNum 1]) [("map", VNum 7)];
    Obj (KDate 0) [("getTime", VNum 7)];
    Obj (KMap []) [("entries", VNum 7)];
    Obj (KSet []) [("values", VNum 7)];
    Obj (KArray [VNum 1]) [("constructor", VNum 7)] ].


(** ** Paths *)

(** The value found by following the keys [ks] from [v] through own
    properties and array elements; [undefined] where there is none. *)
Fixpoint at_path (h : heap) (v : value) (ks : list string) : value :=
  match ks with
  | [] => v
  | k :: ks' =>
      match v with
      | VRef l =>
          match h !! l with
          | Some o => at_path h (read_prop o k) ks'
          | None => VUndef
          end
      | _ => VUndef
      end
  end.

(** The dotted path of the keys [ks] below [path], as the merge builds it. *)
Fixpoint path_of (path : string) (ks : list string) : string :=
  match ks with
  | [] => path
  | k :: ks' => path_of (current_path path k) ks'
  end.

Definition is_plain (h : heap) (v : value) : bool :=
  match v with
  | VRef l =>
      match h !! l with
      | Some (Obj KPlain _) => true
      | _ => false
      end
  | _ => false
  end.

(** The merge of override [o] into base [b] walks down the keys [ks]: base
    and override hold a plain object at the start and under each of the
    keys, and no key on the way has a "replace" entry. *)
Fixpoint descends (strategies : props) (h : heap) (path : string)
    (b o : value) (ks : list string) : bool :=
  is_plain h b && is_plain h o &&
  match ks with
  | [] => true
  | k :: ks' =>
      negb (is_str "replace" (get_prop (current_path path k) strategies))
      && descends strategies h (current_path path k)
           (at_path h b [k]) (at_path h o [k]) ks'
  end.

(** 0: [{a: 1}]   1: base [{x: #0}]   2: [{a: undefined}]
    3: override [{x: #2}]   4: base [{a: 1, b: 2}] *)
Definition safe_store : heap :=
  [ plain [("a", VNum 1)];
    plain [("x", VRef 0)];
    plain [("a", VUndef)];
    plain [("x", VRef 2)];
    plain [("a", VNum 1); ("b", VNum 2)] ].

(** ** Strategy tables *)





(** The objects of tests/merge.test.ts:
    0: [{c: 2, d: 3}]   1: base [{a: 1, b: #0}]   2: [{c: 10}]
    3: partial [{b: #2}]   4: [{c: 99}]   5: partial [{b: #4}]
    6: [{primary: "red", secondary: "blue"}]   7: [{colors: #6}]
    8: base [{theme: #7}]   9: [{primary: "green"}]   10: [{colors: #9}]
    11: partial [{theme: #10}] *)
Definition test_store : heap :=
  [ plain [("c", VNum 2); ("d", VNum 3)];
    plain [("a", VNum 1); ("b", VRef 0)];
    plain [("c", VNum 10)];
    plain [("b", VRef 2)];
    plain [("c", VNum 99)];
    plain [("b", VRef 4)];
    plain [("primary", VStr "red"); ("secondary", VStr "blue")];
    plain [("colors", VRef 6)];
    plain [("theme", VRef 7)];
    plain [("primary", VStr "green")];
    plain [("colors", VRef 9)];
    plain [("theme", VRef 10)] ].

(** * Further stores and the cases of a merge step *)

(** 0: [{}]   1: [{p: #0, q: #0}], the same object under two keys *)
Definition shared_store : heap :=
  [ plain []; plain [("p", VRef 0); ("q", VRef 0)] ].

(** What one iteration of the loop of [merge] does with a key, as the chain
    of tests of the source decides it from the strategy entry, the
    override's value, the working copy's value and [Array.isArray] of the
    override's value. *)
Inductive action : Type := Skip | Write | Recurse.

Definition key_action (strategy : entry) (sourceValue targetValue : value)
    (source_is_array : bool) : action :=
  if entry_is "safe" strategy && is_undef sourceValue then Skip
  else if entry_undefined strategy && negb (typeof_object sourceValue)
          && is_undef sourceValue then Skip
  else if entry_is "replace" strategy || source_is_array then Write
  else if typeof_object sourceValue && negb (is_null sourceValue)
          && typeof_object targetValue && negb (is_null targetValue)
  then Recurse
  else Write.

(** 0: [{y: 1}]   1: [[1, 2]]   2: base [{d: #0, arr: #1, n: 5}]
    3: [new Date(0)]   4: [{note: 9}]
    5: override [{d: #3, arr: #4, n: undefined}] *)
Definition mixed_store : heap :=
  [ plain [("y", VNum 1)];
    Obj (KArray [VNum 1; VNum 2]) [];
    plain [("d", VRef 0); ("arr", VRef 1); ("n", VNum 5)];
    Obj (KDate 0) [];
    plain [("note", VNum 9)];
    plain [("d", VRef 3); ("arr", VRef 4); ("n", VUndef)] ].

(** [same_kinds h h']: every object of [h] is still there in [h'], with its
    kind (array, Date and its time, Map, Set or plain object) and, for a Map
    or a Set, its contents. *)
Definition same_kinds (h h' : heap) : Prop :=
  forall l o, h !! l = Some o ->
    exists o', h' !! l = Some o' /\ tag_of (okind o') = tag_of (okind o) /\
      contents o' = contents o.

(** * The inline HTML builder (src/src/inliner.ts, lines 1-133) *)

(** A JavaScript string, as the sequence of its UTF-16 code units. *)
Abbreviation jsstring := (list N).

(** The code units of an ASCII string literal of the source. *)
Definition lit (s : string) : jsstring :=
  map N_of_ascii (list_ascii_of_string s).

(** The character class of the regular expression of [escape], by code
    unit: 38 is the ampersand, 60 and 62 the angle brackets, 34 the double
    quote, 39 the single quote, 96 the backtick, 61 the equals sign, 47 the
    slash. *)
Definition special (ch : N) : bool :=
  existsb (N.eqb ch) [38; 60; 62; 34; 39; 96; 61; 47]%N.

(** The callback of [escape]: its [switch] on the matched character. *)
Definition replacement (ch : N) : jsstring :=
  if (ch =? 38)%N then lit "&amp;"
  else if (ch =? 60)%N then lit "&lt;"
  else if (ch =? 62)%N then lit "&gt;"
  else if (ch =? 34)%N then lit "&quot;"
  else if (ch =? 39)%N then lit "&#39;"
  else if (ch =? 96)%N then lit "&#96;"
  else if (ch =? 61)%N then lit "&#61;"
  else if (ch =? 47)%N then lit "&#47;"
  else [ch].

(** [s.replace(regexp, callback)], the regular expression being the class
    with the flag g: every code unit of the class is replaced by what the
    callback returns for it, the others are kept. *)
Definition escape_unit (ch : N) : jsstring :=
  if special ch then replacement ch else [ch].

Definition escape (s : jsstring) : jsstring := flat_map escape_unit s.

(** The number of occurrences of the code unit [ch] in [s]. *)
Definition occ (ch : N) (s : jsstring) : nat :=
  length (List.filter (N.eqb ch) s).

Module Inliner.

(** The builder: its private field [pieces]. A method pushes one piece and
    returns [this], here the builder after the push. *)
Record t : Type := Make { pieces : list jsstring }.

Definition create : t := Make [].

(** [this.pieces.push(p); return this] *)
Definition push (p : jsstring) (i : t) : t := Make (pieces i ++ [p]).

Definition raw (content : jsstring) : t -> t := push content.
Definition text (content : jsstring) : t -> t := push (escape content).
Definition strong (content : jsstring) : t -> t :=
  push (lit "<strong>" ++ escape content ++ lit "</strong>").
Definition em (content : jsstring) : t -> t :=
  push (lit "<em>" ++ escape content ++ lit "</em>").
Definition u (content : jsstring) : t -> t :=
  push (lit "<u>" ++ escape content ++ lit "</u>").
Definition ins (content : jsstring) : t -> t :=
  push (lit "<ins>" ++ escape content ++ lit "</ins>").
Definition s (content : jsstring) : t -> t :=
  push (lit "<s>" ++ escape content ++ lit "</s>").
Definition del (content : jsstring) : t -> t :=
  push (lit "<del>" ++ escape content ++ lit "</del>").
Definition sub (content : jsstring) : t -> t :=
  push (lit "<sub>" ++ escape content ++ lit "</sub>").
Definition sup (content : jsstring) : t -> t :=
  push (lit "<sup>" ++ escape content ++ lit "</sup>").
Definition span (content : jsstring) : t -> t :=
  push (lit "<span>" ++ escape content ++ lit "</span>").
Definition small (content : jsstring) : t -> t :=
  push (lit "<small>" ++ escape content ++ lit "</small>").
Definition space : t -> t := push (lit "&nbsp;").

(** [this.pieces.join(sep)] with the empty string as [sep] *)
Definition render (i : t) : jsstring := concat (pieces i).
Definition toString (i : t) : jsstring := render i.

(** A method call of a chain [Inliner.create().m1(c1).m2(c2)...]. *)
Inductive call : Type :=
| CRaw (content : jsstring) | CText (content : jsstring)
| CStrong (content : jsstring) | CEm (content : jsstring)
| CU (content : jsstring) | CIns (content : jsstring)
| CS (content : jsstring) | CDel (content : jsstring)
| CSub (content : jsstring) | CSup (content : jsstring)
| CSpan (content : jsstring) | CSmall (content : jsstring)
| CSpace.

Definition invoke (c : call) : t -> t :=
  match c with
  | CRaw x => raw x | CText x => text x | CStrong x => strong x
  | CEm x => em x | CU x => u x | CIns x => ins x | CS x => s x
  | CDel x => del x | CSub x => sub x | CSup x => sup x | CSpan x => span x
  | CSmall x => small x | CSpace => space
  end.

(** The builder after the calls [cs], made in order on [i]. *)
Definition chain (cs : list call) (i : t) : t :=
  fold_left (fun i c => invoke c i) cs i.

Definition is_raw (c : call) : bool :=
  match c with CRaw _ => true | _ => false end.

(** The calls that append an element: all but [raw], [text] and [space]. *)
Definition is_element (c : call) : bool :=
  match c with CRaw _ | CText _ | CSpace => false | _ => true end.

End Inliner.

(** * Type guards (src/src/type.ts, lines 21-127) *)

(** [typeof v === "string"], and likewise below *)
Definition isString (v : value) : bool :=
  match v with VStr _ => true | _ => false end.

Definition isBoolean (v : value) : bool :=
  match v with VBool _ => true | _ => false end.

Definition isNumber (v : value) : bool :=
  match v with VNum _ => true | _ => false end.

Definition isObject (h : heap) (v : value) : bool :=
  negb (is_null v) && negb (is_undef v) && typeof_object v
  && negb (isArray h v).

Definition isPrimitive (v : value) : bool :=
  is_null v || isString v || isNumber v || isBoolean v.

(** The elements that [v.every] visits on an array [v]: all of them, an
    array of the store being dense ([every] skips the holes of a sparse
    array, which the store does not represent). *)
Definition elements (h : heap) (v : value) : list value :=
  match v with
  | VRef l =>
      match h !! l with
      | Some o => match okind o with KArray es => es | _ => [] end
      | None => []
      end
  | _ => []
  end.

(** [v.every] is the method of [Array.prototype]: the array [v] has no own
    property of that name.  (Calling an own property is a TypeError;
    [isPrimitiveArray] and [isCompoundType] then return nothing.) *)
Definition every_callable (h : heap) (v : value) : bool :=
  match v with
  | VRef l =>
      match h !! l with
      | Some o =>
          match okind o with KArray _ => callable "every" o | _ => true end
      | None => true
      end
  | _ => true
  end.

(** [Object.values(v)] on an object [v] *)
Definition values (h : heap) (v : value) : list value :=
  match v with
  | VRef l => match h !! l with Some o => slots o | None => [] end
  | _ => []
  end.

Definition isPrimitiveArray (h : heap) (v : value) : bool :=
  isArray h v && forallb isPrimitive (elements h v).

Definition isPrimitiveRecord (h : heap) (v : value) : bool :=
  isObject h v && forallb isPrimitive (values h v).

Definition isCompoundType (h : heap) (v : value) : bool :=
  isPrimitive v || isPrimitiveArray h v || isPrimitiveRecord h v.

(** * Defaults (src/src/inliner.ts, lines 134-166) *)

(** [v ?? alt] *)
Definition nullish (v alt : value) : value :=
  if is_null v || is_undef v then alt else v.

(** The truth value of [v] in a condition. The numbers of the model are
    integers, so zero is the only falsy number. *)
Definition truthy (v : value) : bool :=
  match v with
  | VUndef | VNull => false
  | VBool b => b
  | VNum z => negb (z =? 0)%Z
  | VStr s => negb (String.eqb s EmptyString)
  | VRef _ => true
  end.

(** [v || alt] *)
Definition alter (v alt : value) : value := if truthy v then v else alt.

(** [Array.isArray(v) ? v : []], the literal allocating a new array *)
Definition toArray (h : heap) (v : value) : value * heap :=
  if isArray h v then (v, h) else alloc (Obj (KArray []) []) h.

(** * Numeric strings (src/unnamed/part_002, lines 24-46) *)

(** The class [\d] *)
Definition is_digit (ch : N) : bool := ((48 <=? ch) && (ch <=? 57))%N.

(** extractNumeric on null or undefined ([None]) or on a string: the
    matches of the class, joined. *)
Definition extractNumeric (v : option jsstring) : jsstring :=
  match v with
  | None => []
  | Some str => List.filter is_digit str
  end.

(** The code units that the class [^0-9.-] leaves out: the digits, the
    full stop (46) and the hyphen (45). *)
Definition numeric_char (ch : N) : bool :=
  (is_digit ch || (ch =? 46) || (ch =? 45))%N.

(** The text that [replace] puts in for a match of a pattern without
    groups, when it is given the replacement as a string: a dollar sign (36)
    followed by a dollar sign stands for a dollar sign, followed by an
    ampersand (38) for the match, by a backtick (96) for what precedes the
    match and by a single quote (39) for what follows it; anything else
    stands for itself. *)
Fixpoint substitution (repl matched before after : jsstring) : jsstring :=
  match repl with
  | [] => []
  | c :: r =>
      if (c =? 36)%N then
        match r with
        | [] => [c]
        | d :: r' =>
            if (d =? 36)%N then 36%N :: substitution r' matched before after
            else if (d =? 38)%N
            then matched ++ substitution r' matched before after
            else if (d =? 96)%N
            then before ++ substitution r' matched before after
            else if (d =? 39)%N
            then after ++ substitution r' matched before after
            else c :: substitution r matched before after
        end
      else c :: substitution r matched before after
  end.

(** [str.replace(pattern, separator)] for the class above, repeated, with
    the flag g: every maximal run of code units outside the class is
    replaced. [before] is the part of the string already read, up to the
    run being read, and [run] is this run. *)
Fixpoint replace_runs (separator before run s : jsstring) : jsstring :=
  match s with
  | [] =>
      match run with
      | [] => []
      | _ => substitution separator run before []
      end
  | c :: r =>
      if numeric_char c then
        match run with
        | [] => c :: replace_runs separator (before ++ [c]) [] r
        | _ =>
            substitution separator run before s
            ++ c :: replace_runs separator (before ++ run ++ [c]) [] r
        end
      else replace_runs separator before (run ++ [c]) r
  end.

Definition unifySeparator (v : option jsstring) (separator : jsstring)
    : jsstring :=
  match v with
  | None => []
  | Some str => replace_runs separator [] [] str
  end.

(** The same replacement for a separator that holds no dollar sign and so
    stands for itself; [inrun] tells whether a run is being read. It is
    what [replace_runs] computes then, and serves to reason about it. *)
Fixpoint put_separator (separator : jsstring) (inrun : bool) (s : jsstring)
    : jsstring :=
  match s with
  | [] => if inrun then separator else []
  | c :: r =>
      if numeric_char c
      then (if inrun then separator else []) ++ c :: put_separator separator false r
      else put_separator separator true r
  end.

(** * Strings (src/src/dom.ts, lines 29-50) *)

(** The code units that [trim] removes: white space and line terminators. *)
Definition is_space (ch : N) : bool :=
  (existsb (N.eqb ch)
     [9; 10; 11; 12; 13; 32; 160; 5760; 8232; 8233; 8239; 8287; 12288; 65279]
   || ((8192 <=? ch) && (ch <=? 8202)))%N.

Fixpoint trim_start (s : jsstring) : jsstring :=
  match s with
  | [] => []
  | c :: r => if is_space c then trim_start r else s
  end.

(** [s.trim()] *)
Definition trim (s : jsstring) : jsstring :=
  rev (trim_start (rev (trim_start s))).

(** [pieces.join(sep)] *)
Fixpoint join (sep : jsstring) (pieces : list jsstring) : jsstring :=
  match pieces with
  | [] => []
  | [p] => p
  | p :: ps => p ++ sep ++ join sep ps
  end.

(** A non-empty string that neither begins nor ends with white space. *)
Definition clean (p : jsstring) : Prop :=
  exists a b, head p = Some a /\ last p = Some b /\
    is_space a = false /\ is_space b = false.

Module Text.

(** What the callback of [map] returns for an item: [None] is null,
    undefined or NaN, [Some s] a string. *)
Definition piece (item : option jsstring) : jsstring :=
  match item with
  | None => []
  | Some s => let str := trim s in if 0 <? length str then str else []
  end.

(** [Boolean(p)] for a string [p] *)
Definition nonempty (p : jsstring) : bool :=
  match p with [] => false | _ => true end.

Definition concat (items : list (option jsstring)) : jsstring :=
  join (lit " ") (List.filter nonempty (map piece items)).

(** truncate, for a whole number [length] *)
Definition truncate (v : jsstring) (length : Z) : jsstring :=
  if (length <=? 0)%Z then []
  else if (Z.of_nat (List.length v) <=? length)%Z then v
  else take (Z.to_nat length) v ++ lit "...".

End Text.

(** 0: the array [[1]] with an own property [tag: 7]   1: [{list: #0}] *)
Definition tagged_store : heap :=
  [ Obj (KArray [VNum 1]) [("tag", VNum 7)]; plain [("list", VRef 0)] ].
(** ** Basic facts *)

Lemma reach_prim sub h v l : reach sub h v l -> is_prim v = false.
Proof. by destruct 1. Qed.

Lemma slot_any_reach h v l : slot_reach h v l -> any_reach h v l.
Proof.
  induction 1 as [|? ? ? ? Hl Hin _ IH]; [constructor|].
  eapply reach_step; eauto. unfold children. apply elem_of_app; by left.
Qed.

(** Reachability only depends on the objects that are reached. *)
Lemma reach_agree sub h h' v l :
  (forall x, reach sub h v x -> h' !! x = h !! x) ->
  reach sub h v l -> reach sub h' v l.
Proof.
  intros Hag Hr. induction Hr as [|l o v l' Hl Hin Hr IH]; [constructor|].
  eapply reach_step; [ | exact Hin | ].
  - rewrite Hag; [done | constructor].
  - apply IH. intros x Hx. apply Hag. eapply reach_step; eauto.
Qed.

Lemma reach_agree_inv sub h h' v l :
  (forall x, reach sub h v x -> h' !! x = h !! x) ->
  reach sub h' v l -> reach sub h v l.
Proof.
  intros Hag Hr. induction Hr as [|l o v l' Hl Hin Hr IH]; [constructor|].
  assert (Hl' : h !! l = Some o) by (rewrite <- Hag; [done | constructor]).
  eapply reach_step; [exact Hl' | exact Hin | ].
  apply IH. intros x Hx. apply Hag. eapply reach_step; eauto.
Qed.

Lemma sep_agree h h' vs :
  (forall v x, v ∈ vs -> slot_reach h v x -> h' !! x = h !! x) ->
  sep h vs -> sep h' vs.
Proof.
  induction vs as [|v vs IH]; simpl; [done|].
  intros Hag [Hd Hs]. split.
  - intros l v' Hr Hin Hr'.
    eapply (Hd l v'); [ | done | ].
    + eapply reach_agree_inv; [ | exact Hr]. intros; eapply Hag; [left | done].
    + eapply reach_agree_inv; [ | exact Hr']. intros; eapply Hag; [by right | done].
  - apply IH; [ | done]. intros; eapply Hag; [by right | done].
Qed.

Lemma tree_agree h h' v :
  tree h v ->
  (forall x, slot_reach h v x -> h' !! x = h !! x) ->
  tree h' v.
Proof.
  induction 1 as [v Hp | l o Hl Hsep Hch IH Hacyc]; intros Hag.
  - by constructor.
  - assert (Hsub : forall v x, v ∈ slots o -> slot_reach h v x -> h' !! x = h !! x).
    { intros v x Hin Hr. apply Hag. eapply reach_step; eauto. }
    apply tree_node with o.
    + rewrite Hag; [done | constructor].
    + eapply sep_agree; eauto.
    + intros v Hin. apply IH; [done|]. intros; eapply Hsub; eauto.
    + intros v Hin Hr. eapply Hacyc; [exact Hin|].
      eapply reach_agree_inv; [ | exact Hr]. intros; eapply Hsub; eauto.
Qed.

Lemma tree_reach_alloc h v l : tree h v -> slot_reach h v l -> l < length h.
Proof.
  intros Ht Hr. revert Ht.
  induction Hr as [l | l o v l' Hl Hin Hr IH]; intros Ht.
  - inversion Ht as [? Hp | ? o Hl]; subst; [done|].
    by eapply lookup_lt_Some.
  - inversion Ht as [? Hp | ? o' Hl' _ Hch _]; subst; [done|].
    apply IH. apply Hch. congruence.
Qed.

(** ** Own properties: reads after writes *)

Lemma get_set_eq k v ps : get_prop k (set_prop k v ps) = v.
Proof.
  induction ps as [|[k' v'] ps IH]; simpl.
  - by rewrite String.eqb_refl.
  - destruct (String.eqb k k') eqn:E; simpl; rewrite ?String.eqb_refl, ?E; done.
Qed.

Lemma get_set_ne k k' v ps :
  k <> k' -> get_prop k (set_prop k' v ps) = get_prop k ps.
Proof.
  intros Hne. induction ps as [|[k'' v''] ps IH]; simpl.
  - by apply String.eqb_neq in Hne as ->.
  - destruct (String.eqb k' k'') eqn:E; simpl.
    + apply String.eqb_eq in E as <-. by apply String.eqb_neq in Hne as ->.
    + by rewrite IH.
Qed.

Lemma get_prop_in k ps l : get_prop k ps = VRef l -> VRef l ∈ map snd ps.
Proof.
  induction ps as [|[k' v'] ps IH]; simpl; [done|].
  destruct (String.eqb k k'); intros H.
  - subst. by left.
  - right. auto.
Qed.

Lemma get_prop_key k ps : get_prop k ps <> VUndef -> k ∈ keys ps.
Proof.
  unfold keys. induction ps as [|[k' v'] ps IH]; simpl; [done|].
  destruct (String.eqb k k') eqn:E; intros H.
  - apply String.eqb_eq in E as ->. by left.
  - right. auto.
Qed.

Lemma read_prop_in o k l : read_prop o k = VRef l -> VRef l ∈ slots o.
Proof.
  unfold read_prop, slots. destruct (okind o) as [|es| | |]; simpl;
    try (intros H; apply get_prop_in in H; done).
  destruct (array_index k) as [i|].
  - destruct (es !! i) as [v|] eqn:E; simpl; [|done].
    intros ->. apply elem_of_app; left. by eapply list_elem_of_lookup_2.
  - intros H. apply elem_of_app; right. by eapply get_prop_in.
Qed.

(** The effect of setting an own property on the slots of an object: one
    slot is replaced or a new one is added. *)
Lemma set_prop_slots k v ps :
  exists s1 old s2,
    map snd ps = s1 ++ old ++ s2 /\
    map snd (set_prop k v ps) = s1 ++ [v] ++ s2 /\ length old <= 1.
Proof.
  induction ps as [|[k' v'] ps (s1 & old & s2 & E1 & E2 & Hl)]; simpl.
  - exists [], [], []. simpl. auto.
  - destruct (String.eqb k k'); simpl.
    + exists [], [v'], (map snd ps). simpl. auto.
    + exists (v' :: s1), old, s2. simpl. rewrite E1, E2. auto.
Qed.

Lemma write_slots o k v :
  exists s1 old pads s2,
    slots o = s1 ++ old ++ s2 /\
    slots (set_own o k v) = s1 ++ pads ++ [v] ++ s2 /\
    Forall (fun p => is_prim p = true) pads /\ length old <= 1.
Proof.
  destruct o as [kd ps]. unfold set_own, slots. cbn [okind oprops].
  destruct (set_prop_slots k v ps) as (s1 & old & s2 & E1 & E2 & Hl).
  exists (match kd with KArray es => es | _ => [] end ++ s1), old, [], s2.
  rewrite E1, E2, <- !app_assoc. auto.
Qed.

Lemma write_contents o k v : contents (set_own o k v) = contents o.
Proof. done. Qed.

Lemma write_plain o k v :
  okind o = KPlain ->
  set_own o k v = Obj KPlain (set_prop k v (oprops o)).
Proof. unfold set_own. by intros ->. Qed.

(** ** Assignments under ordinary keys *)

Lemma ordinary_cases k :
  ordinary k = true ->
  k <> "__proto__" /\ k <> "length" /\ k <> "size" /\ array_index k = None.
Proof.
  unfold ordinary. rewrite !andb_true_iff, !negb_true_iff, !String.eqb_neq.
  intros [[[? ?] ?] Hi]. split_and!; try done. by destruct (array_index k).
Qed.

Lemma write_ordinary o k v :
  ordinary k = true -> write_prop o k v = Ok (set_own o k v).
Proof.
  intros (Hp & Hl & Hs & Hi)%ordinary_cases. unfold write_prop.
  apply String.eqb_neq in Hp, Hl, Hs. rewrite Hp, Hi, Hl, Hs. cbn [andb].
  by destruct (okind o).
Qed.

Lemma read_ordinary o k :
  ordinary k = true -> read_prop o k = get_prop k (oprops o).
Proof.
  intros (_ & _ & _ & Hi)%ordinary_cases. unfold read_prop. rewrite Hi.
  by destruct (okind o).
Qed.

Lemma read_target_ordinary h lt ot k :
  h !! lt = Some ot -> ordinary k = true ->
  read_target h (VRef lt) k = Ok (read_prop ot k).
Proof.
  intros Hl Ho. pose proof Ho as (Hp & _)%ordinary_cases.
  apply String.eqb_neq in Hp. cbn [read_target]. by rewrite Hl, Hp.
Qed.

Lemma store_ordinary h lt ot k v :
  h !! lt = Some ot -> ordinary k = true ->
  store_prop h (VRef lt) k v = Ok (<[lt := set_own ot k v]> h).
Proof.
  intros Hl Ho. cbn [store_prop]. rewrite Hl, write_ordinary by done. done.
Qed.

(** ** The strategy of a path *)

Lemma get_prop_not_own k ps : has_own k ps = false -> get_prop k ps = VUndef.
Proof.
  unfold has_own. induction ps as [|[k' v] ps IH]; simpl; [done|].
  destruct (String.eqb k k'); [done|]. apply IH.
Qed.

(** Testing the strategy against a string only sees own entries. *)
Lemma entry_is_get s strategies p :
  entry_is s (strategy_entry strategies p) = is_str s (get_prop p strategies).
Proof.
  unfold strategy_entry. destruct (has_own p strategies) eqn:E; [done|].
  rewrite (get_prop_not_own _ _ E). by destruct (existsb _ _).
Qed.



(** ** Disjointness of sibling subtrees *)

Lemma sep_app h a b :
  sep h (a ++ b) <->
  sep h a /\ sep h b /\
  (forall l u v, u ∈ a -> v ∈ b -> slot_reach h u l -> ~ slot_reach h v l).
Proof.
  induction a as [|x a IH]; simpl.
  - split; [|tauto]. intros Hb. split_and!; auto.
    intros ? ? ? Hu. by apply elem_of_nil in Hu.
  - rewrite IH. split.
    + intros (Hx & Ha & Hb & Hab). split_and!; auto.
      * intros l v' Hr Hin. apply Hx; [done|]. apply elem_of_app; by left.
      * intros l u v [->|Hu]%elem_of_cons Hv Hr.
        -- apply Hx; [done|]. apply elem_of_app; by right.
        -- by eapply Hab.
    + intros ((Hx & Ha) & Hb & Hab). split_and!; auto.
      * intros l v' Hr [Hin|Hin]%elem_of_app; [by apply Hx|].
        eapply Hab; [by left|done|done].
      * intros l u v Hu Hv. eapply Hab; [by right|done].
Qed.

Lemma sep_prims h vs : Forall (fun p => is_prim p = true) vs -> sep h vs.
Proof.
  induction 1 as [|v vs Hp _ IH]; simpl; [done|]. split; [|done].
  intros l v' Hr. apply reach_prim in Hr. congruence.
Qed.

Lemma sep_single h v : sep h [v].
Proof. simpl. split; [|done]. intros ? ? ? H. by apply elem_of_nil in H. Qed.

(** Replacing one slot by a value whose subtree is disjoint from the rest. *)
Lemma sep_replace h s1 old pads v s2 :
  sep h (s1 ++ old ++ s2) ->
  Forall (fun p => is_prim p = true) pads ->
  (forall l u, u ∈ s1 ++ s2 -> slot_reach h v l -> ~ slot_reach h u l) ->
  sep h (s1 ++ pads ++ [v] ++ s2).
Proof.
  intros Hs Hp Hv.
  apply sep_app in Hs as (H1 & Hs & H1o).
  apply sep_app in Hs as (Ho & H2 & Ho2).
  assert (Hprim : forall l u, u ∈ pads -> ~ slot_reach h u l).
  { intros l u Hu Hr. apply reach_prim in Hr.
    rewrite Forall_forall in Hp. specialize (Hp u Hu). congruence. }
  apply sep_app; split_and!; auto.
  - apply sep_app; split_and!; [by apply sep_prims | | ].
    + apply sep_app; split_and!; [apply sep_single | done |].
      intros l u w ->%list_elem_of_singleton Hw Hr.
      apply Hv; [|done]. apply elem_of_app; by right.
    + intros l u w Hu _ Hr. exfalso. by eapply Hprim.
  - intros l u w Hu Hw Hr Hr'.
    apply elem_of_app in Hw as [Hw|Hw]; [by eapply Hprim|].
    apply elem_of_app in Hw as [->%list_elem_of_singleton|Hw].
    + eapply Hv; [ | exact Hr' | exact Hr]. apply elem_of_app; by left.
    + eapply H1o; [exact Hu | | exact Hr | exact Hr'].
      apply elem_of_app; by right.
Qed.

(** ** Store extension *)

Lemma reach_inv sub h l x :
  reach sub h (VRef l) x ->
  x = l \/ exists o v, h !! l = Some o /\ v ∈ sub o /\ reach sub h v x.
Proof. inversion 1; subst; eauto 6. Qed.

Lemma tree_ext h ext v : tree h v -> tree (h ++ ext) v.
Proof.
  intros Ht. eapply tree_agree; [done|]. intros x Hx.
  apply lookup_app_l. by eapply tree_reach_alloc.
Qed.

Lemma reach_ext h ext v l :
  tree h v -> slot_reach (h ++ ext) v l -> slot_reach h v l.
Proof.
  intros Ht. apply reach_agree_inv. intros x Hx.
  apply lookup_app_l. by eapply tree_reach_alloc.
Qed.

Lemma region_ext h ext v a b :
  tree h v -> region h v a b -> region (h ++ ext) v a b.
Proof. intros Ht Hr l Hl. apply Hr. by eapply reach_ext. Qed.

Lemma region_weaken h v a b a' b' :
  region h v a b -> a' <= a -> b <= b' -> region h v a' b'.
Proof. intros Hr ? ? l Hl. specialize (Hr l Hl). lia. Qed.

Lemma region_prim h v a b : is_prim v = true -> region h v a b.
Proof. intros Hp l Hl. apply reach_prim in Hl. congruence. Qed.

(** Allocating an object above a forest of disjoint trees gives a tree. *)
Lemma tree_alloc h kd ps a :
  let o := Obj kd ps in
  a <= length h ->
  sep h (slots o) ->
  (forall v, v ∈ slots o -> tree h v /\ region h v a (length h)) ->
  tree (h ++ [o]) (VRef (length h)) /\
  region (h ++ [o]) (VRef (length h)) a (length (h ++ [o])).
Proof.
  intros o Ha Hsep Hch.
  assert (Hl : (h ++ [o]) !! length h = Some o).
  { rewrite lookup_app_r by lia. by rewrite Nat.sub_diag. }
  assert (Hreg : forall v, v ∈ slots o -> region (h ++ [o]) v a (length h)).
  { intros v Hv. apply region_ext; by apply Hch. }
  split.
  - apply tree_node with o; [done | | | ].
    + eapply sep_agree; [|exact Hsep]. intros v x Hv Hx.
      apply lookup_app_l. eapply tree_reach_alloc; [|exact Hx]. by apply Hch.
    + intros v Hv. apply tree_ext. by apply Hch.
    + intros v Hv Hr. apply (Hreg v Hv) in Hr. lia.
  - intros l Hr. rewrite length_app. simpl.
    apply reach_inv in Hr as [->|(o' & v & Ho' & Hv & Hr)].
    + lia.
    + assert (Some o' = Some o) as [= ->] by (rewrite <- Ho'; exact Hl).
      apply (Hreg v Hv) in Hr. lia.
Qed.

(** ** Shape of a clone *)

Lemma forest_ext h ext a vs : forest h a vs -> forest (h ++ ext) a vs.
Proof.
  intros [Hs Hf]. split.
  - eapply sep_agree; [|exact Hs]. intros v x Hv Hx.
    apply lookup_app_l. eapply tree_reach_alloc; [|exact Hx]. by apply Hf.
  - intros v Hv. destruct (Hf v Hv) as [Ht Hr]. split; [by apply tree_ext|].
    rewrite length_app. eapply region_weaken; [by apply region_ext| |]; lia.
Qed.

Lemma forest_weaken h a a' vs : forest h a vs -> a' <= a -> forest h a' vs.
Proof.
  intros [Hs Hf] Ha. split; [done|]. intros v Hv.
  destruct (Hf v Hv). split; [done|]. eapply region_weaken; eauto.
Qed.

(** A tree disjoint from the other trees of a forest can take a slot. *)
Lemma forest_replace h a s1 old s2 v :
  forest h a (s1 ++ old ++ s2) ->
  tree h v -> region h v a (length h) ->
  (forall l u, u ∈ s1 ++ s2 -> slot_reach h v l -> ~ slot_reach h u l) ->
  forest h a (s1 ++ [v] ++ s2).
Proof.
  intros [Hs Hf] Ht Hr Hd. split.
  - by apply (sep_replace h s1 old [] v s2); [done | constructor |].
  - intros u. rewrite !elem_of_app, list_elem_of_singleton.
    intros [Hu|[->|Hu]].
    + apply Hf. apply elem_of_app; by left.
    + done.
    + apply Hf. rewrite !elem_of_app; auto.
Qed.

Section CloneShape.
Variable clone : heap -> value -> res (value * heap).
Hypothesis clone_ok :
  forall h v v' h', clone h v = Ok (v', h') -> clone_post h v v' h'.

Lemma clone_elems_shape vs : forall h vs' h',
  clone_elems clone h vs = Ok (vs', h') ->
  (exists ext, h' = h ++ ext) /\ forest h' (length h) vs'.
Proof.
  induction vs as [|v vs IH]; simpl; intros h vs' h' H.
  - injection H as <- <-. split; [exists []; by rewrite app_nil_r|].
    split; [done|]. intros v Hv. by apply elem_of_nil in Hv.
  - destruct (clone h v) as [[v1 h1]| | |] eqn:E1; simpl in H; try done.
    destruct (clone_elems clone h1 vs) as [[vs2 h2]| | |] eqn:E2;
      simpl in H; try done.
    injection H as <- <-.
    apply clone_ok in E1 as ([e1 ->] & _ & _ & Ht & Hr).
    apply IH in E2 as ([e2 ->] & Hf).
    split; [exists (e1 ++ e2); by rewrite app_assoc|].
    apply (forest_replace _ _ [] [] vs2 v1); simpl.
    + eapply forest_weaken; [exact Hf|]. rewrite length_app. lia.
    + by apply tree_ext.
    + rewrite length_app.
      eapply region_weaken; [by apply region_ext | |]; lia.
    + intros l u Hu Hl Hl'. destruct Hf as [_ Hf].
      apply reach_ext in Hl; [|done]. apply Hr in Hl.
      apply (Hf u Hu) in Hl'. lia.
Qed.

Lemma clone_keys_shape src ks : forall h acc cloned h' a,
  a <= length h -> forest h a (map snd acc) ->
  clone_keys clone src h ks acc = Ok (cloned, h') ->
  (exists ext, h' = h ++ ext) /\ forest h' a (map snd cloned).
Proof.
  induction ks as [|key ks IH]; simpl; intros h acc cloned h' a Ha Hf H.
  - injection H as <- <-. split; [exists []; by rewrite app_nil_r|done].
  - destruct (clone h (get_prop key src)) as [[v1 h1]| | |] eqn:E1;
      simpl in H; try done.
    apply clone_ok in E1 as ([e1 ->] & _ & _ & Ht & Hr).
    apply IH with (a := a) in H as ([e2 ->] & Hf').
    + split; [exists (e1 ++ e2); by rewrite app_assoc|done].
    + rewrite length_app. lia.
    + unfold assign. destruct (String.eqb key "__proto__");
        [by apply forest_ext|].
      destruct (set_prop_slots key v1 acc) as (s1 & old & s2 & E & -> & _).
      rewrite E in Hf.
      apply (forest_replace _ _ s1 old s2 v1).
      * by apply forest_ext.
      * done.
      * eapply region_weaken; [exact Hr | lia | lia].
      * intros l u Hu Hl Hl'. destruct Hf as [_ Hf].
        assert (Hu' : u ∈ s1 ++ old ++ s2).
        { revert Hu. rewrite !elem_of_app. tauto. }
        destruct (Hf u Hu') as [Htu Hru].
        apply reach_ext in Hl'; [|done].
        apply Hr in Hl. apply Hru in Hl'. lia.
Qed.
End CloneShape.

Lemma clone_post_alloc h e1 kd ps l :
  forest (h ++ e1) (length h) (slots (Obj kd ps)) ->
  clone_post h (VRef l) (VRef (length (h ++ e1))) ((h ++ e1) ++ [Obj kd ps]).
Proof.
  intros [Hs Hf].
  destruct (tree_alloc (h ++ e1) kd ps (length h)) as [Ht Hr]; [ | done | done | ].
  { rewrite length_app. lia. }
  split_and!; try done.
  exists (e1 ++ [Obj kd ps]). by rewrite app_assoc.
Qed.

Lemma clone_post_prim h v : is_prim v = true -> clone_post h v v h.
Proof.
  intros Hp. split_and!; auto.
  - exists []. by rewrite app_nil_r.
  - by constructor.
  - by apply region_prim.
Qed.

Lemma forest_nil h a : forest h a [].
Proof. split; [done|]. intros v Hv. by apply elem_of_nil in Hv. Qed.

Lemma deepClone_shape n : forall h v v' h',
  deepClone n h v = Ok (v', h') -> clone_post h v v' h'.
Proof.
  induction n as [|n IH]; intros h v v' h' H.
  - destruct v; simpl in H; try done; injection H as <- <-;
      by apply clone_post_prim.
  - destruct v as [| | | | |l]; simpl in H;
      try (injection H as <- <-; by apply clone_post_prim).
    destruct (h !! l) as [[kd ps]|] eqn:El; [|done].
    destruct (methods_ok _); [|done]. simpl in H.
    destruct kd as [|es|t|entries|members].
    + destruct (clone_keys (deepClone n) ps h (keys ps) [])
        as [[cloned h1]| | |] eqn:E; simpl in H; try done.
      injection H as <- <-.
      apply clone_keys_shape with (a := length h) in E as ([e1 ->] & Hf);
        [ | exact IH | lia | apply forest_nil].
      by apply clone_post_alloc.
    + destruct (clone_elems (deepClone n) h es)
        as [[vs h1]| | |] eqn:E; simpl in H; try done.
      injection H as <- <-.
      apply clone_elems_shape in E as ([e1 ->] & Hf); [ | exact IH].
      apply clone_post_alloc. unfold slots; simpl. by rewrite app_nil_r.
    + injection H as <- <-. rewrite <- (app_nil_r h) at 2 3.
      apply clone_post_alloc. apply forest_nil.
    + injection H as <- <-. rewrite <- (app_nil_r h) at 2 3.
      apply clone_post_alloc. apply forest_nil.
    + injection H as <- <-. rewrite <- (app_nil_r h) at 2 3.
      apply clone_post_alloc. apply forest_nil.
Qed.

(** ** deepClone terminates on bounded inputs *)

Lemma bounded_ext n : forall h ext v,
  bounded n h v = true -> bounded n (h ++ ext) v = true.
Proof.
  induction n as [|n IH]; intros h ext v; destruct v as [| | | | |l]; simpl;
    try done.
  destruct (h !! l) as [o|] eqn:El; [|done].
  rewrite (lookup_app_l_Some _ _ _ _ El).
  intros [-> H]%andb_true_iff. cbn [andb]. revert H.
  destruct (okind o); try done; rewrite !forallb_forall; intros H x Hx;
    apply IH; by apply H.
Qed.

Section CloneTotal.
Variable clone : heap -> value -> res (value * heap).
Variable ok : heap -> value -> bool.
Hypothesis ok_ext : forall h ext v, ok h v = true -> ok (h ++ ext) v = true.
Hypothesis clone_total : forall h v, ok h v = true ->
  exists v' ext, clone h v = Ok (v', h ++ ext).

Lemma clone_elems_total vs : forall h,
  forallb (ok h) vs = true ->
  exists vs' ext, clone_elems clone h vs = Ok (vs', h ++ ext).
Proof.
  induction vs as [|v vs IH]; simpl; intros h H.
  - exists [], []. by rewrite app_nil_r.
  - apply andb_true_iff in H as [Hv Hvs].
    destruct (clone_total h v Hv) as (v' & e1 & ->). simpl.
    destruct (IH (h ++ e1)) as (vs' & e2 & ->).
    + rewrite forallb_forall in *. intros x Hx. apply ok_ext. by apply Hvs.
    + simpl. exists (v' :: vs'), (e1 ++ e2). by rewrite app_assoc.
Qed.

Lemma clone_keys_total src ks : forall h acc,
  (forall k, ok h (get_prop k src) = true) ->
  exists cloned ext, clone_keys clone src h ks acc = Ok (cloned, h ++ ext).
Proof.
  induction ks as [|key ks IH]; simpl; intros h acc H.
  - exists acc, []. by rewrite app_nil_r.
  - destruct (clone_total h _ (H key)) as (v' & e1 & ->). simpl.
    destruct (IH (h ++ e1) (assign key v' acc)) as (cl & e2 & ->).
    + intros k. apply ok_ext, H.
    + exists cl, (e1 ++ e2). by rewrite app_assoc.
Qed.
End CloneTotal.

Lemma get_prop_forallb (P : value -> bool) k ps :
  P VUndef = true -> forallb P (map snd ps) = true -> P (get_prop k ps) = true.
Proof.
  intros Hu. induction ps as [|[k' v'] ps IH]; simpl; [done|].
  intros [Hv Hps]%andb_true_iff. destruct (String.eqb k k'); auto.
Qed.

Lemma deepClone_total n : forall h v,
  bounded n h v = true -> exists v' ext, deepClone n h v = Ok (v', h ++ ext).
Proof.
  induction n as [|n IH]; intros h v Hb.
  - destruct v; try done; eexists _, []; simpl; by rewrite app_nil_r.
  - destruct v as [| | | | |l];
      try (eexists _, []; simpl; by rewrite app_nil_r).
    simpl in *. destruct (h !! l) as [[kd ps]|] eqn:El; [|done].
    apply andb_true_iff in Hb as [-> Hb]. simpl in *.
    destruct kd as [|es|t|entries|members].
    + destruct (clone_keys_total (deepClone n) (bounded n)
                  (bounded_ext n) IH ps (keys ps) h [])
        as (cl & e1 & ->).
      { intros k. apply get_prop_forallb; [by destruct n | done]. }
      simpl. unfold alloc. eexists _, (e1 ++ [_]). by rewrite app_assoc.
    + destruct (clone_elems_total (deepClone n) (bounded n)
                  (bounded_ext n) IH es h Hb) as (vs & e1 & ->).
      simpl. unfold alloc. eexists _, (e1 ++ [_]). by rewrite app_assoc.
    + by eexists _, [_].
    + by eexists _, [_].
    + by eexists _, [_].
Qed.

(** ** Deep structure: traversal lemmas *)

Lemma traverse_ext {A B} (f g : A -> option B) xs :
  (forall x, x ∈ xs -> f x = g x) -> traverse f xs = traverse g xs.
Proof.
  induction xs as [|x xs IH]; simpl; [done|]. intros H.
  rewrite (H x) by by left. rewrite IH; [done|]. intros; apply H; by right.
Qed.

Lemma traverse_is_Some {A B} (f : A -> option B) xs :
  (forall x, x ∈ xs -> is_Some (f x)) -> is_Some (traverse f xs).
Proof.
  induction xs as [|x xs IH]; simpl; [by eexists|]. intros H.
  destruct (H x) as [y ->]; [by left|].
  destruct IH as [ys ->]; [intros; apply H; by right|]. by eexists.
Qed.

Lemma traverse_mono {A B} (f g : A -> option B) xs ys :
  (forall x y, x ∈ xs -> f x = Some y -> g x = Some y) ->
  traverse f xs = Some ys -> traverse g xs = Some ys.
Proof.
  revert ys. induction xs as [|x xs IH]; simpl; intros ys H; [done|].
  destruct (f x) as [y|] eqn:E; [|done].
  destruct (traverse f xs) as [ys'|] eqn:E'; [|done]. intros [= <-].
  rewrite (H x y) by (done || by left).
  rewrite (IH ys'); [done | | done]. intros; apply H; [by right|done].
Qed.

(** ** Well-formed values *)

Lemma prefix_refl h : prefix h h.
Proof. by intros l o. Qed.

Lemma prefix_app h0 h ext : prefix h0 h -> prefix h0 (h ++ ext).
Proof. intros H l o Hl. apply lookup_app_l_Some. by apply H. Qed.

Lemma prefix_take h0 h : prefix h0 h -> take (length h0) h = h0.
Proof.
  intros H. apply list_eq. intros i.
  destruct (decide (i < length h0)) as [Hi|Hi].
  - rewrite lookup_take_lt by done.
    destruct (lookup_lt_is_Some_2 h0 i Hi) as [o Ho]. rewrite Ho. by apply H.
  - rewrite lookup_take_ge by lia. symmetry. apply lookup_ge_None. lia.
Qed.

Lemma wf_S n h l :
  wf (S n) h (VRef l) = true <->
  exists o, h !! l = Some o /\
    NoDup (keys (oprops o)) /\ no_props_unless_plain o = true /\
    has_own "__proto__" (oprops o) = false /\
    forall v, v ∈ children o -> wf n h v = true.
Proof.
  cbn [wf]. destruct (h !! l) as [o|]; [|split; [done | by intros (? & ? & _)]].
  rewrite !andb_true_iff, negb_true_iff, bool_decide_eq_true, forallb_forall.
  split.
  - intros [[[H1 H2] H3] H4]. exists o. split_and!; auto.
    intros v Hv. apply H4. by apply list_elem_of_In.
  - intros (o' & [= <-] & H1 & H2 & H3 & H4). split_and!; auto.
    intros v Hv. apply H4. by apply list_elem_of_In.
Qed.

Lemma wf_children n h l o v :
  wf (S n) h (VRef l) = true -> h !! l = Some o -> v ∈ children o ->
  wf n h v = true.
Proof.
  intros (o' & Hl' & _ & _ & _ & H)%wf_S Hl Hv.
  assert (o' = o) as -> by congruence. by apply H.
Qed.

Lemma wf_alloc n h l :
  wf n h (VRef l) = true ->
  exists n' o, n = S n' /\ h !! l = Some o /\
    NoDup (keys (oprops o)) /\ no_props_unless_plain o = true /\
    forall v, v ∈ children o -> wf n' h v = true.
Proof.
  destruct n as [|n']; [done|].
  intros (o & Hl & H1 & H2 & _ & H4)%wf_S. by exists n', o.
Qed.

(** A well-formed object has no own key [__proto__]. *)
Lemma wf_no_proto n h l o :
  wf n h (VRef l) = true -> h !! l = Some o -> "__proto__" ∉ keys (oprops o).
Proof.
  destruct n as [|n']; [done|].
  intros (o' & Hl' & _ & _ & H3 & _)%wf_S Hl Hin.
  assert (o' = o) as -> by congruence.
  unfold has_own in H3. apply not_true_iff_false in H3. apply H3.
  apply existsb_exists. exists "__proto__". split; [|done].
  by apply list_elem_of_In.
Qed.

Lemma wf_prim n h v : is_prim v = true -> wf n h v = true.
Proof. by destruct n, v. Qed.

Lemma wf_mono n : forall h v, wf n h v = true -> wf (S n) h v = true.
Proof.
  induction n as [|n IH]; intros h v; destruct v as [| | | | |l]; try done.
  intros (o & Hl & Hk & Hp & Hn & Hc)%wf_S.
  apply wf_S. exists o. split_and!; auto.
Qed.

(** An object without own properties, or a plain one, shadows no method. *)
Lemma wf_methods_ok o : no_props_unless_plain o = true -> methods_ok o = true.
Proof.
  unfold no_props_unless_plain, methods_ok, callable, species_ok.
  destruct o as [kd ps]. cbn [okind oprops].
  destruct kd, ps; done.
Qed.

Lemma wf_bounded n : forall h v, wf n h v = true -> bounded n h v = true.
Proof.
  induction n as [|n IH]; intros h v; destruct v as [| | | | |l]; try done.
  intros H. apply wf_alloc in H as (n' & o & [= <-] & Hl & Hk & Hp & Hc).
  simpl. rewrite Hl.
  assert (Hs : forall v, v ∈ slots o -> bounded n h v = true).
  { intros v Hv. apply IH, Hc. unfold children. apply elem_of_app; by left. }
  rewrite (wf_methods_ok _ Hp). cbn [andb].
  unfold slots in Hs.
  destruct (okind o); try done; apply forallb_forall;
    intros x Hx%list_elem_of_In; apply Hs; apply elem_of_app; auto.
Qed.

Lemma wf_prefix n : forall h0 h v,
  prefix h0 h -> wf n h0 v = true -> wf n h v = true.
Proof.
  induction n as [|n IH]; intros h0 h v Hp; destruct v as [| | | | |l];
    try done.
  intros (o & Hl & Hk & Hnp & Hn & Hc)%wf_S.
  apply wf_S. exists o. split_and!; auto.
  intros x Hx. apply (IH h0); [done|]. by apply Hc.
Qed.

(** ** Deep structure of well-formed values *)

Lemma reify_prim n h v : is_prim v = true -> reify n h v = Some (DPrim v).
Proof. by destruct n, v. Qed.

Lemma reify_S n h l :
  reify (S n) h (VRef l) =
  match h !! l with
  | None => None
  | Some o =>
      match traverse (reify n h) (slots o), traverse (reify n h) (contents o) with
      | Some ss, Some cs => Some (DObj (tag_of (okind o)) (keys (oprops o)) ss cs)
      | _, _ => None
      end
  end.
Proof. done. Qed.

Lemma reify_wf n : forall h v, wf n h v = true -> is_Some (reify n h v).
Proof.
  induction n as [|n IH]; intros h v; destruct v as [| | | | |l];
    try done; try (by eexists).
  intros H. apply wf_alloc in H as (n' & o & [= <-] & Hl & Hk & Hnp & Hc).
  simpl. rewrite Hl.
  destruct (traverse_is_Some (reify n h) (slots o)) as [ss ->].
  { intros x Hx. apply IH, Hc. apply elem_of_app; by left. }
  destruct (traverse_is_Some (reify n h) (contents o)) as [cs ->].
  { intros x Hx. apply IH, Hc. apply elem_of_app; by right. }
  by eexists.
Qed.

Lemma reify_mono n : forall h v d,
  reify n h v = Some d -> reify (S n) h v = Some d.
Proof.
  induction n as [|n IH]; intros h v d; destruct v as [| | | | |l]; try done.
  rewrite !reify_S. intros H.
  destruct (h !! l) as [o|]; [|done].
  destruct (traverse (reify n h) (slots o)) as [ss|] eqn:Es; [|done].
  destruct (traverse (reify n h) (contents o)) as [cs|] eqn:Ec; [|done].
  rewrite (traverse_mono _ (reify (S n) h) _ _ (fun x y _ => IH h x y) Es).
  by rewrite (traverse_mono _ (reify (S n) h) _ _ (fun x y _ => IH h x y) Ec).
Qed.

(** The deep structure of a well-formed value only depends on the part of
    the store it was well-formed in. *)
Lemma reify_prefix m : forall h0 h v k,
  prefix h0 h -> wf m h0 v = true -> reify k h v = reify k h0 v.
Proof.
  induction m as [|m IH]; intros h0 h v k Hp; destruct v as [| | | | |l];
    try done; try (by destruct k).
  intros H. apply wf_alloc in H as (n' & o & [= <-] & Hl & Hk & Hnp & Hc).
  destruct k as [|k]; [done|]. rewrite !reify_S, Hl, (Hp _ _ Hl).
  rewrite (traverse_ext (reify k h) (reify k h0) (slots o)).
  2:{ intros x Hx. apply IH; [done|]. apply Hc. apply elem_of_app; by left. }
  rewrite (traverse_ext (reify k h) (reify k h0) (contents o)); [done|].
  intros x Hx. apply IH; [done|]. apply Hc. apply elem_of_app; by right.
Qed.

(** The deep structure of a tree of new objects only depends on the objects
    of the tree. *)
Lemma reify_frame h0 n : forall h h' v,
  prefix h0 h -> prefix h0 h' -> contents_wf h0 h ->
  (forall l, slot_reach h v l -> length h0 <= l /\ h' !! l = h !! l) ->
  reify n h' v = reify n h v.
Proof.
  induction n as [|n IH]; intros h h' v Hp Hp' Hc Hag;
    destruct v as [| | | | |l]; try done.
  rewrite !reify_S. destruct (Hag l) as [Hl ->]; [constructor|].
  destruct (h !! l) as [o|] eqn:El; [|done].
  rewrite (traverse_ext (reify n h') (reify n h) (slots o)).
  2:{ intros x Hx. apply IH; try done. intros y Hy. apply Hag.
      eapply reach_step; eauto. }
  rewrite (traverse_ext (reify n h') (reify n h) (contents o)); [done|].
  intros x Hx. destruct (Hc l o x Hl El Hx) as [m Hm].
  rewrite (reify_prefix m h0 h') by done.
  by rewrite (reify_prefix m h0 h) by done.
Qed.

(** ** A clone has the deep structure of its source *)

Lemma set_prop_fresh k v ps : k ∉ keys ps -> set_prop k v ps = ps ++ [(k, v)].
Proof.
  unfold keys. induction ps as [|[k' v'] ps IH]; simpl; [done|].
  rewrite not_elem_of_cons. intros [Hne Hni].
  apply String.eqb_neq in Hne as ->. by rewrite IH.
Qed.

Lemma get_prop_keys ps :
  NoDup (keys ps) -> map (fun k => get_prop k ps) (keys ps) = map snd ps.
Proof.
  unfold keys. induction ps as [|[k v] ps IH]; simpl; [done|].
  intros [Hni Hnd]%NoDup_cons. rewrite String.eqb_refl. f_equal.
  rewrite <- IH by done. apply map_ext_in. intros k' Hk'%list_elem_of_In.
  destruct (String.eqb k' k) eqn:E; [|done].
  apply String.eqb_eq in E as ->. done.
Qed.

Lemma get_prop_wf n h k ps :
  (forall v, v ∈ map snd ps -> wf n h v = true) -> wf n h (get_prop k ps) = true.
Proof.
  induction ps as [|[k' v'] ps IH]; simpl; intros H; [by destruct n|].
  destruct (String.eqb k k'); [apply H; by left|].
  apply IH. intros; apply H; by right.
Qed.

Section CloneCorrect.
Variable h0 : heap.
Variable n : nat.
Variable clone : heap -> value -> res (value * heap).
Hypothesis clone_shape :
  forall h v v' h', clone h v = Ok (v', h') -> clone_post h v v' h'.
Hypothesis clone_correct :
  forall h v v' h', wf n h0 v = true ->
    prefix h0 h -> contents_wf h0 h -> length h0 <= length h ->
    clone h v = Ok (v', h') ->
    contents_wf h0 h' /\ reify n h' v' = reify n h0 v.

Lemma clone_elems_extends vs : forall h vs' h',
  clone_elems clone h vs = Ok (vs', h') -> exists ext, h' = h ++ ext.
Proof. intros h vs' h' H. by apply clone_elems_shape in H as [? _]. Qed.

Lemma clone_keys_extends src ks : forall h acc cloned h',
  clone_keys clone src h ks acc = Ok (cloned, h') -> exists ext, h' = h ++ ext.
Proof.
  induction ks as [|key ks IH]; simpl; intros h acc cloned h' H.
  - injection H as <- <-. exists []. by rewrite app_nil_r.
  - destruct (clone h (get_prop key src)) as [[v1 h1]| | |] eqn:E1;
      simpl in H; try done.
    apply clone_shape in E1 as ([e1 ->] & _).
    apply IH in H as [e2 ->]. exists (e1 ++ e2). by rewrite app_assoc.
Qed.

(** A value cloned earlier keeps its deep structure while the store is
    extended. *)
Lemma cloned_stable h v v1 e1 e2 :
  prefix h0 h -> contents_wf h0 (h ++ e1) -> length h0 <= length h ->
  clone_post h v v1 (h ++ e1) ->
  reify n ((h ++ e1) ++ e2) v1 = reify n (h ++ e1) v1.
Proof.
  intros Hp Hc Hlen (_ & _ & _ & Ht & Hr).
  apply (reify_frame h0); auto using prefix_app.
  intros l Hl. split; [apply Hr in Hl; lia|].
  apply lookup_app_l. by eapply tree_reach_alloc.
Qed.

Lemma clone_elems_correct vs : forall h vs' h',
  (forall v, v ∈ vs -> wf n h0 v = true) ->
  prefix h0 h -> contents_wf h0 h -> length h0 <= length h ->
  clone_elems clone h vs = Ok (vs', h') ->
  contents_wf h0 h' /\
  traverse (reify n h') vs' = traverse (reify n h0) vs.
Proof.
  induction vs as [|v vs IH]; simpl; intros h vs' h' Hwf Hp Hc Hlen H.
  - by injection H as <- <-.
  - destruct (clone h v) as [[v1 h1]| | |] eqn:E1; simpl in H; try done.
    destruct (clone_elems clone h1 vs) as [[vs2 h2]| | |] eqn:E2;
      simpl in H; try done.
    injection H as <- <-.
    pose proof (clone_shape _ _ _ _ E1) as Hpost.
    destruct Hpost as ([e1 ->] & Hpost').
    apply clone_correct in E1 as [Hc1 Hr1]; auto; [|apply Hwf; by left].
    pose proof (clone_elems_extends _ _ _ _ E2) as [e2 ->].
    apply IH in E2 as [Hc2 Hr2]; auto using prefix_app.
    2:{ intros; apply Hwf; by right. }
    2:{ rewrite length_app; lia. }
    split; [done|]. simpl.
    rewrite (cloned_stable h v v1 e1 e2), Hr1, Hr2; try done.
    split; [by exists e1|done].
Qed.

Lemma clone_keys_correct src ks : forall h acc cloned h',
  (forall k, wf n h0 (get_prop k src) = true) ->
  "__proto__" ∉ ks ->
  NoDup ks -> (forall k, k ∈ ks -> k ∉ keys acc) ->
  prefix h0 h -> contents_wf h0 h -> length h0 <= length h ->
  clone_keys clone src h ks acc = Ok (cloned, h') ->
  contents_wf h0 h' /\
  exists vs', cloned = acc ++ zip ks vs' /\ length vs' = length ks /\
    traverse (reify n h') vs' =
    traverse (reify n h0) (map (fun k => get_prop k src) ks).
Proof.
  induction ks as [|key ks IH]; simpl;
    intros h acc cloned h' Hwf Hnp Hnd Hfr Hp Hc Hlen H.
  - injection H as <- <-. split; [done|]. exists []. by rewrite app_nil_r.
  - destruct (clone h (get_prop key src)) as [[v1 h1]| | |] eqn:E1;
      simpl in H; try done.
    apply not_elem_of_cons in Hnp as [Hkey Hnp].
    unfold assign in H. rewrite (proj2 (String.eqb_neq _ _)) in H by done.
    apply NoDup_cons in Hnd as [Hni Hnd].
    pose proof (clone_shape _ _ _ _ E1) as Hpost.
    destruct Hpost as ([e1 ->] & Hpost').
    apply clone_correct in E1 as [Hc1 Hr1]; auto.
    pose proof (clone_keys_extends _ _ _ _ _ _ H) as [e2 ->].
    rewrite set_prop_fresh in H by (apply Hfr; by left).
    apply IH in H as (Hc2 & vs' & -> & Hl & Hr2); auto using prefix_app.
    2:{ intros k Hk. unfold keys. rewrite map_app, elem_of_app. simpl.
        rewrite list_elem_of_singleton. intros [Hin| ->]; [|done].
        eapply Hfr; [by right | exact Hin]. }
    2:{ rewrite length_app; lia. }
    split; [done|]. exists (v1 :: vs'). split_and!.
    + by rewrite <- app_assoc.
    + simpl. by rewrite Hl.
    + simpl. rewrite (cloned_stable h (get_prop key src) v1 e1 e2), Hr1, Hr2;
        try done.
      split; [by exists e1|done].
Qed.
End CloneCorrect.

Lemma contents_wf_alloc h0 h o :
  contents_wf h0 h ->
  (forall c, c ∈ contents o -> exists m, wf m h0 c = true) ->
  contents_wf h0 (h ++ [o]).
Proof.
  intros Hc Ho l o' c Hl Hlook Hin.
  apply lookup_app_Some in Hlook as [Hlook|[Hge Hlook]].
  - by eapply Hc.
  - apply list_lookup_singleton_Some in Hlook as [_ <-]. by apply Ho.
Qed.

Lemma forest_reify_ext h0 n h a vs ext :
  forest h a vs -> length h0 <= a -> prefix h0 h -> contents_wf h0 h ->
  traverse (reify n (h ++ ext)) vs = traverse (reify n h) vs.
Proof.
  intros [_ Hf] Ha Hp Hc. apply traverse_ext. intros v Hv.
  destruct (Hf v Hv) as [Ht Hr].
  apply (reify_frame h0); auto using prefix_app.
  intros l Hl. split; [apply Hr in Hl; lia|].
  apply lookup_app_l. by eapply tree_reach_alloc.
Qed.

Lemma lookup_alloc (h : heap) o : (h ++ [o]) !! length h = Some o.
Proof. rewrite lookup_app_r by lia. by rewrite Nat.sub_diag. Qed.

Lemma deepClone_prim n h v : is_prim v = true -> deepClone n h v = Ok (v, h).
Proof. by destruct n, v. Qed.

Lemma deepClone_S n h l :
  deepClone (S n) h (VRef l) =
  match h !! l with
  | None => Stuck
  | Some o =>
      if methods_ok o then
        match okind o with
        | KDate t => Ok (alloc (Obj (KDate t) []) h)
        | KMap entries => Ok (alloc (Obj (KMap entries) []) h)
        | KSet members => Ok (alloc (Obj (KSet members) []) h)
        | KArray elems =>
            do (vs, h1) <- clone_elems (deepClone n) h elems ;;
            Ok (alloc (Obj (KArray vs) []) h1)
        | KPlain =>
            do (cloned, h1) <-
              clone_keys (deepClone n) (oprops o) h (keys (oprops o)) [] ;;
            Ok (alloc (Obj KPlain cloned) h1)
        end
      else Stuck
  end.
Proof. done. Qed.

Lemma deepClone_correct h0 n : forall h v v' h',
  wf n h0 v = true ->
  prefix h0 h -> contents_wf h0 h -> length h0 <= length h ->
  deepClone n h v = Ok (v', h') ->
  contents_wf h0 h' /\ reify n h' v' = reify n h0 v.
Proof.
  induction n as [|n IH]; intros h v v' h' Hwf Hp Hc Hlen H.
  { destruct v; try done; injection H as <- <-; done. }
  destruct v as [| | | | |l]; try (injection H as <- <-; done).
  pose proof Hwf as (n' & [kd ps] & [= <-] & Hl & Hk & Hnp & Hch)%wf_alloc.
  pose proof (wf_no_proto _ _ _ _ Hwf Hl) as Hproto.
  rewrite deepClone_S, (Hp _ _ Hl), (wf_methods_ok _ Hnp) in H.
  simpl in H, Hk, Hproto.
  assert (Hcont : forall c, c ∈ contents (Obj kd ps) -> wf n h0 c = true).
  { intros c Hin. apply Hch. apply elem_of_app; by right. }
  assert (Hslot : forall c, c ∈ slots (Obj kd ps) -> wf n h0 c = true).
  { intros c Hin. apply Hch. apply elem_of_app; by left. }
  rewrite !reify_S, Hl.
  destruct kd as [|es|t|entries|members].
  - destruct (clone_keys (deepClone n) ps h (keys ps) [])
      as [[cloned h1]| | |] eqn:E; simpl in H; try done.
    injection H as <- <-.
    pose proof E as Hsh.
    apply clone_keys_shape with (a := length h) in Hsh as ([e1 ->] & Hf);
      [ | apply deepClone_shape | lia | apply forest_nil].
    apply (clone_keys_correct h0 n (deepClone n) (deepClone_shape n) IH) in E
      as (Hc1 & vs' & -> & Hlen' & Htr); auto.
    2:{ intros k. apply get_prop_wf. intros v Hv. apply Hslot. done. }
    2:{ intros k _ Hk'. by apply elem_of_nil in Hk'. }
    simpl in *. split.
    { apply contents_wf_alloc; [done|]. intros c Hin. by apply elem_of_nil in Hin. }
    rewrite lookup_alloc. unfold slots in *; simpl in *.
    unfold keys in *. rewrite fst_zip, snd_zip by lia.
    rewrite (forest_reify_ext h0 n _ (length h)); auto using prefix_app.
    2:{ by rewrite snd_zip in Hf by lia. }
    rewrite Htr. by rewrite <- (get_prop_keys ps Hk).
  - destruct (clone_elems (deepClone n) h es)
      as [[vs h1]| | |] eqn:E; simpl in H; try done.
    injection H as <- <-.
    pose proof E as Hsh.
    apply clone_elems_shape in Hsh as ([e1 ->] & Hf);
      [ | apply deepClone_shape].
    destruct ps; [|done].
    apply (clone_elems_correct h0 n (deepClone n) (deepClone_shape n) IH) in E
      as (Hc1 & Htr); auto.
    2:{ intros v Hv. apply Hslot. unfold slots; simpl. by rewrite app_nil_r. }
    split.
    { apply contents_wf_alloc; [done|]. intros c Hin. by apply elem_of_nil in Hin. }
    simpl. rewrite lookup_alloc. unfold slots in *; simpl in *.
    rewrite !app_nil_r.
    rewrite (forest_reify_ext h0 n _ (length h)); auto using prefix_app.
    by rewrite Htr.
  - injection H as <- <-. destruct ps; [|done]. split.
    { apply contents_wf_alloc; [done|]. intros c Hin. by apply elem_of_nil in Hin. }
    simpl. by rewrite lookup_alloc.
  - injection H as <- <-. destruct ps; [|done]. split.
    { apply contents_wf_alloc; [done|]. intros c Hin. eauto. }
    simpl. rewrite lookup_alloc. unfold slots; simpl.
    rewrite (traverse_ext (reify n (h ++ _)) (reify n h0)); [done|].
    intros x Hx. apply (reify_prefix n); auto using prefix_app.
  - injection H as <- <-. destruct ps; [|done]. split.
    { apply contents_wf_alloc; [done|]. intros c Hin. eauto. }
    simpl. rewrite lookup_alloc. unfold slots; simpl.
    rewrite (traverse_ext (reify n (h ++ _)) (reify n h0)); [done|].
    intros x Hx. apply (reify_prefix n); auto using prefix_app.
Qed.

(** ** Updating one slot of a tree node *)

Lemma tree_inv h l :
  tree h (VRef l) ->
  exists o, h !! l = Some o /\ sep h (slots o) /\
    (forall v, v ∈ slots o -> tree h v) /\
    (forall v, v ∈ slots o -> ~ slot_reach h v l).
Proof. inversion 1 as [? Hp|? o]; subst; [done|]. by exists o. Qed.

Lemma sep_drop h s1 old s2 : sep h (s1 ++ old ++ s2) -> sep h (s1 ++ s2).
Proof.
  intros (H1 & (Ho & H2 & Ho2)%sep_app & H1o)%sep_app.
  apply sep_app; split_and!; auto.
  intros l u v Hu Hv. eapply H1o; [done|]. rewrite elem_of_app; auto.
Qed.

Lemma sep_insert h s1 mid s2 :
  sep h (s1 ++ s2) -> sep h mid ->
  (forall l u v, u ∈ s1 ++ s2 -> v ∈ mid ->
     slot_reach h v l -> ~ slot_reach h u l) ->
  sep h (s1 ++ mid ++ s2).
Proof.
  intros (H1 & H2 & H12)%sep_app Hm Hd.
  apply sep_app; split_and!; auto.
  - apply sep_app; split_and!; auto.
    intros l u v Hu Hv Hr. apply (Hd l v u); [|done|done].
    apply elem_of_app; by right.
  - intros l u v Hu [Hv|Hv]%elem_of_app Hr Hr'.
    + apply (Hd l u v); [|done|done|done]. apply elem_of_app; by left.
    + by apply (H12 l u v).
Qed.

Lemma sep_pads_one h pads v :
  Forall (fun p => is_prim p = true) pads -> sep h (pads ++ [v]).
Proof.
  intros Hp. apply sep_app; split_and!; [by apply sep_prims|apply sep_single|].
  intros l u w Hu _ Hr. apply reach_prim in Hr.
  rewrite Forall_forall in Hp. specialize (Hp u Hu). congruence.
Qed.

Lemma tree_update h h' lt o o' s1 old pads v s2 :
  tree h (VRef lt) -> h !! lt = Some o -> h' !! lt = Some o' ->
  slots o = s1 ++ old ++ s2 ->
  slots o' = s1 ++ pads ++ [v] ++ s2 ->
  Forall (fun p => is_prim p = true) pads ->
  (forall u x, u ∈ s1 ++ s2 -> slot_reach h u x -> h' !! x = h !! x) ->
  tree h' v ->
  (forall l u, u ∈ s1 ++ s2 -> slot_reach h' v l -> ~ slot_reach h u l) ->
  ~ slot_reach h' v lt ->
  tree h' (VRef lt) /\
  (forall l, slot_reach h' (VRef lt) l ->
     l = lt \/ slot_reach h' v l \/ exists u, u ∈ s1 ++ s2 /\ slot_reach h u l).
Proof.
  intros Ht Hl Hl' Es Es' Hpads Hag Htv Hdisj Hacyc.
  apply tree_inv in Ht as (o1 & Hl1 & Hsep & Hch & Hac).
  assert (o1 = o) as -> by congruence.
  assert (Hsub : forall u, u ∈ s1 ++ s2 -> u ∈ slots o).
  { intros u. rewrite Es, !elem_of_app. tauto. }
  assert (Hback : forall u l, u ∈ s1 ++ s2 -> slot_reach h' u l -> slot_reach h u l).
  { intros u l Hu. apply reach_agree_inv. intros; by eapply Hag. }
  assert (Hprim : forall l u, u ∈ pads -> ~ slot_reach h' u l).
  { intros l u Hu Hr. apply reach_prim in Hr.
    rewrite Forall_forall in Hpads. specialize (Hpads u Hu). congruence. }
  assert (Hcases : forall u, u ∈ slots o' ->
            u ∈ pads \/ u = v \/ u ∈ s1 ++ s2).
  { intros u. rewrite Es', !elem_of_app, list_elem_of_singleton. tauto. }
  split.
  - apply tree_node with o'; [done | | | ].
    + rewrite Es'.
      replace (s1 ++ pads ++ [v] ++ s2) with (s1 ++ (pads ++ [v]) ++ s2)
        by (by rewrite <- !app_assoc).
      apply sep_insert.
      * eapply sep_agree; [|eapply sep_drop; by rewrite <- Es].
        intros; by eapply Hag.
      * by apply sep_pads_one.
      * intros l u w Hu [Hw| ->%list_elem_of_singleton]%elem_of_app Hr Hr'.
        -- by eapply Hprim.
        -- eapply Hdisj; eauto.
    + intros u [Hu|[->|Hu]]%Hcases.
      * constructor. rewrite Forall_forall in Hpads. auto.
      * done.
      * eapply tree_agree; [by apply Hch, Hsub|]. intros; by eapply Hag.
    + intros u [Hu|[->|Hu]]%Hcases Hr.
      * by eapply Hprim.
      * done.
      * eapply Hac; [by apply Hsub|]. by eapply Hback.
  - intros l [->|(o2 & u & Ho2 & Hu & Hr)]%reach_inv; [by left|].
    assert (o2 = o') as -> by congruence.
    apply Hcases in Hu as [Hu|[->|Hu]].
    + exfalso. by eapply Hprim.
    + auto.
    + right; right. exists u. split; [done|]. by eapply Hback.
Qed.

(** ** One step of the merge loop *)

Lemma prefix_length h0 h : prefix h0 h -> length h0 <= length h.
Proof.
  intros Hp. destruct (decide (length h0 <= length h)); [done|].
  destruct (lookup_lt_is_Some_2 h0 (length h) ltac:(lia)) as [o Ho].
  apply Hp in Ho. apply lookup_lt_Some in Ho. lia.
Qed.

Lemma sep_middle h s1 w s2 u x :
  sep h (s1 ++ [w] ++ s2) -> u ∈ s1 ++ s2 ->
  slot_reach h u x -> ~ slot_reach h w x.
Proof.
  intros (H1 & (Hw & H2 & Hw2)%sep_app & H1w)%sep_app [Hu|Hu]%elem_of_app Hr.
  - eapply H1w; [done | | done]. apply elem_of_app; left. by left.
  - intros Hr'. eapply Hw2; [by left | done | done | done].
Qed.

Lemma read_prop_wf n h o k :
  (forall v, v ∈ slots o -> wf n h v = true) -> wf n h (read_prop o k) = true.
Proof.
  intros H. destruct (read_prop o k) as [| | | | |l] eqn:E;
    try (apply wf_prim; done).
  apply H. by eapply read_prop_in.
Qed.

Lemma tgt_child h0 h lt o lc :
  tgt h0 h (VRef lt) -> h !! lt = Some o -> VRef lc ∈ slots o ->
  tgt h0 h (VRef lc).
Proof.
  intros (Hp & Hc & Ht & Hr) Hl Hin. split_and!; try done.
  - apply tree_inv in Ht as (o1 & Hl1 & _ & Hch & _).
    apply Hch. congruence.
  - intros l Hl'. apply Hr. eapply reach_step; eauto.
Qed.

(** Storing a freshly cloned value in a slot of the working copy. *)
Lemma store_clone_post h0 n h lt ot key sv v' h1 :
  tgt h0 h (VRef lt) -> h !! lt = Some ot ->
  wf n h0 sv = true ->
  deepClone n h sv = Ok (v', h1) ->
  step_post h0 h lt key (read_prop ot key)
    (<[lt := set_own ot key v']> h1).
Proof.
  intros (Hp & Hc & Ht & Hr) Hl Hwf E.
  pose proof (prefix_length _ _ Hp) as Hlen.
  pose proof (deepClone_shape _ _ _ _ _ E) as ([e1 ->] & _ & _ & Htv & Hrv).
  apply (deepClone_correct h0) in E as [Hc1 _]; auto.
  assert (Hlt : length h0 <= lt < length h) by (apply Hr; constructor).
  set (o' := set_own ot key v').
  set (h' := <[lt := o']> (h ++ e1)).
  assert (Hl' : h' !! lt = Some o').
  { apply list_lookup_insert_eq. rewrite length_app. lia. }
  assert (Hne : forall l, l <> lt -> h' !! l = (h ++ e1) !! l).
  { intros l Hn. by apply list_lookup_insert_ne. }
  assert (Hold : forall l, l < length h -> l <> lt -> h' !! l = h !! l).
  { intros l Hl1 Hl2. rewrite Hne by done. by apply lookup_app_l. }
  assert (Hlen' : length h' = length (h ++ e1)) by apply length_insert.
  destruct (write_slots ot key v') as (s1 & old & pads & s2 & Es & Es' & Hpads & _).
  pose proof Ht as Ht0.
  apply tree_inv in Ht as (o1 & Hl1 & Hsep & Hch & Hac).
  assert (o1 = ot) as -> by congruence.
  assert (Hsub : forall u, u ∈ s1 ++ s2 -> u ∈ slots ot).
  { intros u. rewrite Es, !elem_of_app. tauto. }
  assert (Hsib : forall u x, u ∈ s1 ++ s2 -> slot_reach h u x ->
            x < length h /\ x <> lt).
  { intros u x Hu Hx. split.
    - eapply tree_reach_alloc; [|exact Hx]. by apply Hch, Hsub.
    - intros ->. eapply Hac; [by apply Hsub | exact Hx]. }
  assert (Hnew : forall x, slot_reach h' v' x -> length h <= x < length (h ++ e1)).
  { intros x Hx. apply Hrv. eapply reach_agree_inv; [|exact Hx].
    intros y Hy. apply Hne. apply Hrv in Hy. lia. }
  destruct (tree_update h h' lt ot o' s1 old pads v' s2) as [Ht' Hreach];
    auto.
  { intros u x Hu Hx. destruct (Hsib u x Hu Hx). by apply Hold. }
  { eapply tree_agree; [exact Htv|]. intros x Hx. apply Hne.
    apply Hrv in Hx. lia. }
  { intros l u Hu Hl2 Hl3. apply Hnew in Hl2.
    destruct (Hsib u l Hu Hl3). lia. }
  { intros Hx. apply Hnew in Hx. lia. }
  split_and!.
  - split_and!; [ | | done | ].
    + intros l o Hlo. pose proof (lookup_lt_Some _ _ _ Hlo).
      rewrite Hold by lia. by apply Hp.
    + intros l o c Hl0 Hlo Hin. destruct (decide (l = lt)) as [->|Hn].
      * assert (o = o') as -> by congruence.
        unfold o' in Hin. rewrite write_contents in Hin. by eapply Hc.
      * rewrite Hne in Hlo by done. by eapply Hc1.
    + intros l Hl2. rewrite Hlen'.
      destruct (Hreach l Hl2) as [->|[Hx|(u & Hu & Hx)]].
      * rewrite length_app. lia.
      * apply Hnew in Hx. lia.
      * assert (slot_reach h (VRef lt) l) as Hx'%Hr
          by (eapply reach_step; eauto).
        rewrite length_app. lia.
  - rewrite Hlen', length_app. lia.
  - intros l Hl2 Hl3 _. by apply Hold.
  - intros l Hl2. destruct (Hreach l Hl2) as [->|[Hx|(u & Hu & Hx)]].
    + left; constructor.
    + right. apply Hnew in Hx. lia.
    + left. eapply reach_step; eauto.
  - exists ot, o'. split_and!; auto. right. by exists v'.
Qed.

(** Merging into the child read by [key] keeps the parent a tree. *)
Lemma recurse_post h0 h lt ot key lc h' :
  tgt h0 h (VRef lt) -> h !! lt = Some ot ->
  read_prop ot key = VRef lc ->
  merge_post h0 h lc h' ->
  step_post h0 h lt key (VRef lc) h'.
Proof.
  intros (Hp & Hc & Ht & Hr) Hl Hread ((Hp' & Hc' & Htc & Hrc) & Hlen & Hfr & Hgr).
  apply read_prop_in in Hread.
  pose proof Ht as Ht0.
  apply tree_inv in Ht as (o1 & Hl1 & Hsep & Hch & Hac).
  assert (o1 = ot) as -> by congruence.
  apply list_elem_of_split in Hread as (s1 & s2 & Es).
  change (VRef lc :: s2) with ([VRef lc] ++ s2) in Es.
  assert (Hlt : length h0 <= lt < length h) by (apply Hr; constructor).
  assert (Hl' : h' !! lt = Some ot).
  { rewrite Hfr; [done | lia |]. apply Hac. rewrite Es, !elem_of_app.
    right; left. by left. }
  assert (Hsub : forall u, u ∈ s1 ++ s2 -> u ∈ slots ot).
  { intros u. rewrite Es, !elem_of_app. tauto. }
  assert (Hsib : forall u x, u ∈ s1 ++ s2 -> slot_reach h u x ->
            x < length h /\ ~ slot_reach h (VRef lc) x).
  { intros u x Hu Hx. split.
    - eapply tree_reach_alloc; [|exact Hx]. by apply Hch, Hsub.
    - eapply sep_middle; [|exact Hu|exact Hx]. by rewrite <- Es. }
  assert (Hclc : VRef lc ∈ slots ot).
  { rewrite Es, !elem_of_app. right; left. by left. }
  destruct (tree_update h h' lt ot ot s1 [VRef lc] [] (VRef lc) s2)
    as [Ht' Hreach]; auto.
  { intros u x Hu Hx. destruct (Hsib u x Hu Hx). by apply Hfr. }
  { intros l u Hu Hl2 Hl3. destruct (Hsib u l Hu Hl3) as [Hlt' Hn].
    destruct (Hgr l Hl2); [done|lia]. }
  { intros Hx. destruct (Hgr lt Hx) as [Hx'|]; [|lia]. by eapply Hac. }
  split_and!.
  - split_and!; [done | done | done | ].
    intros l Hl2. destruct (Hreach l Hl2) as [->|[Hx|(u & Hu & Hx)]].
    + lia.
    + by apply Hrc.
    + assert (slot_reach h (VRef lt) l) as Hx'%Hr
        by (eapply reach_step; [exact Hl | by apply Hsub | done]). lia.
  - done.
  - intros l Hl2 _ Hl3. by apply Hfr.
  - intros l Hl2. destruct (Hreach l Hl2) as [->|[Hx|(u & Hu & Hx)]].
    + left; constructor.
    + destruct (Hgr l Hx); [left|by right].
      eapply reach_step; [exact Hl | exact Hclc | done].
    + left. eapply reach_step; [exact Hl | by apply Hsub | done].
  - exists ot, ot. auto.
Qed.

Lemma step_post_skip h0 h lt o key child :
  tgt h0 h (VRef lt) -> h !! lt = Some o -> step_post h0 h lt key child h.
Proof.
  intros Ht Hl. split_and!; auto. exists o, o. auto.
Qed.

Lemma typeof_object_ref v :
  typeof_object v && negb (is_null v) = true -> exists l, v = VRef l.
Proof. destruct v; try done. by eexists. Qed.

(** ** Tame overrides *)

Lemma tame_prim n h v : is_prim v = true -> tame n h v = true.
Proof. by destruct n, v. Qed.

Lemma tame_alloc n h l :
  tame n h (VRef l) = true ->
  exists n' o, n = S n' /\ h !! l = Some o /\
    (tag_of (okind o) <> TagArray ->
     forallb ordinary (keys (oprops o)) = true /\
     forall v, v ∈ slots o -> tame n' h v = true).
Proof.
  destruct n as [|n']; [done|]. cbn [tame].
  destruct (h !! l) as [o|]; [|done]. intros H.
  exists n', o. split_and!; try done. intros Hna. unfold slots.
  destruct (okind o); try done;
    apply andb_true_iff in H as [H1 H2]; (split; [done|]);
    intros v Hv; rewrite forallb_forall in H2; apply H2;
    by apply list_elem_of_In.
Qed.

Lemma read_prop_tame n h o k :
  (forall v, v ∈ slots o -> tame n h v = true) ->
  tame n h (read_prop o k) = true.
Proof.
  intros H. destruct (read_prop o k) as [| | | | |l] eqn:E;
    try (apply tame_prim; done).
  apply H. by eapply read_prop_in.
Qed.

Lemma get_prop_tame n h k ps :
  (forall v, v ∈ map snd ps -> tame n h v = true) ->
  tame n h (get_prop k ps) = true.
Proof.
  induction ps as [|[k' v'] ps IH]; simpl; intros H; [by destruct n|].
  destruct (String.eqb k k'); [apply H; by left|].
  apply IH. intros; apply H; by right.
Qed.

Lemma ordinary_in k ks :
  forallb ordinary ks = true -> k ∈ ks -> ordinary k = true.
Proof.
  rewrite forallb_forall. intros H Hk. apply H. by apply list_elem_of_In.
Qed.

Section MergeStep.
Variable h0 : heap.
Variable n : nat.
Variable strategies : props.
Variable merge_rec : heap -> value -> value -> string -> res heap.
Hypothesis merge_rec_spec : forall h lt s path,
  tgt h0 h (VRef lt) -> wf n h0 s = true -> tame n h0 s = true ->
  exists h', merge_rec h (VRef lt) s path = Ok h' /\ merge_post h0 h lt h'.

Lemma clone_store_spec h lt ot key sv :
  tgt h0 h (VRef lt) -> h !! lt = Some ot -> wf n h0 sv = true ->
  ordinary key = true ->
  exists h',
    (do (v, h1) <- deepClone n h sv ;; store_prop h1 (VRef lt) key v) = Ok h'
    /\ step_post h0 h lt key (read_prop ot key) h'.
Proof.
  intros Ht Hl Hwf Hord.
  destruct (deepClone_total n h sv) as (v' & e1 & E).
  { apply wf_bounded. eapply wf_prefix; [|done]. apply Ht. }
  rewrite E. cbn [bind].
  rewrite (store_ordinary _ _ ot); [ | by apply lookup_app_l_Some | done].
  eexists. split; [done|]. by eapply store_clone_post.
Qed.

Lemma merge_key_spec h lt ls os path key :
  tgt h0 h (VRef lt) -> h0 !! ls = Some os ->
  (forall v, v ∈ slots os -> wf n h0 v = true) ->
  (forall v, v ∈ slots os -> tame n h0 v = true) ->
  ordinary key = true ->
  exists h' ot,
    merge_key strategies (deepClone n) merge_rec h (VRef lt) ls path key
      = Ok h' /\
    h !! lt = Some ot /\
    step_post h0 h lt key (read_prop ot key) h'.
Proof.
  intros Ht Hls Hwf Htame Hord. unfold merge_key.
  destruct Ht as (Hp & Hc & Htr & Hr).
  rewrite (Hp _ _ Hls).
  destruct (tree_inv _ _ Htr) as (ot & Hl & _).
  rewrite (read_target_ordinary _ _ ot) by done. cbn [bind].
  assert (Ht : tgt h0 h (VRef lt)) by done.
  pose proof (read_prop_wf n h0 os key Hwf) as Hsv.
  pose proof (read_prop_tame n h0 os key Htame) as Hst.
  destruct (_ && is_undef _).
  { exists h, ot. split; [done|]. split; [done|]. by eapply step_post_skip. }
  destruct (_ && _ && is_undef _).
  { exists h, ot. split; [done|]. split; [done|]. by eapply step_post_skip. }
  destruct (_ || _).
  { destruct (clone_store_spec h lt ot key _ Ht Hl Hsv Hord)
      as (h' & E & Hpost).
    exists h', ot. auto. }
  destruct (typeof_object (read_prop os key) && _ && _ && _) eqn:Eobj.
  - apply andb_true_iff in Eobj as [[_ E1]%andb_true_iff E2].
    assert (typeof_object (read_prop ot key)
            && negb (is_null (read_prop ot key)) = true) as [lc Hlc]%typeof_object_ref
      by (by rewrite E1, E2).
    rewrite Hlc.
    destruct (merge_rec_spec h lc (read_prop os key) (current_path path key))
      as (h' & E & Hpost); [ | done | done | ].
    { eapply tgt_child; [done..|]. by eapply read_prop_in. }
    exists h', ot. split; [done|]. split; [done|].
    rewrite Hlc. by eapply recurse_post.
  - destruct (clone_store_spec h lt ot key _ Ht Hl Hsv Hord)
      as (h' & E & Hpost).
    exists h', ot. auto.
Qed.
End MergeStep.

(** ** The merge loop and the recursive merge *)

Lemma merge_post_refl h0 h lt : tgt h0 h (VRef lt) -> merge_post h0 h lt h.
Proof. intros Ht. split_and!; auto. Qed.

Lemma merge_post_trans h0 h h1 h2 lt :
  merge_post h0 h lt h1 -> merge_post h0 h1 lt h2 -> merge_post h0 h lt h2.
Proof.
  intros (_ & Hlen1 & Hfr1 & Hgr1) (Ht2 & Hlen2 & Hfr2 & Hgr2).
  split_and!; [done | lia | | ].
  - intros l Hl Hn. rewrite Hfr2; [by apply Hfr1 | lia |].
    intros Hx. destruct (Hgr1 l Hx); [done | lia].
  - intros l Hx. destruct (Hgr2 l Hx) as [Hx'|]; [|right; lia].
    destruct (Hgr1 l Hx'); auto.
Qed.

Lemma step_merge_post h0 h lt ot key h' :
  h !! lt = Some ot ->
  step_post h0 h lt key (read_prop ot key) h' -> merge_post h0 h lt h'.
Proof.
  intros Hl (Ht & Hlen & Hfr & Hgr & _). split_and!; try done.
  intros l Hl1 Hn. apply Hfr; [done | | ].
  - intros ->. apply Hn. constructor.
  - intros Hx. apply Hn. pose proof (reach_prim _ _ _ _ Hx) as Hp.
    destruct (read_prop ot key) as [| | | | |lc] eqn:E; try done.
    eapply reach_step; [exact Hl | by eapply read_prop_in | done].
Qed.

Lemma merge_keys_app strategies clone rec ks1 ks2 h t ls path :
  merge_keys strategies clone rec h t ls path (ks1 ++ ks2) =
  (do h1 <- merge_keys strategies clone rec h t ls path ks1 ;;
   merge_keys strategies clone rec h1 t ls path ks2).
Proof.
  revert h. induction ks1 as [|k ks1 IH]; simpl; intros h; [done|].
  destruct (merge_key _ _ _ _ _ _ _ _); simpl; auto.
Qed.

Section MergeLoop.
Variable h0 : heap.
Variable n : nat.
Variable strategies : props.
Variable merge_rec : heap -> value -> value -> string -> res heap.
Hypothesis merge_rec_spec : forall h lt s path,
  tgt h0 h (VRef lt) -> wf n h0 s = true -> tame n h0 s = true ->
  exists h', merge_rec h (VRef lt) s path = Ok h' /\ merge_post h0 h lt h'.

Variables (ls : loc) (os : obj) (path : string).
Hypothesis source_obj : h0 !! ls = Some os.
Hypothesis source_wf : forall v, v ∈ slots os -> wf n h0 v = true.
Hypothesis source_tame : forall v, v ∈ slots os -> tame n h0 v = true.

Lemma merge_keys_spec lt ks : forall h,
  forallb ordinary ks = true ->
  tgt h0 h (VRef lt) ->
  exists h',
    merge_keys strategies (deepClone n) merge_rec h (VRef lt) ls path ks
      = Ok h' /\ merge_post h0 h lt h'.
Proof.
  induction ks as [|key ks IH]; simpl; intros h Hord Ht.
  - exists h. split; [done|]. by apply merge_post_refl.
  - apply andb_true_iff in Hord as [Hkey Hord].
    destruct (merge_key_spec h0 n strategies merge_rec merge_rec_spec
                h lt ls os path key Ht source_obj source_wf source_tame Hkey)
      as (h1 & ot & -> & Hl & Hstep). simpl.
    apply step_merge_post in Hstep; [|done].
    destruct (IH h1) as (h' & -> & Hpost); [done | apply Hstep|].
    exists h'. split; [done|]. by eapply merge_post_trans.
Qed.
End MergeLoop.

Lemma merge_prim n strategies h t s path :
  is_prim s = true -> merge n strategies h t s path = Ok h.
Proof. by destruct n, s. Qed.

Lemma merge_S n strategies h t ls path :
  merge (S n) strategies h t (VRef ls) path =
  match h !! ls with
  | None => Stuck
  | Some os =>
      match okind os with
      | KArray _ => Ok h
      | _ => merge_keys strategies (deepClone n) (merge n strategies)
               h t ls path (keys (oprops os))
      end
  end.
Proof. simpl. destruct (h !! ls) as [[[] ?]|]; done. Qed.

Lemma wf_slots n h l o :
  wf (S n) h (VRef l) = true -> h !! l = Some o ->
  forall v, v ∈ slots o -> wf n h v = true.
Proof.
  intros Hwf Hl v Hv. eapply wf_children; [done..|].
  apply elem_of_app; by left.
Qed.

Lemma merge_spec h0 strategies n : forall h lt s path,
  tgt h0 h (VRef lt) -> wf n h0 s = true -> tame n h0 s = true ->
  exists h', merge n strategies h (VRef lt) s path = Ok h' /\
    merge_post h0 h lt h'.
Proof.
  induction n as [|n IH]; intros h lt s path Ht Hwf Htame.
  { destruct s; try done; exists h; (split; [done|by apply merge_post_refl]). }
  destruct s as [| | | | |ls];
    try (exists h; (split; [done|by apply merge_post_refl])).
  pose proof Hwf as (n' & os & [= <-] & Hl & _)%wf_alloc.
  pose proof Htame as (n' & os' & [= <-] & Hl' & Hos)%tame_alloc.
  assert (os' = os) as -> by congruence.
  rewrite merge_S. destruct Ht as (Hp & Ht). rewrite (Hp _ _ Hl).
  destruct (okind os) eqn:Ek;
    try (destruct Hos as [Hord Hst]; [done|];
         eapply merge_keys_spec; eauto using wf_slots; done).
  exists h. split; [done|]. by apply merge_post_refl.
Qed.

(** ** The loop over a plain working copy, key by key *)

Lemma sep_get_prop h ps k k' l :
  sep h (map snd ps) -> k <> k' ->
  slot_reach h (get_prop k ps) l -> ~ slot_reach h (get_prop k' ps) l.
Proof.
  intros Hs Hne. induction ps as [|[k0 v0] ps IH]; simpl in *.
  { intros Hr. by apply reach_prim in Hr. }
  destruct Hs as [Hd Hs].
  assert (Hin : forall k1 x, slot_reach h (get_prop k1 ps) x ->
            get_prop k1 ps ∈ map snd ps).
  { intros k1 x Hx. pose proof (reach_prim _ _ _ _ Hx) as Hp.
    destruct (get_prop k1 ps) eqn:E; try done. by eapply get_prop_in. }
  destruct (String.eqb k k0) eqn:E1, (String.eqb k' k0) eqn:E2.
  - apply String.eqb_eq in E1, E2. congruence.
  - intros Hr Hr'. eapply Hd; [exact Hr | by eapply Hin | exact Hr'].
  - intros Hr Hr'. eapply Hd; [exact Hr' | by eapply Hin | exact Hr].
  - by apply IH.
Qed.

Lemma read_plain o k : okind o = KPlain -> read_prop o k = get_prop k (oprops o).
Proof. unfold read_prop. by intros ->. Qed.

Lemma slots_plain o : okind o = KPlain -> slots o = map snd (oprops o).
Proof. unfold slots. by intros ->. Qed.

(** The subtree under a key of a plain tree node stays clear of the node
    and of the subtrees under the other keys. *)
Lemma plain_child_facts h lt o k x :
  tree h (VRef lt) -> h !! lt = Some o -> okind o = KPlain ->
  slot_reach h (get_prop k (oprops o)) x ->
  x < length h /\ x <> lt /\
  forall k', k' <> k -> ~ slot_reach h (get_prop k' (oprops o)) x.
Proof.
  intros Ht Hl Hk Hx.
  apply tree_inv in Ht as (o1 & Hl1 & Hsep & Hch & Hac).
  assert (o1 = o) as -> by congruence.
  rewrite slots_plain in * by done.
  pose proof (reach_prim _ _ _ _ Hx) as Hp.
  destruct (get_prop k (oprops o)) as [| | | | |lc] eqn:E; try done.
  apply get_prop_in in E as Hin.
  split_and!.
  - eapply tree_reach_alloc; [|exact Hx]. by apply Hch.
  - intros ->. by eapply Hac.
  - intros k' Hne Hx'. eapply (sep_get_prop h (oprops o) k k'); eauto.
    by rewrite E.
Qed.

Lemma tgt_tree h0 h t : tgt h0 h t -> tree h t.
Proof. by intros (_ & _ & Ht & _). Qed.

Section MergeLoopPlain.
Variable h0 : heap.
Variable n : nat.
Variable strategies : props.
Variable merge_rec : heap -> value -> value -> string -> res heap.
Hypothesis merge_rec_spec : forall h lt s path,
  tgt h0 h (VRef lt) -> wf n h0 s = true -> tame n h0 s = true ->
  exists h', merge_rec h (VRef lt) s path = Ok h' /\ merge_post h0 h lt h'.

Variables (ls : loc) (os : obj) (path : string).
Hypothesis source_obj : h0 !! ls = Some os.
Hypothesis source_wf : forall v, v ∈ slots os -> wf n h0 v = true.
Hypothesis source_tame : forall v, v ∈ slots os -> tame n h0 v = true.

Lemma merge_keys_plain lt ks : forall h ot,
  NoDup ks -> forallb ordinary ks = true ->
  tgt h0 h (VRef lt) -> h !! lt = Some ot -> okind ot = KPlain ->
  exists h' ot',
    merge_keys strategies (deepClone n) merge_rec h (VRef lt) ls path ks
      = Ok h' /\
    merge_post h0 h lt h' /\
    h' !! lt = Some ot' /\ okind ot' = KPlain /\
    (forall k, k ∉ ks -> get_prop k (oprops ot') = get_prop k (oprops ot)) /\
    (forall l, l < length h -> l <> lt ->
       (forall k, k ∈ ks -> ~ slot_reach h (get_prop k (oprops ot)) l) ->
       h' !! l = h !! l).
Proof.
  induction ks as [|key ks IH]; simpl; intros h ot Hnd Hord Ht Hl Hk.
  - exists h, ot. split_and!; auto. by apply merge_post_refl.
  - apply NoDup_cons in Hnd as [Hni Hnd].
    apply andb_true_iff in Hord as [Hkey Hord].
    destruct (merge_key_spec h0 n strategies merge_rec merge_rec_spec
                h lt ls os path key Ht source_obj source_wf source_tame Hkey)
      as (h1 & ot1 & -> & Hl1 & Hstep). simpl.
    assert (ot1 = ot) as -> by congruence.
    pose proof (step_merge_post _ _ _ _ _ _ Hl Hstep) as Hpost1.
    destruct Hstep as (Ht1 & Hlen1 & Hfr1 & Hgr1 & o & o1 & Ho & Ho1 & Hrel).
    assert (o = ot) as -> by congruence.
    rewrite read_plain in Hfr1 by done.
    assert (Hk1 : okind o1 = KPlain /\
              forall k, k <> key ->
                get_prop k (oprops o1) = get_prop k (oprops ot)).
    { destruct Hrel as [->|[v ->]]; [done|].
      rewrite write_plain by done. simpl. split; [done|].
      intros k Hne. by apply get_set_ne. }
    destruct Hk1 as [Hk1 Hget1].
    destruct (IH h1 o1 Hnd Hord Ht1 Ho1 Hk1)
      as (h' & ot' & -> & Hpost & Hl' & Hk' & Hget & Hfr).
    exists h', ot'. split_and!; auto.
    + by eapply merge_post_trans.
    + intros k [Hne Hnk]%not_elem_of_cons. rewrite Hget by done. auto.
    + intros l Hlt Hne Hcl.
      assert (Hfirst : h1 !! l = h !! l).
      { apply Hfr1; auto. apply Hcl. by left. }
      rewrite Hfr; [done | lia | done | ].
      intros k Hin Hx.
      assert (Hkk : k <> key) by (intros ->; done).
      rewrite Hget1 in Hx by done.
      apply (Hcl k); [by right|].
      eapply reach_agree_inv; [|exact Hx].
      intros x Hx'.
      destruct (plain_child_facts h lt ot k x (tgt_tree _ _ _ Ht) Hl Hk Hx')
        as (Hx1 & Hx2 & Hx3).
      apply Hfr1; auto.
Qed.

(** A key the loop does not visit keeps its value and its subtree. *)
Lemma merge_keys_untouched lt ks k h ot :
  NoDup ks -> forallb ordinary ks = true -> k ∉ ks ->
  tgt h0 h (VRef lt) -> h !! lt = Some ot -> okind ot = KPlain ->
  exists h' ot',
    merge_keys strategies (deepClone n) merge_rec h (VRef lt) ls path ks
      = Ok h' /\
    merge_post h0 h lt h' /\
    h' !! lt = Some ot' /\ okind ot' = KPlain /\
    get_prop k (oprops ot') = get_prop k (oprops ot) /\
    (forall l, slot_reach h (get_prop k (oprops ot)) l -> h' !! l = h !! l).
Proof.
  intros Hnd Hord Hni Ht Hl Hk.
  destruct (merge_keys_plain lt ks h ot Hnd Hord Ht Hl Hk)
    as (h' & ot' & E & Hpost & Hl' & Hk' & Hget & Hfr).
  exists h', ot'. split_and!; auto.
  intros l Hx.
  destruct (plain_child_facts h lt ot k l (tgt_tree _ _ _ Ht) Hl Hk Hx)
    as (Hx1 & Hx2 & Hx3).
  apply Hfr; auto. intros k' Hin. apply Hx3. intros ->. done.
Qed.
End MergeLoopPlain.

(** ** Running mergeConfig *)

Lemma contents_wf_refl h : contents_wf h h.
Proof. intros l o c Hl Hlo. apply lookup_lt_Some in Hlo. lia. Qed.

Lemma clone_base n h v v' h1 :
  wf n h v = true -> deepClone n h v = Ok (v', h1) ->
  tgt h h1 v' /\ reify n h1 v' = reify n h v /\ is_prim v' = is_prim v.
Proof.
  intros Hwf E.
  pose proof (deepClone_shape _ _ _ _ _ E) as ([e1 ->] & Hprim & _ & Ht & Hr).
  apply (deepClone_correct h) in E as [Hc Hre];
    auto using prefix_refl, contents_wf_refl.
  split_and!; auto. split_and!; auto.
  apply prefix_app, prefix_refl.
Qed.

Lemma mergeConfig_run n h lb ov options :
  wf n h (VRef lb) = true -> wf n h ov = true -> tame n h ov = true ->
  exists lr h1 h',
    deepClone n h (VRef lb) = Ok (VRef lr, h1) /\
    merge n (default [] options) h1 (VRef lr) ov "" = Ok h' /\
    mergeConfig n h (VRef lb) ov options = Ok (VRef lr, h') /\
    tgt h h1 (VRef lr) /\ merge_post h h1 lr h' /\
    reify n h1 (VRef lr) = reify n h (VRef lb).
Proof.
  intros Hb Ho Hta. unfold mergeConfig.
  destruct (deepClone_total n h (VRef lb)) as (r & e1 & E);
    [by apply wf_bounded|].
  destruct (clone_base n h _ _ _ Hb E) as (Ht & Hre & Hprim).
  destruct r as [| | | | |lr]; try done.
  destruct (merge_spec h (default [] options) n (h ++ e1) lr ov "" Ht Ho Hta)
    as (h' & Em & Hpost).
  exists lr, (h ++ e1), h'. rewrite E. simpl. rewrite Em. simpl.
  split_and!; auto.
Qed.

(** ** More fuel never changes a result *)

Section FuelMono.
Variables f g : heap -> value -> res (value * heap).
Hypothesis fg : forall h v r, f h v = Ok r -> g h v = Ok r.


End FuelMono.



(** * The embedding on the repository's tests *)

(** "deep merges nested objects by default":
    [mergeConfig({a:1,b:{c:2,d:3}}, {b:{c:10}})] is [{a:1,b:{c:10,d:3}}]. *)
Example test_deep_merge_by_default :
  exists lr lb h',
    mergeConfig 2 test_store (VRef 1) (VRef 3) None = Ok (VRef lr, h') /\
    h' !! lr = Some (plain [("a", VNum 1); ("b", VRef lb)]) /\
    h' !! lb = Some (plain [("c", VNum 10); ("d", VNum 3)]) /\
    lb <> 0.
Proof. eexists _, _, _. split_and!; vm_compute; (reflexivity || lia). Qed.

(** "replaces value with replace strategy":
    [mergeConfig({a:1,b:{c:2,d:3}}, {b:{c:99}}, {b:"replace"})] is
    [{a:1,b:{c:99}}], the key [d] of the base is gone. *)
Example test_replace_strategy :
  exists lr lb h',
    mergeConfig 2 test_store (VRef 1) (VRef 5) (Some [("b", VStr "replace")])
      = Ok (VRef lr, h') /\
    h' !! lr = Some (plain [("a", VNum 1); ("b", VRef lb)]) /\
    h' !! lb = Some (plain [("c", VNum 99)]).
Proof. eexists _, _, _. split_and!; vm_compute; reflexivity. Qed.

(** "applies strategy to nested paths": with ["theme.colors.primary"] set
    to "replace", [primary] becomes "green" and [secondary] stays "blue". *)
Example test_nested_path_strategy :
  exists lr h',
    mergeConfig 3 test_store (VRef 8) (VRef 11)
      (Some [("theme.colors.primary", VStr "replace")]) = Ok (VRef lr, h') /\
    at_path h' (VRef lr) ["theme"; "colors"; "primary"] = VStr "green" /\
    at_path h' (VRef lr) ["theme"; "colors"; "secondary"] = VStr "blue".
Proof. eexists _, _. split_and!; vm_compute; reflexivity. Qed.

(** * The claims *)

(** ** Inputs on which no result is returned *)

Lemma deepClone_cyclic fuel : deepClone fuel cyclic_store (VRef 0) = OutOfFuel.
Proof.
  induction fuel as [|n IH]; [done|].
  rewrite deepClone_S. simpl. by rewrite IH.
Qed.



(** ** Reading deep equality back *)



(** ** deepClone *)




Lemma traverse_lookup {A B} (f : A -> option B) xs ys i x :
  traverse f xs = Some ys -> xs !! i = Some x ->
  exists y, ys !! i = Some y /\ f x = Some y.
Proof.
  revert ys i. induction xs as [|a xs IH]; simpl; intros ys i H Hi; [done|].
  destruct (f a) as [b|] eqn:E; [|done].
  destruct (traverse f xs) as [bs|] eqn:E'; [|done].
  injection H as <-. destruct i as [|i]; simpl in *.
  - injection Hi as <-. eauto.
  - eauto.
Qed.

Lemma traverse_length {A B} (f : A -> option B) xs ys :
  traverse f xs = Some ys -> length ys = length xs.
Proof.
  revert ys. induction xs as [|a xs IH]; simpl; intros ys H.
  - by injection H as <-.
  - destruct (f a); [|done]. destruct (traverse f xs); [|done].
    injection H as <-. simpl. f_equal. by apply IH.
Qed.

(** C8, as stated, fails for plain composites and arrays: an own key
    [__proto__] of a plain object is not copied (the assignment to the clone
    runs the setter of [Object.prototype] and the clone has no such own
    key), an own property of an array is not copied, and on a cyclic object
    no clone is returned.  It fails for a Map that has an own property
    [entries]: calling it is a TypeError. *)
Lemma deepClone_not_key_by_key :
  (exists h',
     deepClone 2 proto_store (VRef 1) = Ok (VRef 4, h') /\
     proto_store !! 1 = Some (plain [("__proto__", VRef 0); ("b", VNum 2)]) /\
     h' !! 4 = Some (plain [("b", VNum 2)])) /\
  (exists h',
     deepClone 1 tagged_store (VRef 0) = Ok (VRef 2, h') /\
     tagged_store !! 0 = Some (Obj (KArray [VNum 1]) [("tag", VNum 7)]) /\
     h' !! 2 = Some (Obj (KArray [VNum 1]) [])) /\
  (forall fuel r, deepClone fuel cyclic_store (VRef 0) <> Ok r) /\
  (shadow_store !! 2 = Some (Obj (KMap []) [("entries", VNum 7)]) /\
   forall fuel r, deepClone fuel shadow_store (VRef 2) <> Ok r).
Proof.
  split_and!.
  - eexists. split_and!; vm_compute; reflexivity.
  - eexists. split_and!; vm_compute; reflexivity.
  - intros fuel r. by rewrite deepClone_cyclic.
  - done.
  - by intros [|fuel] r.
Qed.

(** C8, amended: deepClone of a Map without an own property [entries]
    allocates a new Map object holding the very same entry list (keys and
    values are not cloned, a reference among them still points to the
    original object); the clone of an array or of a plain object that is
    well-formed (no cycle, own properties on plain objects only, no own key
    [__proto__]) is a new object of the same kind with the same own keys
    that holds, slot by slot, a deep-equal copy made of newly allocated
    objects only. *)
Theorem deepClone_map_shallow_others_deep :
  (forall n h l entries ps,
     h !! l = Some (Obj (KMap entries) ps) ->
     has_own "entries" ps = false ->
     deepClone (S n) h (VRef l)
       = Ok (VRef (length h), h ++ [Obj (KMap entries) []])
     /\ length h <> l) /\
  (forall n h l o,
     wf (S n) h (VRef l) = true -> h !! l = Some o ->
     tag_of (okind o) = TagPlain \/ tag_of (okind o) = TagArray ->
     exists l' h' o',
       deepClone (S n) h (VRef l) = Ok (VRef l', h') /\
       h' !! l' = Some o' /\ length h <= l' /\
       tag_of (okind o') = tag_of (okind o) /\
       keys (oprops o') = keys (oprops o) /\
       length (slots o') = length (slots o) /\
       forall i v v', slots o !! i = Some v -> slots o' !! i = Some v' ->
         deep_equal h' v' h v /\
         forall x, slot_reach h' v' x -> length h <= x).
Proof.
  split.
  - intros n h l entries ps Hl Hown. rewrite deepClone_S, Hl.
    unfold methods_ok, callable. cbn [okind oprops]. rewrite Hown.
    split; [done|]. apply lookup_lt_Some in Hl. lia.
  - intros n h l o Hwf Hl Htag.
    destruct (deepClone_total (S n) h (VRef l)) as (r & ext & E);
      [by apply wf_bounded|].
    destruct (clone_base (S n) h _ _ _ Hwf E) as ((_ & _ & Ht & Hr) & Hre & Hp).
    destruct r as [| | | | |l']; try done.
    destruct (tree_inv _ _ Ht) as (o' & Hl' & _).
    destruct (reify_wf _ _ _ Hwf) as [d Hd].
    rewrite Hd in Hre. rewrite reify_S, Hl in Hd. rewrite reify_S, Hl' in Hre.
    destruct (traverse (reify n h) (slots o)) as [ss|] eqn:Es; [|done].
    destruct (traverse (reify n h) (contents o)) as [cs|] eqn:Ec; [|done].
    destruct (traverse (reify n (h ++ ext)) (slots o')) as [ss'|] eqn:Es'; [|done].
    destruct (traverse (reify n (h ++ ext)) (contents o')) as [cs'|]; [|done].
    injection Hd as <-. injection Hre as Htag' Hkeys -> ->.
    exists l', (h ++ ext), o'. split_and!; auto.
    + apply Hr. constructor.
    + apply traverse_length in Es, Es'. congruence.
    + intros i v v' Hv Hv'.
      destruct (traverse_lookup _ _ _ _ _ Es Hv) as (y & Hy & Hfy).
      destruct (traverse_lookup _ _ _ _ _ Es' Hv') as (y' & Hy' & Hfy').
      assert (y' = y) as -> by congruence.
      split; [by exists n, y|].
      intros x Hx. apply Hr. eapply reach_step; [exact Hl' | | exact Hx].
      by eapply list_elem_of_lookup_2.
Qed.

Lemma deepClone_map_shallow_others_deep_witness :
  (deepClone 1 base_store (VRef 2)
     = Ok (VRef 4, base_store ++ [Obj (KMap [(VStr "k", VRef 0)]) []])
   /\ 4 <> 2) /\
  (exists l' h', deepClone 3 base_store (VRef 3) = Ok (VRef l', h')
     /\ 4 <= l').
Proof.
  split.
  - exact (proj1 deepClone_map_shallow_others_deep 0 base_store 2
             [(VStr "k", VRef 0)] [] eq_refl eq_refl).
  - destruct (proj2 deepClone_map_shallow_others_deep 2 base_store 3 _
                eq_refl eq_refl (or_introl eq_refl))
      as (l' & h' & o' & E & _ & Hl & _).
    by exists l', h'.
Defined.

(** ** mergeConfig: the root override *)

Lemma merge_array n strategies h t s path :
  isArray h s = true -> merge n strategies h t s path = Ok h.
Proof.
  destruct s as [| | | | |ls]; try done.
  destruct n; simpl; destruct (h !! ls) as [[[] ?]|]; done.
Qed.

Lemma isArray_ext h ext v : isArray h v = true -> isArray (h ++ ext) v = true.
Proof.
  destruct v as [| | | | |l]; try done. simpl.
  destruct (h !! l) as [o|] eqn:E; [|done].
  by rewrite (lookup_app_l_Some _ _ _ _ E).
Qed.

(** C6: when the top-level override is a primitive (undefined, null, a
    boolean, a number, a string) or an array, mergeConfig is exactly the deep
    clone of the base, whatever the strategy table. *)
Theorem mergeConfig_non_composite_override n h base ov options :
  is_prim ov = true \/ isArray h ov = true ->
  mergeConfig n h base ov options = deepClone n h base.
Proof.
  intros Hov. unfold mergeConfig.
  destruct (deepClone n h base) as [[r h1]| | |] eqn:E; simpl; try done.
  apply deepClone_shape in E as ([e1 ->] & _).
  destruct Hov as [Hp|Ha].
  - by rewrite merge_prim.
  - by rewrite merge_array by by apply isArray_ext.
Qed.

Lemma mergeConfig_non_composite_override_witness :
  mergeConfig 3 base_store (VRef 3) VNull (Some [("a", VStr "replace")])
    = deepClone 3 base_store (VRef 3) /\
  mergeConfig 3 base_store (VRef 3) (VRef 1) None
    = deepClone 3 base_store (VRef 3).
Proof.
  split.
  - apply mergeConfig_non_composite_override. left. reflexivity.
  - apply mergeConfig_non_composite_override. right. reflexivity.
Defined.

(** ** mergeConfig: aliasing *)





(** ** mergeConfig: the empty override *)





(** ** The loop around one key *)

Section MergeLoopAt.
Variable h0 : heap.
Variable n : nat.
Variable strategies : props.
Variable merge_rec : heap -> value -> value -> string -> res heap.
Hypothesis merge_rec_spec : forall h lt s path,
  tgt h0 h (VRef lt) -> wf n h0 s = true -> tame n h0 s = true ->
  exists h', merge_rec h (VRef lt) s path = Ok h' /\ merge_post h0 h lt h'.

Variables (ls : loc) (os : obj) (path : string).
Hypothesis source_obj : h0 !! ls = Some os.
Hypothesis source_wf : forall v, v ∈ slots os -> wf n h0 v = true.
Hypothesis source_tame : forall v, v ∈ slots os -> tame n h0 v = true.

(** The iterations before [k] leave the slot of [k] alone, then [k] is
    processed, and the iterations after [k] leave its new slot alone. *)
Lemma merge_keys_at lt ks k h ot :
  NoDup ks -> forallb ordinary ks = true -> k ∈ ks ->
  tgt h0 h (VRef lt) -> h !! lt = Some ot -> okind ot = KPlain ->
  exists ha hb h' oa ob o',
    merge_keys strategies (deepClone n) merge_rec h (VRef lt) ls path ks
      = Ok h' /\
    (tgt h0 ha (VRef lt) /\ ha !! lt = Some oa /\ okind oa = KPlain /\
     get_prop k (oprops oa) = get_prop k (oprops ot) /\
     (forall l, slot_reach h (get_prop k (oprops ot)) l -> ha !! l = h !! l) /\
     length h <= length ha) /\
    (merge_key strategies (deepClone n) merge_rec ha (VRef lt) ls path k
       = Ok hb /\
     tgt h0 hb (VRef lt) /\ hb !! lt = Some ob /\ okind ob = KPlain) /\
    (tgt h0 h' (VRef lt) /\ h' !! lt = Some o' /\ okind o' = KPlain /\
     get_prop k (oprops o') = get_prop k (oprops ob) /\
     (forall l, slot_reach hb (get_prop k (oprops ob)) l -> h' !! l = hb !! l)).
Proof.
  intros Hnd Hord Hin Ht Hl Hk.
  apply list_elem_of_split in Hin as (ks1 & ks2 & ->).
  apply NoDup_app in Hnd as (Hnd1 & Hni1 & [Hni2 Hnd2]%NoDup_cons).
  rewrite forallb_app in Hord. simpl in Hord.
  apply andb_true_iff in Hord as [Hord1 [Hordk Hord2]%andb_true_iff].
  assert (Hk1 : k ∉ ks1).
  { intros Hin. eapply Hni1; [exact Hin | by left]. }
  destruct (merge_keys_untouched h0 n strategies merge_rec merge_rec_spec
              ls os path source_obj source_wf source_tame
              lt ks1 k h ot Hnd1 Hord1 Hk1 Ht Hl Hk)
    as (ha & oa & Ea & (Hta & Hlena & _) & Hla & Hka & Hgeta & Hfra).
  destruct (merge_key_spec h0 n strategies merge_rec merge_rec_spec
              ha lt ls os path k Hta source_obj source_wf source_tame Hordk)
    as (hb & oa' & Eb & Hla' & (Htb & _ & _ & _ & o1 & ob & Ho1 & Hob & Hrel)).
  assert (o1 = oa) as -> by congruence.
  assert (Hkb : okind ob = KPlain).
  { destruct Hrel as [->|[v ->]]; [done|]. by rewrite write_plain. }
  destruct (merge_keys_untouched h0 n strategies merge_rec merge_rec_spec
              ls os path source_obj source_wf source_tame
              lt ks2 k hb ob Hnd2 Hord2 Hni2 Htb Hob Hkb)
    as (h' & o' & Ec & (Htc & _) & Hlc & Hkc & Hgetc & Hfrc).
  exists ha, hb, h', oa, ob, o'. split_and!; auto.
  rewrite merge_keys_app, Ea. simpl. by rewrite Eb.
Qed.
End MergeLoopAt.

(** Deep structure determines primitive values. *)
Lemma reify_prim_inv n h v p :
  reify n h v = Some (DPrim p) -> v = p.
Proof.
  destruct v as [| | | | |l]; try (destruct n; simpl; congruence).
  destruct n; [done|]. rewrite reify_S.
  destruct (h !! l) as [o|]; [|done].
  destruct (traverse _ (slots o)); [|done].
  by destruct (traverse _ (contents o)).
Qed.

Lemma reify_DObj_inv n h v tag ks ss cs :
  reify n h v = Some (DObj tag ks ss cs) ->
  exists n' l o, n = S n' /\ v = VRef l /\ h !! l = Some o /\
    tag_of (okind o) = tag /\ keys (oprops o) = ks /\
    traverse (reify n' h) (slots o) = Some ss /\
    traverse (reify n' h) (contents o) = Some cs.
Proof.
  destruct v as [| | | | |l]; try (destruct n; simpl; congruence).
  destruct n as [|n']; [done|]. rewrite reify_S.
  destruct (h !! l) as [o|] eqn:El; [|done].
  destruct (traverse _ (slots o)) as [ss'|] eqn:Es; [|done].
  destruct (traverse _ (contents o)) as [cs'|] eqn:Ec; [|done].
  intros [= <- <- <- <-]. by exists n', l, o.
Qed.

Lemma tag_plain k : tag_of k = TagPlain -> k = KPlain.
Proof. by destruct k. Qed.

(** Same keys and same deep structure of the values, key by key. *)
Lemma get_prop_traverse (f g : value -> option dval) ps1 ps2 ss k :
  f VUndef = g VUndef ->
  keys ps1 = keys ps2 ->
  traverse f (map snd ps1) = Some ss ->
  traverse g (map snd ps2) = Some ss ->
  f (get_prop k ps1) = g (get_prop k ps2).
Proof.
  intros Hu. revert ps2 ss.
  induction ps1 as [|[k1 v1] ps1 IH]; intros [|[k2 v2] ps2] ss; simpl;
    try done.
  intros [= <- Hks].
  destruct (f v1) as [d1|] eqn:E1; [|done].
  destruct (traverse f (map snd ps1)) as [ss1|] eqn:Es1; [|done].
  intros [= <-].
  destruct (g v2) as [d2|] eqn:E2; [|done].
  destruct (traverse g (map snd ps2)) as [ss2|] eqn:Es2; [|done].
  intros [= <- <-].
  destruct (String.eqb k k1); [congruence|]. by eapply IH.
Qed.

(** ** mergeConfig on a plain base and an object override *)

Lemma mergeConfig_top n h lb ob lo oo options :
  wf n h (VRef lb) = true -> wf n h (VRef lo) = true ->
  tame n h (VRef lo) = true ->
  h !! lb = Some ob -> okind ob = KPlain -> h !! lo = Some oo ->
  exists n' lr h1 or1 h',
    n = S n' /\
    deepClone n h (VRef lb) = Ok (VRef lr, h1) /\
    mergeConfig n h (VRef lb) (VRef lo) options = Ok (VRef lr, h') /\
    tgt h h1 (VRef lr) /\ h1 !! lr = Some or1 /\ okind or1 = KPlain /\
    (forall k, reify n' h1 (get_prop k (oprops or1))
               = reify n' h (get_prop k (oprops ob))) /\
    NoDup (keys (oprops oo)) /\
    (forall v, v ∈ slots oo -> wf n' h v = true) /\
    merge_post h h1 lr h' /\
    (tag_of (okind oo) <> TagArray ->
     merge_keys (default [] options) (deepClone n')
       (merge n' (default [] options)) h1 (VRef lr) lo ""
       (keys (oprops oo)) = Ok h') /\
    (tag_of (okind oo) <> TagArray ->
     forallb ordinary (keys (oprops oo)) = true /\
     forall v, v ∈ slots oo -> tame n' h v = true).
Proof.
  intros Hb Ho Hta Hlb Hkb Hlo.
  destruct (mergeConfig_run n h lb (VRef lo) options Hb Ho Hta)
    as (lr & h1 & h' & Ec & Em & E & Ht & Hpost & Hre).
  pose proof Ho as (n' & oo' & -> & Hlo' & Hnd & _ & Hch)%wf_alloc.
  assert (oo' = oo) as -> by congruence.
  pose proof Hta as (n0 & oo' & [= <-] & Hlo'' & Htm)%tame_alloc.
  assert (oo' = oo) as -> by congruence.
  destruct (reify_wf _ _ _ Hb) as [d Hd].
  rewrite Hd in Hre. rewrite reify_S, Hlb in Hd.
  destruct (traverse (reify n' h) (slots ob)) as [ss|] eqn:Es; [|done].
  destruct (traverse (reify n' h) (contents ob)) as [cs|] eqn:Ecs; [|done].
  injection Hd as <-.
  apply reify_DObj_inv in Hre
    as (n'' & lr' & or1 & [= <-] & [= <-] & Hl1 & Htag & Hkeys & Hss & _).
  rewrite Hkb in Htag. apply tag_plain in Htag.
  exists n', lr, h1, or1, h'. split_and!; auto.
  - intros k. rewrite slots_plain in Es, Hss by done.
    eapply get_prop_traverse; eauto. by destruct n'.
  - intros v Hv. apply Hch. apply elem_of_app; by left.
  - intros Hna. rewrite merge_S in Em.
    destruct Ht as (Hp & _). rewrite (Hp _ _ Hlo) in Em.
    by destruct (okind oo).
Qed.

(** Deep structure of a slot that the merge left alone. *)
Lemma untouched_reify h0 n h h' lt o v :
  tgt h0 h (VRef lt) -> prefix h0 h' -> h !! lt = Some o -> v ∈ slots o ->
  (forall l, slot_reach h v l -> h' !! l = h !! l) ->
  reify n h' v = reify n h v.
Proof.
  intros (Hp & Hc & Ht & Hr) Hp' Hl Hv Hag.
  apply (reify_frame h0); auto.
  intros l Hx. split; [|by apply Hag].
  assert (slot_reach h (VRef lt) l) as Hx'%Hr
    by (eapply reach_step; eauto). lia.
Qed.

Lemma untouched_reify_key h0 n h h' lt o k :
  tgt h0 h (VRef lt) -> prefix h0 h' -> h !! lt = Some o -> okind o = KPlain ->
  (forall l, slot_reach h (get_prop k (oprops o)) l -> h' !! l = h !! l) ->
  reify n h' (get_prop k (oprops o)) = reify n h (get_prop k (oprops o)).
Proof.
  intros Ht Hp' Hl Hk Hag.
  destruct (get_prop k (oprops o)) as [| | | | |lc] eqn:E;
    try (by rewrite !reify_prim).
  eapply untouched_reify; eauto.
  rewrite slots_plain by done. by eapply get_prop_in.
Qed.



(** ** Keys whose value is replaced by a clone *)

Lemma store_clone_value h0 n h lt ot key sv v' h1 :
  tgt h0 h (VRef lt) -> h !! lt = Some ot -> okind ot = KPlain ->
  wf n h0 sv = true -> deepClone n h sv = Ok (v', h1) ->
  exists ob,
    <[lt := set_own ot key v']> h1 !! lt = Some ob /\
    okind ob = KPlain /\ get_prop key (oprops ob) = v' /\
    reify n (<[lt := set_own ot key v']> h1) v' = reify n h0 sv /\
    (forall l, slot_reach (<[lt := set_own ot key v']> h1) v' l ->
       length h <= l).
Proof.
  intros Ht Hl Hk Hwf E.
  pose proof (store_clone_post h0 n h lt ot key sv v' h1 Ht Hl Hwf E)
    as ((Hpb & _) & _).
  destruct Ht as (Hp & Hc & Ht & Hr).
  pose proof (prefix_length _ _ Hp) as Hlen.
  pose proof (deepClone_shape _ _ _ _ _ E) as ([e1 ->] & _ & _ & Htv & Hrv).
  apply (deepClone_correct h0) in E as [Hc1 Hre]; auto.
  assert (Hlt : length h0 <= lt < length h) by (apply Hr; constructor).
  set (hb := <[lt := set_own ot key v']> (h ++ e1)) in *.
  assert (Hag : forall l, slot_reach (h ++ e1) v' l -> hb !! l = (h ++ e1) !! l).
  { intros l Hx. apply Hrv in Hx. apply list_lookup_insert_ne. lia. }
  exists (set_own ot key v'). split_and!.
  - apply list_lookup_insert_eq. rewrite length_app. lia.
  - by rewrite write_plain.
  - rewrite write_plain by done. simpl. apply get_set_eq.
  - rewrite <- Hre. apply (reify_frame h0); auto using prefix_app.
    intros l Hx. split; [|by apply Hag]. apply Hrv in Hx. lia.
  - intros l Hx. eapply reach_agree_inv in Hx; [|exact Hag].
    apply Hrv in Hx. lia.
Qed.



Lemma deep_equal_tag h1 v1 h2 l2 o2 :
  deep_equal h1 v1 h2 (VRef l2) -> h2 !! l2 = Some o2 ->
  exists l1 o1, v1 = VRef l1 /\ h1 !! l1 = Some o1 /\
    tag_of (okind o1) = tag_of (okind o2).
Proof.
  intros (n & d & H1 & H2) Hl.
  destruct n as [|n]; [done|]. rewrite reify_S, Hl in H2.
  destruct (traverse _ (slots o2)); [|done].
  destruct (traverse _ (contents o2)); [|done]. injection H2 as <-.
  apply reify_DObj_inv in H1 as (? & l1 & o1 & _ & -> & Hl1 & Ht & _).
  by exists l1, o1.
Qed.


(** ** mergeConfig: arrays and null *)







(** ** Walking down a path *)

Lemma reach_read h l o k x :
  h !! l = Some o -> slot_reach h (read_prop o k) x -> slot_reach h (VRef l) x.
Proof.
  intros Hl Hx. pose proof (reach_prim _ _ _ _ Hx) as Hp.
  destruct (read_prop o k) as [| | | | |lc] eqn:E; try done.
  eapply reach_step; [exact Hl | by eapply read_prop_in | done].
Qed.

Lemma at_path_reach h p : forall v l,
  slot_reach h (at_path h v p) l -> slot_reach h v l.
Proof.
  induction p as [|k p IH]; simpl; intros v l Hx; [done|].
  destruct v as [| | | | |l0]; try (by apply reach_prim in Hx).
  destruct (h !! l0) as [o|] eqn:El; [|by apply reach_prim in Hx].
  eapply reach_read; [exact El|]. by apply IH.
Qed.

Lemma at_path_agree h h' p : forall v,
  (forall l, slot_reach h v l -> h' !! l = h !! l) ->
  at_path h' v p = at_path h v p.
Proof.
  induction p as [|k p IH]; simpl; intros v Hag; [done|].
  destruct v as [| | | | |l0]; try done.
  rewrite Hag by constructor.
  destruct (h !! l0) as [o|] eqn:El; [|done].
  apply IH. intros l Hx. apply Hag. by eapply reach_read.
Qed.

Lemma is_plain_inv h v :
  is_plain h v = true -> exists l o, v = VRef l /\ h !! l = Some o /\ okind o = KPlain.
Proof.
  destruct v as [| | | | |l]; try done. simpl.
  destruct (h !! l) as [[[] ps]|] eqn:E; try done. by eexists _, _.
Qed.

(** A working copy that is deep-equal to a plain base object is a plain
    object with the same keys and deep-equal values. *)
Lemma level_facts h0 n h lt lb ob :
  wf (S n) h0 (VRef lb) = true -> h0 !! lb = Some ob -> okind ob = KPlain ->
  reify (S n) h (VRef lt) = reify (S n) h0 (VRef lb) ->
  exists ot, h !! lt = Some ot /\ okind ot = KPlain /\
    forall k, reify n h (get_prop k (oprops ot))
              = reify n h0 (get_prop k (oprops ob)).
Proof.
  intros Hb Hlb Hkb Hre.
  destruct (reify_wf _ _ _ Hb) as [d Hd].
  rewrite Hd in Hre. rewrite reify_S, Hlb in Hd.
  destruct (traverse (reify n h0) (slots ob)) as [ss|] eqn:Es; [|done].
  destruct (traverse (reify n h0) (contents ob)) as [cs|] eqn:Ecs; [|done].
  injection Hd as <-.
  apply reify_DObj_inv in Hre
    as (n'' & lr' & ot & [= <-] & [= <-] & Hl1 & Htag & Hkeys & Hss & _).
  rewrite Hkb in Htag. apply tag_plain in Htag.
  exists ot. split_and!; auto.
  intros k. rewrite slots_plain in Es, Hss by done.
  eapply get_prop_traverse; eauto. by destruct n.
Qed.


Lemma merge_key_recurse strategies clone rec h lt ls os ot path key lc ls' :
  ordinary key = true ->
  h !! ls = Some os -> h !! lt = Some ot ->
  read_prop os key = VRef ls' -> isArray h (VRef ls') = false ->
  read_prop ot key = VRef lc ->
  is_str "replace" (get_prop (current_path path key) strategies) = false ->
  merge_key strategies clone rec h (VRef lt) ls path key =
  rec h (VRef lc) (VRef ls') (current_path path key).
Proof.
  intros Hord Hls Hlt Hsv Harr Htv Hr. unfold merge_key.
  rewrite Hls, (read_target_ordinary _ _ ot), !entry_is_get by done.
  rewrite Hsv, Htv, Hr, Harr. simpl. by rewrite !andb_false_r.
Qed.


Lemma reify_ref_not_prim n h p n' h' l :
  is_prim p = true -> reify n h p = reify n' h' (VRef l) ->
  reify n' h' (VRef l) = None.
Proof.
  intros Hp E. rewrite reify_prim in E by done.
  symmetry in E. apply reify_prim_inv in E. by subst.
Qed.

Lemma isArray_plain h l o :
  h !! l = Some o -> okind o = KPlain -> isArray h (VRef l) = false.
Proof. simpl. intros -> Hk. by destruct o as [[] ?]. Qed.

Lemma descends_plain strategies h path b o ks :
  descends strategies h path b o ks = true ->
  is_plain h b = true /\ is_plain h o = true.
Proof.
  destruct ks; cbn [descends];
    intros [[? ?]%andb_true_iff _]%andb_true_iff; auto.
Qed.


(** ** mergeConfig: keys that are left alone *)





(** ** Malformed entries of the strategy table *)







Section SameMerge.
Variable h0 : heap.
Variable t : props.
Hypothesis t_nodup : NoDup (keys t).

End SameMerge.







(** * Further properties: deepClone *)

(** X1: whenever deepClone returns, the store it leaves is the store it
    found followed by newly allocated objects (no existing object is
    written), a primitive is returned as it is, and an object is returned as
    a tree of new objects: an object that the input reaches along two
    property paths is copied once per path. *)
Theorem deepClone_only_allocates n h v v' h' :
  deepClone n h v = Ok (v', h') ->
  (exists ext, h' = h ++ ext) /\
  (is_prim v = true -> v' = v /\ h' = h) /\
  tree h' v' /\
  forall l, slot_reach h' v' l -> length h <= l < length h'.
Proof.
  intros E. apply deepClone_shape in E as (Hext & _ & Hp & Ht & Hr). auto.
Qed.

Lemma deepClone_only_allocates_witness :
  (exists ext, [ plain []; plain [("p", VRef 0); ("q", VRef 0)];
                 plain []; plain [];
                 plain [("p", VRef 2); ("q", VRef 3)] ] = shared_store ++ ext) /\
  tree [ plain []; plain [("p", VRef 0); ("q", VRef 0)];
         plain []; plain []; plain [("p", VRef 2); ("q", VRef 3)] ] (VRef 4).
Proof.
  destruct (deepClone_only_allocates 2 shared_store (VRef 1) (VRef 4)
              [ plain []; plain [("p", VRef 0); ("q", VRef 0)];
                plain []; plain [];
                plain [("p", VRef 2); ("q", VRef 3)] ] eq_refl)
    as (Hext & _ & Ht & _).
  split; assumption.
Defined.

(** X2: on well-formed plain data (no cycle, own properties on plain objects
    only, no own key [__proto__], which the clone would lose) deepClone
    returns a value that is deep-equal to its input, for every kind of value
    (primitive, array, plain object, Date, Map, Set), and leaves the input's
    objects as they were. *)
Theorem deepClone_deep_equal n h v :
  wf n h v = true ->
  exists v' h',
    deepClone n h v = Ok (v', h') /\
    deep_equal h' v' h v /\
    take (length h) h' = h /\
    is_prim v' = is_prim v.
Proof.
  intros Hwf.
  destruct (deepClone_total n h v) as (v' & ext & E); [by apply wf_bounded|].
  destruct (clone_base n h _ _ _ Hwf E) as ((Hp & _) & Hre & Hprim).
  destruct (reify_wf _ _ _ Hwf) as [d Hd].
  exists v', (h ++ ext). split_and!; auto.
  - exists n, d. by rewrite Hre.
  - by apply prefix_take.
Qed.

Lemma deepClone_deep_equal_witness :
  exists v' h',
    deepClone 3 base_store (VRef 3) = Ok (v', h') /\
    deep_equal h' v' base_store (VRef 3) /\
    take (length base_store) h' = base_store /\
    is_prim v' = is_prim (VRef 3).
Proof. apply (deepClone_deep_equal 3 base_store (VRef 3)). reflexivity. Defined.

(** * Further properties: the value of the merged result at a path *)

Lemma merge_key_action strategies clone rec h lt ls os ot path key :
  ordinary key = true ->
  h !! ls = Some os -> h !! lt = Some ot ->
  merge_key strategies clone rec h (VRef lt) ls path key =
  match key_action (strategy_entry strategies (current_path path key))
          (read_prop os key) (read_prop ot key)
          (isArray h (read_prop os key)) with
  | Skip => Ok h
  | Write =>
      do (v, h1) <- clone h (read_prop os key) ;;
      store_prop h1 (VRef lt) key v
  | Recurse =>
      rec h (read_prop ot key) (read_prop os key) (current_path path key)
  end.
Proof.
  intros Hord Hls Hlt. unfold merge_key, key_action.
  rewrite Hls, (read_target_ordinary _ _ ot) by done. cbn [bind].
  destruct (_ && is_undef _); [done|].
  destruct (_ && _ && is_undef _); [done|].
  destruct (_ || _); [done|].
  by destruct (_ && _ && _ && _).
Qed.

Lemma at_path_app h a b : forall v,
  at_path h v (a ++ b) = at_path h (at_path h v a) b.
Proof.
  induction a as [|k a IH]; simpl; intros v; [done|].
  destruct v as [| | | | |l]; try (by destruct b).
  destruct (h !! l); [apply IH | by destruct b].
Qed.

(** The working copy's value decides like the base's value it was cloned
    from. *)
Lemma key_action_reify n h tv h0 bv st sv a :
  wf n h0 bv = true -> reify n h tv = reify n h0 bv ->
  key_action st sv tv a = key_action st sv bv a.
Proof.
  intros Hwf Hre. unfold key_action.
  assert (typeof_object tv && negb (is_null tv)
          = typeof_object bv && negb (is_null bv)) as Heq.
  { destruct (reify_wf _ _ _ Hwf) as [d Hd]. rewrite Hd in Hre.
    destruct bv as [| | | | |lb].
    1-5: rewrite reify_prim in Hd by done; injection Hd as <-;
         apply reify_prim_inv in Hre; by subst.
    destruct tv as [| | | | |lt]; try done;
      rewrite reify_prim in Hre by done; injection Hre as <-;
      apply reify_prim_inv in Hd; done. }
  rewrite <- !andb_assoc, Heq. done.
Qed.

Section Descend.
Variable h0 : heap.
Variable strategies : props.
Variable k : string.
(** [good path lb lo]: the condition on the last level, where the base
    object is [lb], the override object is [lo] and the path so far is
    [path]; [expect lb lo] is the value the result is to be deep-equal to. *)
Variable good : string -> loc -> loc -> Prop.
Variable expect : loc -> loc -> value.
Hypothesis level : forall n h lt lb ob lo oo path,
  tgt h0 h (VRef lt) ->
  wf (S n) h0 (VRef lb) = true -> wf (S n) h0 (VRef lo) = true ->
  tame (S n) h0 (VRef lo) = true ->
  h0 !! lb = Some ob -> okind ob = KPlain ->
  h0 !! lo = Some oo -> okind oo = KPlain ->
  reify (S n) h (VRef lt) = reify (S n) h0 (VRef lb) ->
  good path lb lo ->
  exists h' o',
    merge (S n) strategies h (VRef lt) (VRef lo) path = Ok h' /\
    merge_post h0 h lt h' /\ h' !! lt = Some o' /\ okind o' = KPlain /\
    deep_equal h' (get_prop k (oprops o')) h0 (expect lb lo).

Lemma descend_gen : forall ks n h lt lb lo path lbm lom,
  tgt h0 h (VRef lt) ->
  wf n h0 (VRef lb) = true -> wf n h0 (VRef lo) = true ->
  tame n h0 (VRef lo) = true ->
  reify n h (VRef lt) = reify n h0 (VRef lb) ->
  descends strategies h0 path (VRef lb) (VRef lo) ks = true ->
  at_path h0 (VRef lb) ks = VRef lbm ->
  at_path h0 (VRef lo) ks = VRef lom ->
  good (path_of path ks) lbm lom ->
  exists h',
    merge n strategies h (VRef lt) (VRef lo) path = Ok h' /\
    merge_post h0 h lt h' /\
    deep_equal h' (at_path h' (VRef lt) (ks ++ [k])) h0 (expect lbm lom).
Proof.
  induction ks as [|k1 ks IH];
    intros n h lt lb lo path lbm lom Ht Hb Ho Htame Hre Hdesc Hab Hao Hgood.
  - (* the last level *)
    apply descends_plain in Hdesc as [Hpb Hpo].
    apply is_plain_inv in Hpb as (? & ob & [= <-] & Hlb & Hkb).
    apply is_plain_inv in Hpo as (? & oo & [= <-] & Hlo & Hko).
    pose proof Hb as (n' & ? & -> & _)%wf_alloc.
    cbn [at_path path_of] in Hab, Hao, Hgood.
    injection Hab as <-. injection Hao as <-.
    destruct (level n' h lt lb ob lo oo path) as (h' & o' & E & Hpost & Hl' & Hk' & Hde);
      auto.
    exists h'. split_and!; auto.
    cbn [app at_path]. by rewrite Hl', read_plain.
  - (* one level down *)
    cbn [descends] in Hdesc.
    apply andb_true_iff in Hdesc as [[Hpb Hpo]%andb_true_iff
                                      [Hrep Hdesc]%andb_true_iff].
    apply negb_true_iff in Hrep.
    apply is_plain_inv in Hpb as (? & ob & [= <-] & Hlb & Hkb).
    apply is_plain_inv in Hpo as (? & oo & [= <-] & Hlo & Hko).
    cbn [app at_path path_of] in Hdesc, Hab, Hao, Hgood.
    rewrite Hlb, Hlo, !read_plain in Hdesc by done.
    rewrite Hlb, read_plain in Hab by done.
    rewrite Hlo, read_plain in Hao by done.
    pose proof (descends_plain _ _ _ _ _ _ Hdesc) as [Hpb1 Hpo1].
    apply is_plain_inv in Hpb1 as (lb1 & ob1 & Eb1 & Hlb1 & Hkb1).
    apply is_plain_inv in Hpo1 as (lo1 & oo1 & Eo1 & Hlo1 & Hko1).
    rewrite Eb1, Eo1 in *.
    pose proof Ho as (n' & oo' & -> & Hlo' & Hnd & _ & Hch)%wf_alloc.
    assert (oo' = oo) as -> by congruence.
    assert (Hsw : forall v, v ∈ slots oo -> wf n' h0 v = true)
      by (intros v Hv; apply Hch; apply elem_of_app; by left).
    pose proof Htame as (n0 & oo' & [= <-] & Hlo'' & Htm)%tame_alloc.
    assert (oo' = oo) as -> by congruence.
    destruct (Htm ltac:(by rewrite Hko)) as [Hord Hst].
    assert (Hwb1 : wf n' h0 (VRef lb1) = true)
      by (rewrite <- Eb1; apply get_prop_wf; intros v Hv;
          eapply wf_slots; [exact Hb | exact Hlb |]; by rewrite slots_plain).
    assert (Hwo1 : wf n' h0 (VRef lo1) = true)
      by (rewrite <- Eo1; apply get_prop_wf; intros v Hv; apply Hsw;
          by rewrite slots_plain).
    assert (Hto1 : tame n' h0 (VRef lo1) = true)
      by (rewrite <- Eo1, <- (read_plain oo) by done;
          by apply read_prop_tame).
    destruct (level_facts h0 n' h lt lb ob Hb Hlb Hkb Hre)
      as (ot & Hl & Hk & Hrek).
    assert (exists lc, get_prop k1 (oprops ot) = VRef lc) as [lc Hlc]
      by (specialize (Hrek k1); rewrite Eb1 in Hrek;
          destruct (reify_wf _ _ _ Hwb1) as [d Hd];
          destruct (get_prop k1 (oprops ot)) eqn:Et; eauto;
          (apply reify_ref_not_prim in Hrek; [congruence | done])).
    assert (Hin : k1 ∈ keys (oprops oo))
      by (apply get_prop_key; by rewrite Eo1).
    pose proof (ordinary_in _ _ Hord Hin) as Hordk.
    destruct (merge_keys_at h0 n' strategies (merge n' strategies)
                (merge_spec h0 strategies n')
                lo oo path Hlo Hsw Hst lt (keys (oprops oo)) k1 h ot
                Hnd Hord Hin Ht Hl Hk)
      as (ha & hb & h' & oa & ob' & o' & E
          & (Hta & Hla & Hka & Hga & Hfa & Hlena)
          & (Estep & Htb & Hlb' & Hkb') & (Htc & Hlc' & Hkc & Hgc & Hfc)).
    rewrite (merge_key_recurse _ _ _ ha lt lo oo oa path k1 lc lo1)
      in Estep; auto;
      [ | by apply Hta | by rewrite read_plain
        | eapply isArray_plain; [by apply Hta | done]
        | rewrite read_plain by done; congruence ].
    assert (Hinc : VRef lc ∈ slots oa)
      by (rewrite slots_plain by done; apply (get_prop_in k1); congruence).
    destruct (IH n' ha lc lb1 lo1 (current_path path k1) lbm lom)
      as (hb2 & Eb2 & Hpostb & Hde); auto;
      [ by eapply tgt_child
      | rewrite <- Hlc, <- Eb1, <- (Hrek k1);
        apply (untouched_reify_key h0 n' h ha lt ot k1); auto; apply Hta
      | ].
    assert (hb2 = hb) as -> by congruence.
    destruct (merge_keys_spec h0 n' strategies (merge n' strategies)
                (merge_spec h0 strategies n') lo oo path Hlo Hsw Hst
                lt (keys (oprops oo)) h Hord Ht) as (h'' & E'' & Hpost).
    assert (h'' = h') as -> by congruence.
    exists h'; split; [|split; [done|]].
    { rewrite merge_S, (proj1 Ht _ _ Hlo), Hko. exact E. }
    assert (Hroot : hb !! lt = Some oa)
      by (destruct Hpostb as (_ & _ & Hfr & _);
          destruct Hta as (_ & _ & Htra & Hra);
          rewrite Hfr; [done | by eapply lookup_lt_Some | ];
          apply tree_inv in Htra as (o1 & Hl1 & _ & _ & Hac);
          assert (o1 = oa) as -> by congruence; by apply Hac).
    assert (ob' = oa) as -> by congruence.
    rewrite Hga, Hlc in Hgc.
    destruct Hde as (m & d & Hd1 & Hd2).
    exists m, d; split; [|done].
    cbn [app at_path]; rewrite Hlc', read_plain, Hgc by done.
    rewrite Hga, Hlc in Hfc.
    rewrite (at_path_agree hb h') by done.
    rewrite <- Hd1; apply (reify_frame h0);
      [apply Htb | apply Htc | apply Htb | ].
    intros l Hx; apply at_path_reach in Hx; split; [|by apply Hfc].
    destruct Htb as (_ & _ & _ & Hrb).
    assert (slot_reach hb (VRef lt) l) as Hx'%Hrb
      by (eapply reach_step; [exact Hroot | exact Hinc | done]); lia.
Qed.
End Descend.

Lemma is_str_eq s v : is_str s v = true <-> v = VStr s.
Proof.
  destruct v; simpl; try (split; [done | by intros [=]]).
  rewrite String.eqb_eq. split; [by intros -> | by intros [= ->]].
Qed.

Lemma is_str_neq s v : v <> VStr s -> is_str s v = false.
Proof.
  intros Hn. destruct (is_str s v) eqn:E; [|done].
  by apply is_str_eq in E.
Qed.

Lemma key_action_skip st tv a :
  entry_is "safe" st = true \/ entry_undefined st = true ->
  key_action st VUndef tv a = Skip.
Proof.
  unfold key_action. intros [-> | ->]; [done|].
  by destruct (entry_is "safe" st).
Qed.

Lemma path_of_app path b : forall a,
  path_of path (a ++ b) = path_of (path_of path a) b.
Proof.
  intros a. revert path. induction a as [|k a IH]; intros path; [done|].
  apply IH.
Qed.

Lemma descends_at strategies h ks : forall path b o,
  descends strategies h path b o ks = true ->
  exists lbm obm lom oom,
    at_path h b ks = VRef lbm /\ h !! lbm = Some obm /\ okind obm = KPlain /\
    at_path h o ks = VRef lom /\ h !! lom = Some oom /\ okind oom = KPlain.
Proof.
  induction ks as [|k ks IH]; intros path b o Hd.
  - apply descends_plain in Hd as [Hb Ho].
    apply is_plain_inv in Hb as (lb & ob & -> & Hlb & Hkb).
    apply is_plain_inv in Ho as (lo & oo & -> & Hlo & Hko).
    by exists lb, ob, lo, oo.
  - cbn [descends] in Hd.
    apply andb_true_iff in Hd as [[Hb Ho]%andb_true_iff [_ Hd]%andb_true_iff].
    apply is_plain_inv in Hb as (lb & ob & -> & Hlb & Hkb).
    apply is_plain_inv in Ho as (lo & oo & -> & Hlo & Hko).
    cbn [at_path] in *. rewrite Hlb, Hlo in *. by apply IH in Hd.
Qed.

(** A level of the merge at which the iteration for [k], if there is one,
    leaves the store as it is: the working copy keeps the value cloned from
    the base. *)
Lemma level_unchanged h0 strategies k n h lt lb ob lo oo path :
  tgt h0 h (VRef lt) ->
  wf (S n) h0 (VRef lb) = true -> wf (S n) h0 (VRef lo) = true ->
  tame (S n) h0 (VRef lo) = true ->
  h0 !! lb = Some ob -> okind ob = KPlain ->
  h0 !! lo = Some oo -> okind oo = KPlain ->
  reify (S n) h (VRef lt) = reify (S n) h0 (VRef lb) ->
  (k ∈ keys (oprops oo) ->
   ordinary k = true ->
   forall ha oa, tgt h0 ha (VRef lt) -> ha !! lt = Some oa ->
     okind oa = KPlain ->
     reify n ha (get_prop k (oprops oa)) = reify n h0 (get_prop k (oprops ob)) ->
     merge_key strategies (deepClone n) (merge n strategies) ha (VRef lt)
       lo path k = Ok ha) ->
  exists h' o',
    merge (S n) strategies h (VRef lt) (VRef lo) path = Ok h' /\
    merge_post h0 h lt h' /\ h' !! lt = Some o' /\ okind o' = KPlain /\
    deep_equal h' (get_prop k (oprops o')) h0 (at_path h0 (VRef lb) [k]).
Proof.
  intros Ht Hb Ho Htame Hlb Hkb Hlo Hko Hre Hstep.
  pose proof Ho as (n' & oo' & [= <-] & Hlo' & Hnd & _ & Hch)%wf_alloc.
  assert (oo' = oo) as -> by congruence.
  assert (Hsw : forall v, v ∈ slots oo -> wf n h0 v = true).
  { intros v Hv. apply Hch. apply elem_of_app; by left. }
  pose proof Htame as (n0 & oo' & [= <-] & Hlo'' & Htm)%tame_alloc.
  assert (oo' = oo) as -> by congruence.
  destruct (Htm ltac:(by rewrite Hko)) as [Hord Hst].
  destruct (level_facts h0 n h lt lb ob Hb Hlb Hkb Hre) as (ot & Hl & Hk & Hrek).
  assert (Hwk : wf n h0 (get_prop k (oprops ob)) = true).
  { apply get_prop_wf. intros v Hv. eapply wf_slots; [exact Hb | exact Hlb |].
    by rewrite slots_plain. }
  destruct (reify_wf _ _ _ Hwk) as [d Hd].
  cbn [at_path]. rewrite Hlb, read_plain by done.
  rewrite merge_S. rewrite (proj1 Ht _ _ Hlo), Hko.
  destruct (decide (k ∈ keys (oprops oo))) as [Hin|Hni].
  - pose proof (ordinary_in _ _ Hord Hin) as Hordk.
    destruct (merge_keys_at h0 n strategies (merge n strategies)
                (merge_spec h0 strategies n)
                lo oo path Hlo Hsw Hst lt (keys (oprops oo)) k h ot
                Hnd Hord Hin Ht Hl Hk)
      as (ha & hb & h' & oa & ob' & o' & E
          & (Hta & Hla & Hka & Hga & Hfa & Hlena)
          & (Estep & Htb & Hlb' & Hkb') & (Htc & Hlc & Hkc & Hgc & Hfc)).
    assert (Hrea : reify n ha (get_prop k (oprops oa))
                   = reify n h0 (get_prop k (oprops ob))).
    { rewrite Hga, <- Hrek.
      apply (untouched_reify_key h0 n h ha lt ot k); auto. apply Hta. }
    rewrite (Hstep Hin Hordk ha oa Hta Hla Hka Hrea) in Estep.
    injection Estep as <-.
    assert (ob' = oa) as -> by congruence.
    destruct (merge_keys_spec h0 n strategies (merge n strategies)
                (merge_spec h0 strategies n) lo oo path Hlo Hsw Hst
                lt (keys (oprops oo)) h Hord Ht) as (h'' & E'' & Hpost).
    assert (h'' = h') as -> by congruence.
    exists h', o'. split_and!; auto.
    exists n, d. split; [|done].
    rewrite Hgc, <- Hd, <- Hrea.
    apply (untouched_reify_key h0 n ha h' lt oa k); auto. apply Htc.
  - destruct (merge_keys_untouched h0 n strategies (merge n strategies)
                (merge_spec h0 strategies n)
                lo oo path Hlo Hsw Hst lt (keys (oprops oo)) k h ot
                Hnd Hord Hni Ht Hl Hk)
      as (h' & o' & E & Hpost & Hl' & Hk' & Hget & Hfr).
    exists h', o'. split_and!; auto.
    exists n, d. split; [|done].
    rewrite Hget, <- Hd, <- Hrek.
    apply (untouched_reify_key h0 n h h' lt ot k); auto. apply Hpost.
Qed.

(** The iteration for [k] is skipped: the override's value is [undefined]
    and the strategy entry is "safe" or missing. *)
Lemma level_skipped h0 strategies k n h lt lb ob lo oo path :
  tgt h0 h (VRef lt) ->
  wf (S n) h0 (VRef lb) = true -> wf (S n) h0 (VRef lo) = true ->
  tame (S n) h0 (VRef lo) = true ->
  h0 !! lb = Some ob -> okind ob = KPlain ->
  h0 !! lo = Some oo -> okind oo = KPlain ->
  reify (S n) h (VRef lt) = reify (S n) h0 (VRef lb) ->
  (k ∈ keys (oprops oo) ->
   get_prop k (oprops oo) = VUndef /\
   (entry_is "safe" (strategy_entry strategies (current_path path k)) = true \/
    entry_undefined (strategy_entry strategies (current_path path k))
      = true)) ->
  exists h' o',
    merge (S n) strategies h (VRef lt) (VRef lo) path = Ok h' /\
    merge_post h0 h lt h' /\ h' !! lt = Some o' /\ okind o' = KPlain /\
    deep_equal h' (get_prop k (oprops o')) h0 (at_path h0 (VRef lb) [k]).
Proof.
  intros Ht Hb Ho Htame Hlb Hkb Hlo Hko Hre Hc.
  apply (level_unchanged h0 strategies k n h lt lb ob lo oo path); auto.
  intros Hin Hordk ha oa Hta Hla Hka _. destruct (Hc Hin) as [Hsv Hst].
  rewrite (merge_key_action _ _ _ ha lt lo oo oa); auto; [|by apply Hta].
  rewrite read_plain, Hsv by done. by rewrite key_action_skip.
Qed.

(** The override's value is a Date, a Map or a Set and the base's value is
    an object: the merge recurses, and finds no own keys to walk. *)
Lemma level_builtin h0 strategies k n h lt lb ob lo oo path :
  tgt h0 h (VRef lt) ->
  wf (S n) h0 (VRef lb) = true -> wf (S n) h0 (VRef lo) = true ->
  tame (S n) h0 (VRef lo) = true ->
  h0 !! lb = Some ob -> okind ob = KPlain ->
  h0 !! lo = Some oo -> okind oo = KPlain ->
  reify (S n) h (VRef lt) = reify (S n) h0 (VRef lb) ->
  (exists ls os lv,
     get_prop k (oprops oo) = VRef ls /\ h0 !! ls = Some os /\
     tag_of (okind os) <> TagPlain /\ tag_of (okind os) <> TagArray /\
     get_prop k (oprops ob) = VRef lv /\
     get_prop (current_path path k) strategies <> VStr "replace") ->
  exists h' o',
    merge (S n) strategies h (VRef lt) (VRef lo) path = Ok h' /\
    merge_post h0 h lt h' /\ h' !! lt = Some o' /\ okind o' = KPlain /\
    deep_equal h' (get_prop k (oprops o')) h0 (at_path h0 (VRef lb) [k]).
Proof.
  intros Ht Hb Ho Htame Hlb Hkb Hlo Hko Hre
    (ls & os & lv & Hsv & Hls & Hnp & Hna & Hbv & Hst).
  apply (level_unchanged h0 strategies k n h lt lb ob lo oo path); auto.
  intros Hin Hordk ha oa Hta Hla Hka Hrea.
  assert (Hwo : wf n h0 (VRef ls) = true).
  { rewrite <- Hsv. apply get_prop_wf. intros v Hv.
    eapply wf_slots; [exact Ho | exact Hlo |]. by rewrite slots_plain. }
  assert (Hwv : wf n h0 (VRef lv) = true).
  { rewrite <- Hbv. apply get_prop_wf. intros v Hv.
    eapply wf_slots; [exact Hb | exact Hlb |]. by rewrite slots_plain. }
  assert (exists lc, get_prop k (oprops oa) = VRef lc) as [lc Hlc].
  { rewrite Hbv in Hrea. destruct (reify_wf _ _ _ Hwv) as [d Hd].
    destruct (get_prop k (oprops oa)) eqn:Et; eauto;
      (apply reify_ref_not_prim in Hrea; [congruence | done]). }
  pose proof (proj1 Hta _ _ Hls) as Hls'.
  rewrite (merge_key_recurse _ _ _ ha lt lo oo oa path k lc ls); auto.
  - apply wf_alloc in Hwo as (n' & os' & -> & Hls2 & _ & Hnpp & _).
    assert (os' = os) as -> by congruence.
    rewrite merge_S, Hls'.
    assert (oprops os = []) as Hemp.
    { unfold no_props_unless_plain in Hnpp.
      destruct (okind os), (oprops os); done. }
    rewrite Hemp. by destruct (okind os).
  - by apply Hta.
  - by rewrite read_plain.
  - unfold isArray. rewrite Hls'. destruct os as [[] ?]; done.
  - by rewrite read_plain.
  - by apply is_str_neq.
Qed.

(** The iteration for [k] writes: the result holds a clone of the
    override's value. *)
Lemma level_written h0 strategies k n h lt lb ob lo oo path :
  tgt h0 h (VRef lt) ->
  wf (S n) h0 (VRef lb) = true -> wf (S n) h0 (VRef lo) = true ->
  tame (S n) h0 (VRef lo) = true ->
  h0 !! lb = Some ob -> okind ob = KPlain ->
  h0 !! lo = Some oo -> okind oo = KPlain ->
  reify (S n) h (VRef lt) = reify (S n) h0 (VRef lb) ->
  k ∈ keys (oprops oo) /\
  key_action (strategy_entry strategies (current_path path k))
    (get_prop k (oprops oo)) (get_prop k (oprops ob))
    (isArray h0 (get_prop k (oprops oo))) = Write ->
  exists h' o',
    merge (S n) strategies h (VRef lt) (VRef lo) path = Ok h' /\
    merge_post h0 h lt h' /\ h' !! lt = Some o' /\ okind o' = KPlain /\
    deep_equal h' (get_prop k (oprops o')) h0 (at_path h0 (VRef lo) [k]).
Proof.
  intros Ht Hb Ho Htame Hlb Hkb Hlo Hko Hre [Hin Hact].
  pose proof Ho as (n' & oo' & [= <-] & Hlo' & Hnd & _ & Hch)%wf_alloc.
  assert (oo' = oo) as -> by congruence.
  assert (Hsw : forall v, v ∈ slots oo -> wf n h0 v = true).
  { intros v Hv. apply Hch. apply elem_of_app; by left. }
  pose proof Htame as (n0 & oo' & [= <-] & Hlo'' & Htm)%tame_alloc.
  assert (oo' = oo) as -> by congruence.
  destruct (Htm ltac:(by rewrite Hko)) as [Hord Hst].
  pose proof (ordinary_in _ _ Hord Hin) as Hordk.
  destruct (level_facts h0 n h lt lb ob Hb Hlb Hkb Hre) as (ot & Hl & Hk & Hrek).
  assert (Hwk : wf n h0 (get_prop k (oprops ob)) = true).
  { apply get_prop_wf. intros v Hv. eapply wf_slots; [exact Hb | exact Hlb |].
    by rewrite slots_plain. }
  assert (Hwsv : wf n h0 (get_prop k (oprops oo)) = true).
  { apply get_prop_wf. intros v Hv. apply Hsw. by rewrite slots_plain. }
  destruct (reify_wf _ _ _ Hwsv) as [d Hd].
  cbn [at_path]. rewrite Hlo, read_plain by done.
  destruct (merge_keys_at h0 n strategies (merge n strategies)
              (merge_spec h0 strategies n)
              lo oo path Hlo Hsw Hst lt (keys (oprops oo)) k h ot
              Hnd Hord Hin Ht Hl Hk)
    as (ha & hb & h' & oa & ob' & o' & E
        & (Hta & Hla & Hka & Hga & Hfa & Hlena)
        & (Estep & Htb & Hlb' & Hkb') & (Htc & Hlc & Hkc & Hgc & Hfc)).
  assert (Hpa : prefix h0 ha) by apply Hta.
  assert (Hrea : reify n ha (get_prop k (oprops oa))
                 = reify n h0 (get_prop k (oprops ob))).
  { rewrite Hga, <- Hrek.
    apply (untouched_reify_key h0 n h ha lt ot k); auto. }
  assert (Harr : isArray ha (get_prop k (oprops oo))
                 = isArray h0 (get_prop k (oprops oo))).
  { destruct (get_prop k (oprops oo)) as [| | | | |ls] eqn:Esv; try done.
    apply wf_alloc in Hwsv as (? & os & _ & Hls & _). unfold isArray.
    by rewrite (Hpa _ _ Hls), Hls. }
  rewrite (merge_key_action _ _ _ ha lt lo oo oa) in Estep; auto.
  rewrite !read_plain in Estep by done.
  rewrite Harr, (key_action_reify n ha _ h0 _ _ _ _ Hwk Hrea), Hact in Estep.
  destruct (deepClone n ha (get_prop k (oprops oo))) as [[v' ha1]| | |] eqn:Ecl;
    cbn [bind] in Estep; try done.
  pose proof (deepClone_shape _ _ _ _ _ Ecl) as ([e1 ->] & _).
  rewrite (store_ordinary _ _ oa) in Estep;
    [ | by apply lookup_app_l_Some | done].
  injection Estep as <-.
  destruct (store_clone_value h0 n ha lt oa k _ v' _ Hta Hla Hka Hwsv Ecl)
    as (ob2 & Hlb2 & _ & Hgb & Hreb & Hfresh).
  assert (ob2 = ob') as -> by congruence.
  set (hb := <[lt := set_own oa k v']> (ha ++ e1)) in *.
  assert (Hsame : reify n h' v' = reify n hb v').
  { rewrite <- Hgb. eapply untouched_reify_key; eauto. apply Htc. }
  destruct (merge_keys_spec h0 n strategies (merge n strategies)
              (merge_spec h0 strategies n) lo oo path Hlo Hsw Hst
              lt (keys (oprops oo)) h Hord Ht) as (h'' & E'' & Hpost).
  assert (h'' = h') as -> by congruence.
  exists h', o'. split_and!; auto.
  - by rewrite merge_S, (proj1 Ht _ _ Hlo), Hko.
  - exists n, d. by rewrite Hgc, Hgb, Hsame, Hreb.
Qed.

(** The value of the merged configuration at the path [ks ++ [k]], when the
    merge walks down [ks] and the last level satisfies [good]. *)
Lemma mergeConfig_path (good : heap -> props -> string -> string -> loc -> loc -> Prop)
    (expect : heap -> string -> loc -> loc -> value) :
  (forall h0 strategies k n h lt lb ob lo oo path,
     tgt h0 h (VRef lt) ->
     wf (S n) h0 (VRef lb) = true -> wf (S n) h0 (VRef lo) = true ->
     tame (S n) h0 (VRef lo) = true ->
     h0 !! lb = Some ob -> okind ob = KPlain ->
     h0 !! lo = Some oo -> okind oo = KPlain ->
     reify (S n) h (VRef lt) = reify (S n) h0 (VRef lb) ->
     good h0 strategies k path lb lo ->
     exists h' o',
       merge (S n) strategies h (VRef lt) (VRef lo) path = Ok h' /\
       merge_post h0 h lt h' /\ h' !! lt = Some o' /\ okind o' = KPlain /\
       deep_equal h' (get_prop k (oprops o')) h0 (expect h0 k lb lo)) ->
  forall n h lb lo ks k options lbm lom,
    wf n h (VRef lb) = true -> wf n h (VRef lo) = true ->
    tame n h (VRef lo) = true ->
    descends (default [] options) h "" (VRef lb) (VRef lo) ks = true ->
    at_path h (VRef lb) ks = VRef lbm -> at_path h (VRef lo) ks = VRef lom ->
    good h (default [] options) k (path_of "" ks) lbm lom ->
    exists lr h',
      mergeConfig n h (VRef lb) (VRef lo) options = Ok (VRef lr, h') /\
      deep_equal h' (at_path h' (VRef lr) (ks ++ [k])) h (expect h k lbm lom).
Proof.
  intros Hlevel n h lb lo ks k options lbm lom Hb Ho Htame Hdesc Hab Hao Hgood.
  destruct (mergeConfig_run n h lb (VRef lo) options Hb Ho Htame)
    as (lr & h1 & h' & Ec & Em & E & Ht & Hpost & Hre).
  destruct (descend_gen h (default [] options) k
              (good h (default [] options) k) (expect h k)
              (fun n h1 lt lb ob lo oo path =>
                 Hlevel h (default [] options) k n h1 lt lb ob lo oo path)
              ks n h1 lr lb lo "" lbm lom Ht Hb Ho Htame Hre Hdesc Hab Hao
              Hgood)
    as (h'' & Em' & _ & Hde).
  assert (h'' = h') as -> by congruence.
  by exists lr, h'.
Qed.

Lemma key_action_write st sv bv a :
  sv <> VUndef ->
  entry_is "replace" st || a || is_prim sv || is_prim bv = true ->
  key_action st sv bv a = Write.
Proof.
  intros Hsv Hc. unfold key_action.
  assert (is_undef sv = false) as -> by (by destruct sv).
  rewrite !andb_false_r.
  destruct (entry_is "replace" st); [done|].
  destruct a; [done|]. cbn [orb] in *.
  destruct sv; try done; destruct bv; done.
Qed.

Lemma key_action_undef st bv a :
  entry_undefined st = false -> entry_is "safe" st = false ->
  key_action st VUndef bv a = Write.
Proof.
  intros H1 H2. unfold key_action. rewrite H1, H2.
  cbn. by destruct (_ || _).
Qed.

Lemma deep_equal_prim h v h0 p : is_prim p = true -> deep_equal h v h0 p -> v = p.
Proof.
  intros Hp (n & d & H1 & H2). rewrite reify_prim in H2 by done.
  injection H2 as <-. by apply reify_prim_inv in H1.
Qed.

(** ** mergeConfig: values that are kept *)

(** X3: for a well-formed base and a well-formed, tame override, along a
    path on which base and override both hold plain objects and no strategy
    entry says "replace", a key that the override's object does not have
    keeps the base's value in the result: the loop only visits
    [Object.keys(source)]. *)
Theorem mergeConfig_absent_key_kept n h lb lo ks k lom oom options :
  wf n h (VRef lb) = true -> wf n h (VRef lo) = true ->
  tame n h (VRef lo) = true ->
  descends (default [] options) h "" (VRef lb) (VRef lo) ks = true ->
  at_path h (VRef lo) ks = VRef lom -> h !! lom = Some oom ->
  k ∉ keys (oprops oom) ->
  exists lr h',
    mergeConfig n h (VRef lb) (VRef lo) options = Ok (VRef lr, h') /\
    deep_equal h' (at_path h' (VRef lr) (ks ++ [k]))
               h (at_path h (VRef lb) (ks ++ [k])).
Proof.
  intros Hb Ho Htame Hdesc Hao Hlom Hni.
  destruct (descends_at _ _ _ _ _ _ Hdesc)
    as (lbm & obm & lom' & oom' & Hab & Hlbm & Hkbm & Hao' & Hlom' & Hkom).
  rewrite Hao in Hao'. injection Hao' as <-.
  assert (oom' = oom) as -> by congruence.
  rewrite (at_path_app h ks [k] (VRef lb)), Hab.
  apply (mergeConfig_path
           (fun h0 strategies k path lb lo =>
              exists oo, h0 !! lo = Some oo /\ k ∉ keys (oprops oo))
           (fun h0 k lb lo => at_path h0 (VRef lb) [k])) with (lom := lom);
    eauto.
  intros h0 strategies k0 n0 h1 lt lb0 ob lo0 oo path
    Ht Hb0 Ho0 Hta0 Hlb Hkb Hlo Hko Hre (oo' & Hlo' & Hni').
  assert (oo' = oo) as -> by congruence.
  apply (level_skipped h0 strategies k0 n0 h1 lt lb0 ob lo0 oo path); auto.
  intros Hin. by destruct Hni'.
Qed.

Lemma mergeConfig_absent_key_kept_witness :
  exists lr h',
    mergeConfig 3 test_store (VRef 8) (VRef 11) None = Ok (VRef lr, h') /\
    deep_equal h' (at_path h' (VRef lr) ["theme"; "colors"; "secondary"])
               test_store (VStr "blue").
Proof.
  apply (mergeConfig_absent_key_kept 3 test_store 8 11 ["theme"; "colors"]
           "secondary" 9 (plain [("primary", VStr "green")]) None);
    try reflexivity.
  apply (bool_decide_unpack _). by vm_compute.
Defined.

(** X4: for a well-formed base and a well-formed, tame override, along
    such a path, a key at which the override holds [undefined] and for whose
    path the lookup in the strategy table gives [undefined] keeps the base's
    value: an [undefined] is then ignored as under "safe".  The lookup
    gives [undefined] when the table has an own entry holding [undefined],
    or no own entry and the path is not the name of a member of
    [Object.prototype] ([constructor], [toString], ...), which the lookup
    would find instead. *)
Theorem mergeConfig_undefined_ignored_by_default n h lb lo ks k options :
  wf n h (VRef lb) = true -> wf n h (VRef lo) = true ->
  tame n h (VRef lo) = true ->
  descends (default [] options) h "" (VRef lb) (VRef lo) ks = true ->
  at_path h (VRef lo) (ks ++ [k]) = VUndef ->
  entry_undefined
    (strategy_entry (default [] options) (path_of "" (ks ++ [k]))) = true ->
  exists lr h',
    mergeConfig n h (VRef lb) (VRef lo) options = Ok (VRef lr, h') /\
    deep_equal h' (at_path h' (VRef lr) (ks ++ [k]))
               h (at_path h (VRef lb) (ks ++ [k])).
Proof.
  intros Hb Ho Htame Hdesc Hsv Hst.
  destruct (descends_at _ _ _ _ _ _ Hdesc)
    as (lbm & obm & lom & oom & Hab & Hlbm & Hkbm & Hao & Hlom & Hkom).
  rewrite (at_path_app h ks [k] (VRef lb)), Hab.
  rewrite (at_path_app h ks [k] (VRef lo)), Hao in Hsv.
  cbn [at_path] in Hsv. rewrite Hlom, read_plain in Hsv by done.
  rewrite path_of_app in Hst. cbn [path_of] in Hst.
  apply (mergeConfig_path
           (fun h0 strategies k path lb lo =>
              exists oo, h0 !! lo = Some oo /\
                get_prop k (oprops oo) = VUndef /\
                entry_undefined
                  (strategy_entry strategies (current_path path k)) = true)
           (fun h0 k lb lo => at_path h0 (VRef lb) [k])) with (lom := lom);
    eauto.
  intros h0 strategies k0 n0 h1 lt lb0 ob lo0 oo path
    Ht Hb0 Ho0 Hta0 Hlb Hkb Hlo Hko Hre (oo' & Hlo' & Hsv' & Hst').
  assert (oo' = oo) as -> by congruence.
  apply (level_skipped h0 strategies k0 n0 h1 lt lb0 ob lo0 oo path); auto.
Qed.

Lemma mergeConfig_undefined_ignored_by_default_witness :
  exists lr h',
    mergeConfig 2 safe_store (VRef 1) (VRef 3) None = Ok (VRef lr, h') /\
    deep_equal h' (at_path h' (VRef lr) ["x"; "a"]) safe_store (VNum 1).
Proof.
  apply (mergeConfig_undefined_ignored_by_default 2 safe_store 1 3 ["x"] "a"
           None); reflexivity.
Defined.

(** X5: for a well-formed base and a well-formed, tame override, along
    such a path, where the override holds a Date, a Map or a Set and the
    base holds an object, and the strategy entry of the path is not
    "replace", the result keeps the base's value: the merge recurses into
    the two objects and the override's object has no own keys to walk. *)
Theorem mergeConfig_builtin_override_ignored n h lb lo ks k ls os lv options :
  wf n h (VRef lb) = true -> wf n h (VRef lo) = true ->
  tame n h (VRef lo) = true ->
  descends (default [] options) h "" (VRef lb) (VRef lo) ks = true ->
  at_path h (VRef lo) (ks ++ [k]) = VRef ls -> h !! ls = Some os ->
  tag_of (okind os) <> TagPlain -> tag_of (okind os) <> TagArray ->
  at_path h (VRef lb) (ks ++ [k]) = VRef lv ->
  get_prop (path_of "" (ks ++ [k])) (default [] options) <> VStr "replace" ->
  exists lr h',
    mergeConfig n h (VRef lb) (VRef lo) options = Ok (VRef lr, h') /\
    deep_equal h' (at_path h' (VRef lr) (ks ++ [k])) h (VRef lv).
Proof.
  intros Hb Ho Htame Hdesc Hsv Hls Hnp Hna Hbv Hst.
  destruct (descends_at _ _ _ _ _ _ Hdesc)
    as (lbm & obm & lom & oom & Hab & Hlbm & Hkbm & Hao & Hlom & Hkom).
  rewrite <- Hbv. rewrite (at_path_app h ks [k] (VRef lb)), Hab.
  rewrite (at_path_app h ks [k] (VRef lb)), Hab in Hbv.
  rewrite (at_path_app h ks [k] (VRef lo)), Hao in Hsv.
  cbn [at_path] in Hsv, Hbv.
  rewrite Hlom, read_plain in Hsv by done.
  rewrite Hlbm, read_plain in Hbv by done.
  rewrite path_of_app in Hst. cbn [path_of] in Hst.
  apply (mergeConfig_path
           (fun h0 strategies k path lb lo =>
              exists ob oo ls os lv, h0 !! lb = Some ob /\ h0 !! lo = Some oo /\
                get_prop k (oprops oo) = VRef ls /\ h0 !! ls = Some os /\
                tag_of (okind os) <> TagPlain /\
                tag_of (okind os) <> TagArray /\
                get_prop k (oprops ob) = VRef lv /\
                get_prop (current_path path k) strategies <> VStr "replace")
           (fun h0 k lb lo => at_path h0 (VRef lb) [k])) with (lom := lom);
    auto.
  - intros h0 strategies k0 n0 h1 lt lb0 ob lo0 oo path
      Ht Hb0 Ho0 Hta0 Hlb Hkb Hlo Hko Hre
      (ob' & oo' & ls' & os' & lv' & Hlb' & Hlo' & ?).
    assert (ob' = ob) as -> by congruence.
    assert (oo' = oo) as -> by congruence.
    apply (level_builtin h0 strategies k0 n0 h1 lt lb0 ob lo0 oo path); eauto.
  - by exists obm, oom, ls, os, lv.
Qed.

Lemma mergeConfig_builtin_override_ignored_witness :
  exists lr h',
    mergeConfig 2 mixed_store (VRef 2) (VRef 5) None = Ok (VRef lr, h') /\
    deep_equal h' (at_path h' (VRef lr) ["d"]) mixed_store (VRef 0).
Proof.
  apply (mergeConfig_builtin_override_ignored 2 mixed_store 2 5 [] "d" 3
           (Obj (KDate 0) []) 0 None); try reflexivity; discriminate.
Defined.

(** ** mergeConfig: values that are written *)

(** X6: for a well-formed base and a well-formed, tame override (so the
    key is none of [__proto__], [length], [size] or an array index), along
    such a path, where the override holds a value other than [undefined],
    the result holds a deep-equal clone of the override's value as soon as
    the strategy entry of the path is "replace", or the override's value is
    an array or a primitive, or the base's value is a primitive (also a
    missing one). *)
Theorem mergeConfig_written_at_path n h lb lo ks k options :
  wf n h (VRef lb) = true -> wf n h (VRef lo) = true ->
  tame n h (VRef lo) = true ->
  descends (default [] options) h "" (VRef lb) (VRef lo) ks = true ->
  at_path h (VRef lo) (ks ++ [k]) <> VUndef ->
  get_prop (path_of "" (ks ++ [k])) (default [] options) = VStr "replace" \/
  isArray h (at_path h (VRef lo) (ks ++ [k])) = true \/
  is_prim (at_path h (VRef lo) (ks ++ [k])) = true \/
  is_prim (at_path h (VRef lb) (ks ++ [k])) = true ->
  exists lr h',
    mergeConfig n h (VRef lb) (VRef lo) options = Ok (VRef lr, h') /\
    deep_equal h' (at_path h' (VRef lr) (ks ++ [k]))
               h (at_path h (VRef lo) (ks ++ [k])).
Proof.
  intros Hb Ho Htame Hdesc Hsv Hc.
  destruct (descends_at _ _ _ _ _ _ Hdesc)
    as (lbm & obm & lom & oom & Hab & Hlbm & Hkbm & Hao & Hlom & Hkom).
  rewrite (at_path_app h ks [k] (VRef lb)), Hab in Hc.
  rewrite (at_path_app h ks [k] (VRef lo)), Hao in Hsv, Hc |- *.
  cbn [at_path] in Hsv, Hc.
  rewrite Hlom, read_plain in Hsv, Hc by done.
  rewrite Hlbm, read_plain in Hc by done.
  rewrite path_of_app in Hc. cbn [path_of] in Hc.
  apply (mergeConfig_path
           (fun h0 strategies k path lb lo =>
              exists ob oo, h0 !! lb = Some ob /\ h0 !! lo = Some oo /\
                k ∈ keys (oprops oo) /\
                key_action (strategy_entry strategies (current_path path k))
                  (get_prop k (oprops oo)) (get_prop k (oprops ob))
                  (isArray h0 (get_prop k (oprops oo))) = Write)
           (fun h0 k lb lo => at_path h0 (VRef lo) [k])) with (lbm := lbm);
    eauto.
  - intros h0 strategies k0 n0 h1 lt lb0 ob lo0 oo path
      Ht Hb0 Ho0 Hta0 Hlb Hkb Hlo Hko Hre (ob' & oo' & Hlb' & Hlo' & ?).
    assert (ob' = ob) as -> by congruence.
    assert (oo' = oo) as -> by congruence.
    apply (level_written h0 strategies k0 n0 h1 lt lb0 ob lo0 oo path); auto.
  - exists obm, oom. split_and!; auto; [by apply get_prop_key|].
    apply key_action_write; [done|].
    destruct Hc as [Hc | [Hc | [Hc | Hc]]].
    + by rewrite entry_is_get, Hc.
    + rewrite Hc. by rewrite orb_true_r.
    + rewrite Hc. by rewrite !orb_true_r.
    + rewrite Hc. by rewrite !orb_true_r.
Qed.

Lemma mergeConfig_written_at_path_witness :
  exists lr h',
    mergeConfig 3 test_store (VRef 8) (VRef 11) None = Ok (VRef lr, h') /\
    deep_equal h' (at_path h' (VRef lr) ["theme"; "colors"; "primary"])
               test_store (VStr "green").
Proof.
  apply (mergeConfig_written_at_path 3 test_store 8 11 ["theme"; "colors"]
           "primary" None); try reflexivity; [discriminate | by right; right; left].
Defined.

(** X7: for a well-formed base and a well-formed, tame override, along
    such a path, an own key of the override that holds [undefined], where
    the lookup in the strategy table gives neither [undefined] nor "safe"
    ("replace", "merge", any other own entry, or a member inherited from
    [Object.prototype]), makes the result hold [undefined] there, whatever
    the base held. *)
Theorem mergeConfig_explicit_undefined_written n h lb lo ks k lom oom options :
  wf n h (VRef lb) = true -> wf n h (VRef lo) = true ->
  tame n h (VRef lo) = true ->
  descends (default [] options) h "" (VRef lb) (VRef lo) ks = true ->
  at_path h (VRef lo) ks = VRef lom -> h !! lom = Some oom ->
  k ∈ keys (oprops oom) -> get_prop k (oprops oom) = VUndef ->
  entry_undefined
    (strategy_entry (default [] options) (path_of "" (ks ++ [k]))) = false ->
  get_prop (path_of "" (ks ++ [k])) (default [] options) <> VStr "safe" ->
  exists lr h',
    mergeConfig n h (VRef lb) (VRef lo) options = Ok (VRef lr, h') /\
    at_path h' (VRef lr) (ks ++ [k]) = VUndef.
Proof.
  intros Hb Ho Htame Hdesc Hao Hlom Hin Hsv Hst1 Hst2.
  destruct (descends_at _ _ _ _ _ _ Hdesc)
    as (lbm & obm & lom' & oom' & Hab & Hlbm & Hkbm & Hao' & Hlom' & Hkom).
  rewrite Hao in Hao'. injection Hao' as <-.
  assert (oom' = oom) as -> by congruence.
  rewrite path_of_app in Hst1, Hst2. cbn [path_of] in Hst1, Hst2.
  destruct (mergeConfig_path
           (fun h0 strategies k path lb lo =>
              exists ob oo, h0 !! lb = Some ob /\ h0 !! lo = Some oo /\
                k ∈ keys (oprops oo) /\
                key_action (strategy_entry strategies (current_path path k))
                  (get_prop k (oprops oo)) (get_prop k (oprops ob))
                  (isArray h0 (get_prop k (oprops oo))) = Write)
           (fun h0 k lb lo => at_path h0 (VRef lo) [k])) with
      (n := n) (h := h) (lb := lb) (lo := lo) (ks := ks) (k := k)
      (options := options) (lbm := lbm) (lom := lom)
    as (lr & h' & E & Hde); auto.
  - intros h0 strategies k0 n0 h1 lt lb0 ob lo0 oo path
      Ht Hb0 Ho0 Hta0 Hlb Hkb Hlo Hko Hre (ob' & oo' & Hlb' & Hlo' & ?).
    assert (ob' = ob) as -> by congruence.
    assert (oo' = oo) as -> by congruence.
    apply (level_written h0 strategies k0 n0 h1 lt lb0 ob lo0 oo path); auto.
  - exists obm, oom. split_and!; auto.
    rewrite Hsv. apply key_action_undef; [done|].
    rewrite entry_is_get. by apply is_str_neq.
  - exists lr, h'. split; [done|].
    cbn [at_path] in Hde. rewrite Hlom, read_plain, Hsv in Hde by done.
    by apply deep_equal_prim in Hde.
Qed.

Lemma mergeConfig_explicit_undefined_written_witness :
  exists lr h',
    mergeConfig 2 mixed_store (VRef 2) (VRef 5) (Some [("n", VStr "merge")])
      = Ok (VRef lr, h') /\
    at_path h' (VRef lr) ["n"] = VUndef.
Proof.
  apply (mergeConfig_explicit_undefined_written 2 mixed_store 2 5 [] "n" 5
           (plain [("d", VRef 3); ("arr", VRef 4); ("n", VUndef)])
           (Some [("n", VStr "merge")])); try reflexivity; try discriminate.
  apply (bool_decide_unpack _). by vm_compute.
Defined.

(** ** merge: kinds of objects *)

Lemma same_kinds_refl h : same_kinds h h.
Proof. intros l o Hl. by exists o. Qed.

Lemma same_kinds_trans h1 h2 h3 :
  same_kinds h1 h2 -> same_kinds h2 h3 -> same_kinds h1 h3.
Proof.
  intros H12 H23 l o Hl.
  destruct (H12 _ _ Hl) as (o2 & Hl2 & Ht2 & Hc2).
  destruct (H23 _ _ Hl2) as (o3 & Hl3 & Ht3 & Hc3).
  exists o3. split_and!; [done | congruence | congruence].
Qed.

Lemma same_kinds_app h ext : same_kinds h (h ++ ext).
Proof. intros l o Hl. exists o. by rewrite (lookup_app_l_Some _ _ _ _ Hl). Qed.

Lemma set_own_kind o k v :
  tag_of (okind (set_own o k v)) = tag_of (okind o) /\
  contents (set_own o k v) = contents o.
Proof. by destruct o as [[] ps]. Qed.

(** An assignment that succeeds keeps the kind of the object: an element or
    the length of an array changes, or an own property is set, or (for
    [__proto__] and a primitive value) nothing. *)
Lemma write_prop_kind o k v o' :
  write_prop o k v = Ok o' ->
  tag_of (okind o') = tag_of (okind o) /\ contents o' = contents o.
Proof.
  unfold write_prop. destruct (_ && _).
  { destruct v; try done; by intros [= <-]. }
  destruct o as [kd ps]. cbn [okind oprops].
  destruct kd as [|es| | |]; try (intros [= <-]; apply set_own_kind).
  - destruct (array_index k) as [i|].
    + destruct (i <? _); [by intros [= <-]|].
      destruct (i =? _)%nat; [by intros [= <-] | done].
    + destruct (String.eqb k "length"); [|intros [= <-]; apply set_own_kind].
      destruct (set_length es v) as [es'| | |]; cbn [bind]; try done.
      by intros [= <-].
  - destruct (String.eqb k "size"); [done|].
    intros [= <-]; apply set_own_kind.
  - destruct (String.eqb k "size"); [done|].
    intros [= <-]; apply set_own_kind.
Qed.

Lemma same_kinds_write h l o o' :
  h !! l = Some o ->
  tag_of (okind o') = tag_of (okind o) /\ contents o' = contents o ->
  same_kinds h (<[l := o']> h).
Proof.
  intros Hl Hk l' o1 Hl'. destruct (decide (l' = l)) as [->|Hne].
  - assert (o1 = o) as -> by congruence.
    exists o'. split; [|done].
    apply list_lookup_insert_eq. by eapply lookup_lt_Some.
  - exists o1. by rewrite list_lookup_insert_ne.
Qed.

Lemma store_prop_kinds h t k v h' :
  store_prop h t k v = Ok h' -> same_kinds h h'.
Proof.
  destruct t as [| | | | |lt]; try done. cbn [store_prop].
  destruct (h !! lt) as [ot|] eqn:Hl; [|done].
  destruct (write_prop ot k v) as [o'| | |] eqn:Ew; cbn [bind]; try done.
  intros [= <-]. eapply same_kinds_write; [done|]. by eapply write_prop_kind.
Qed.

Section MergeKinds.
Variable strategies : props.
Variable n : nat.
Variable merge_rec : heap -> value -> value -> string -> res heap.
Hypothesis merge_rec_kinds : forall h t s path h',
  merge_rec h t s path = Ok h' -> same_kinds h h'.

Lemma clone_store_kinds h sv t key h' :
  (do (v, h1) <- deepClone n h sv ;; store_prop h1 t key v) = Ok h' ->
  same_kinds h h'.
Proof.
  destruct (deepClone n h sv) as [[v h1]| | |] eqn:Ecl; cbn [bind]; try done.
  intros Est. pose proof (deepClone_shape _ _ _ _ _ Ecl) as ([e1 ->] & _).
  eapply same_kinds_trans; [apply same_kinds_app|].
  by eapply store_prop_kinds.
Qed.

Lemma merge_key_kinds h t ls path key h' :
  merge_key strategies (deepClone n) merge_rec h t ls path key = Ok h' ->
  same_kinds h h'.
Proof.
  unfold merge_key. destruct (h !! ls) as [os|]; [|done].
  destruct (read_target h t key) as [tv| | |]; cbn [bind]; try done.
  destruct (_ && is_undef _); [intros [= <-]; apply same_kinds_refl|].
  destruct (_ && _ && is_undef _); [intros [= <-]; apply same_kinds_refl|].
  destruct (_ || _); [apply clone_store_kinds|].
  destruct (_ && _ && _ && _); [apply merge_rec_kinds | apply clone_store_kinds].
Qed.

Lemma merge_keys_kinds t ls path ks : forall h h',
  merge_keys strategies (deepClone n) merge_rec h t ls path ks = Ok h' ->
  same_kinds h h'.
Proof.
  induction ks as [|key ks IH]; intros h h'; cbn [merge_keys].
  - intros [= <-]. apply same_kinds_refl.
  - destruct (merge_key _ _ _ h t ls path key) as [h1| | |] eqn:E1;
      cbn [bind]; try done.
    intros E2. eapply same_kinds_trans; [by eapply merge_key_kinds | by eapply IH].
Qed.
End MergeKinds.

Lemma merge_kinds strategies n : forall h t s path h',
  merge n strategies h t s path = Ok h' -> same_kinds h h'.
Proof.
  induction n as [|n IH]; intros h t s path h'.
  - destruct s as [| | | | |ls]; try (intros [= <-]; apply same_kinds_refl).
    cbn [merge]. destruct (h !! ls) as [os|]; [|done].
    destruct (okind os); try done. intros [= <-]. apply same_kinds_refl.
  - destruct s as [| | | | |ls]; try (intros [= <-]; apply same_kinds_refl).
    cbn [merge]. destruct (h !! ls) as [os|]; [|done].
    destruct (okind os);
      try (by apply merge_keys_kinds);
      intros [= <-]; apply same_kinds_refl.
Qed.

(** X8: for a well-formed plain base object and a well-formed, tame plain
    override (the keys of the override's objects are none of [__proto__],
    [length], [size] or an array index, for which the assignment to an
    array, a Map or a Set throws or changes the elements): where the base
    holds an object of any kind at key [k] (an array, a Date, a Map, a Set
    or a plain object) and the override holds an object that is not an
    array, and the strategy entry of [k] is not "replace", the result holds
    at [k] an object of the base's kind, not the override's: the merge
    recurses into the clone of the base's object without testing that the
    two kinds match.  In particular a base array stays an array when the
    override gives a plain object. *)
Theorem mergeConfig_base_kind_kept n h lb ob lo oo k la oa ls options :
  wf n h (VRef lb) = true -> wf n h (VRef lo) = true ->
  tame n h (VRef lo) = true ->
  h !! lb = Some ob -> okind ob = KPlain ->
  h !! lo = Some oo -> okind oo = KPlain ->
  get_prop k (oprops ob) = VRef la -> h !! la = Some oa ->
  get_prop k (oprops oo) = VRef ls -> isArray h (VRef ls) = false ->
  get_prop k (default [] options) <> VStr "replace" ->
  exists lr h' or la' oa',
    mergeConfig n h (VRef lb) (VRef lo) options = Ok (VRef lr, h') /\
    h' !! lr = Some or /\ get_prop k (oprops or) = VRef la' /\
    h' !! la' = Some oa' /\ tag_of (okind oa') = tag_of (okind oa).
Proof.
  intros Hb Ho Htame Hlb Hkb Hlo Hko Hbv Hla Hsv Hna Hst.
  destruct (mergeConfig_top n h lb ob lo oo options Hb Ho Htame Hlb Hkb Hlo)
    as (n' & lr & h1 & or1 & h' & -> & Ec & E & Ht & Hl1 & Hk1 & Hre & Hnd
        & Hsw & Hpost & Hloop & Htm).
  specialize (Hloop ltac:(by rewrite Hko)).
  destruct (Htm ltac:(by rewrite Hko)) as [Hord Hstm].
  assert (Hwa : wf n' h (VRef la) = true).
  { rewrite <- Hbv. apply get_prop_wf. intros v Hv.
    eapply wf_slots; [exact Hb | exact Hlb |]. by rewrite slots_plain. }
  assert (Hws : wf n' h (VRef ls) = true).
  { rewrite <- Hsv. apply get_prop_wf. intros v Hv. apply Hsw.
    by rewrite slots_plain. }
  destruct (reify_wf _ _ _ Hwa) as [d Hd].
  destruct (deep_equal_tag h1 (get_prop k (oprops or1)) h la oa)
    as (lc & oc & Hlc & Hoc & Htag); [|done|].
  { exists n', d. by rewrite Hre, Hbv. }
  assert (Hin : k ∈ keys (oprops oo)).
  { apply get_prop_key. by rewrite Hsv. }
  pose proof (ordinary_in _ _ Hord Hin) as Hordk.
  assert (Hts : tame n' h (VRef ls) = true).
  { rewrite <- Hsv, <- (read_plain oo) by done. by apply read_prop_tame. }
  destruct (merge_keys_at h n' (default [] options)
              (merge n' (default [] options))
              (merge_spec h (default [] options) n')
              lo oo "" Hlo Hsw Hstm lr (keys (oprops oo)) k h1 or1
              Hnd Hord Hin Ht Hl1 Hk1)
    as (ha & hb & h'' & ra & rb & o' & E' & (Hta & Hra & Hka & Hga & Hfa & Hlena)
        & (Estep & Htb & Hrb & Hkb') & (Htc & Hrc & Hkc & Hgc & Hfc)).
  assert (h'' = h') as -> by congruence.
  pose proof (proj1 Hta _ _ Hlo) as Hlo'.
  pose proof Hws as (n'' & os & -> & Hls & _)%wf_alloc.
  pose proof (proj1 Hta _ _ Hls) as Hls'.
  rewrite (merge_key_recurse _ _ _ ha lr lo oo ra "" k lc ls) in Estep; auto;
    [ | by rewrite read_plain
      | unfold isArray in *; rewrite Hls in Hna; by rewrite Hls'
      | rewrite read_plain by done; congruence
      | by apply is_str_neq ].
  assert (Hinc : VRef lc ∈ slots ra).
  { rewrite slots_plain by done. apply (get_prop_in k). congruence. }
  destruct (merge_spec h (default [] options) (S n'') ha lc (VRef ls)
              (current_path "" k))
    as (hb' & Eb & Hpostb); [by eapply tgt_child | done | done | ].
  assert (hb' = hb) as -> by congruence.
  assert (Hroot : hb !! lr = Some ra).
  { destruct Hpostb as (_ & _ & Hfr & _).
    destruct Hta as (_ & _ & Htra & _).
    rewrite Hfr; [done | by eapply lookup_lt_Some | ].
    apply tree_inv in Htra as (o1 & Hl1' & _ & _ & Hac).
    assert (o1 = ra) as -> by congruence. by apply Hac. }
  assert (rb = ra) as -> by congruence.
  destruct (merge_keys_kinds (default [] options) _ _
              (merge_kinds (default [] options) (S n''))
              _ _ _ _ _ _ Hloop lc oc Hoc) as (oc' & Hoc' & Htag' & _).
  exists lr, h', o', lc, oc'. split_and!; auto; congruence.
Qed.

Lemma mergeConfig_base_kind_kept_witness :
  exists lr h' or la' oa',
    mergeConfig 2 mixed_store (VRef 2) (VRef 5) None = Ok (VRef lr, h') /\
    h' !! lr = Some or /\ get_prop "arr" (oprops or) = VRef la' /\
    h' !! la' = Some oa' /\ tag_of (okind oa') = TagArray.
Proof.
  apply (mergeConfig_base_kind_kept 2 mixed_store 2
           (plain [("d", VRef 0); ("arr", VRef 1); ("n", VNum 5)]) 5
           (plain [("d", VRef 3); ("arr", VRef 4); ("n", VUndef)]) "arr" 1
           (Obj (KArray [VNum 1; VNum 2]) []) 4 None);
    try reflexivity; discriminate.
Defined.

(** * Further properties: the inline HTML builder *)

Lemma special_cases ch :
  special ch = true ->
  (ch = 38 \/ ch = 60 \/ ch = 62 \/ ch = 34 \/ ch = 39 \/ ch = 96 \/ ch = 61
   \/ ch = 47)%N.
Proof.
  unfold special. cbn [existsb]. rewrite !orb_true_iff, !N.eqb_eq.
  intuition congruence.
Qed.

Lemma escape_cons ch s : escape (ch :: s) = escape_unit ch ++ escape s.
Proof. done. Qed.

Lemma escape_app_eq a b : escape (a ++ b) = escape a ++ escape b.
Proof. apply flat_map_app. Qed.

Lemma escape_unit_plain ch : special ch = false -> escape_unit ch = [ch].
Proof. unfold escape_unit. by intros ->. Qed.

(** The replacements are pairwise no prefix of one another, and none begins
    like an unescaped code unit. *)
Lemma escape_unit_inj a b ra rb :
  escape_unit a ++ ra = escape_unit b ++ rb -> a = b /\ ra = rb.
Proof.
  unfold escape_unit.
  destruct (special a) eqn:Ea, (special b) eqn:Eb.
  - apply special_cases in Ea, Eb.
    destruct Ea as [->|[->|[->|[->|[->|[->|[->| ->]]]]]]];
      destruct Eb as [->|[->|[->|[->|[->|[->|[->| ->]]]]]]];
      vm_compute; intros [=]; by subst.
  - apply special_cases in Ea.
    destruct Ea as [->|[->|[->|[->|[->|[->|[->| ->]]]]]]];
      vm_compute; intros [=]; by subst.
  - apply special_cases in Eb.
    destruct Eb as [->|[->|[->|[->|[->|[->|[->| ->]]]]]]];
      vm_compute; intros [=]; by subst.
  - by intros [= -> ->].
Qed.

Lemma escape_unit_nonempty ch : escape_unit ch <> [].
Proof.
  unfold escape_unit. destruct (special ch) eqn:E; [|done].
  apply special_cases in E.
  by destruct E as [->|[->|[->|[->|[->|[->|[->| ->]]]]]]].
Qed.

Lemma escape_inj : forall a b, escape a = escape b -> a = b.
Proof.
  induction a as [|x a IH]; intros [|y b]; rewrite ?escape_cons.
  - done.
  - intros E. symmetry in E. apply app_eq_nil in E as [E _].
    by apply escape_unit_nonempty in E.
  - intros E. apply app_eq_nil in E as [E _].
    by apply escape_unit_nonempty in E.
  - intros [-> E]%escape_unit_inj. by rewrite (IH _ E).
Qed.

Lemma escape_unit_length ch :
  length (escape_unit ch) = 1 /\ special ch = false \/
  1 < length (escape_unit ch) /\ special ch = true.
Proof.
  unfold escape_unit. destruct (special ch) eqn:E; [right | by left].
  apply special_cases in E.
  destruct E as [->|[->|[->|[->|[->|[->|[->| ->]]]]]]];
    vm_compute; split; (lia || done).
Qed.

Lemma escape_length s :
  length s <= length (escape s) /\
  (existsb special s = true -> length s < length (escape s)).
Proof.
  induction s as [|ch s [IH1 IH2]]; [by split|].
  rewrite escape_cons, length_app. cbn [length existsb].
  destruct (escape_unit_length ch) as [[Hl ->]|[Hl ->]]; cbn [orb].
  - split; [lia|]. intros H. apply IH2 in H. lia.
  - split; [lia|]. intros _. lia.
Qed.

Lemma escape_plain s : existsb special s = false -> escape s = s.
Proof.
  induction s as [|ch s IH]; [done|]. cbn [existsb].
  intros [Hc Hs]%orb_false_iff.
  by rewrite escape_cons, escape_unit_plain, IH.
Qed.

Lemma escape_fix s : escape s = s <-> existsb special s = false.
Proof.
  split; [|apply escape_plain].
  intros E. destruct (existsb special s) eqn:Ex; [|done].
  apply escape_length in Ex. rewrite E in Ex. lia.
Qed.

Lemma occ_app ch a b : occ ch (a ++ b) = occ ch a + occ ch b.
Proof. unfold occ. by rewrite List.filter_app, length_app. Qed.

Lemma occ_nil ch : occ ch [] = 0.
Proof. done. Qed.

Lemma occ_concat ch ps : occ ch (concat ps) = sum_list (map (occ ch) ps).
Proof.
  induction ps as [|p ps IH]; [done|].
  cbn [concat map sum_list]. by rewrite occ_app, IH.
Qed.

(** Of the class, only the ampersand occurs in what [escape] returns. *)
Lemma occ_escape ch s :
  special ch = true -> ch <> 38%N -> occ ch (escape s) = 0.
Proof.
  intros Hs Hne. induction s as [|x s IH]; [done|].
  rewrite escape_cons, occ_app, IH, Nat.add_0_r.
  unfold escape_unit. destruct (special x) eqn:Ex.
  - apply special_cases in Hs, Ex.
    destruct Hs as [->|[->|[->|[->|[->|[->|[->| ->]]]]]]]; try done;
      destruct Ex as [->|[->|[->|[->|[->|[->|[->| ->]]]]]]]; reflexivity.
  - unfold occ. cbn [List.filter].
    destruct (N.eqb_spec ch x) as [->|_]; [congruence | done].
Qed.

Lemma special_markup ch :
  ch ∈ [60; 62; 34; 39; 96; 61; 47]%N -> special ch = true.
Proof.
  intros Hin.
  repeat (apply elem_of_cons in Hin as [->|Hin]; [done|]).
  by apply elem_of_nil in Hin.
Qed.

(** ** escape *)

(** X9: what escape returns holds none of the code units 60, 62 (angle
    brackets), 34, 39, 96 (quotes and backtick), 61 (equals sign) and 47
    (slash): of the characters it replaces, only the ampersand of the
    entities is left. *)
Theorem escape_output_clean s :
  Forall (fun ch => ch ∉ [60; 62; 34; 39; 96; 61; 47]%N) (escape s).
Proof.
  induction s as [|x s IH]; [constructor|].
  rewrite escape_cons. apply Forall_app. split; [|done].
  unfold escape_unit. destruct (special x) eqn:Ex.
  - apply special_cases in Ex.
    destruct Ex as [->|[->|[->|[->|[->|[->|[->| ->]]]]]]];
      (repeat constructor); by apply (bool_decide_unpack _).
  - constructor; [|constructor]. intros Hin%special_markup. congruence.
Qed.

(** X10: escape loses nothing: two strings with the same escaped form are
    the same string. *)
Theorem escape_injective a b : escape a = escape b -> a = b.
Proof. apply escape_inj. Qed.

Lemma escape_injective_witness : lit "3 > 7" = lit "3 > 7".
Proof. apply (escape_injective (lit "3 > 7") (lit "3 > 7")). reflexivity. Defined.

(** X11: escape returns its argument unchanged exactly when the argument
    holds no character of the class, and escaping twice gives the same as
    escaping once only then: on any other string a second escape rewrites
    the ampersands of the first. *)
Theorem escape_twice s :
  (escape s = s <-> existsb special s = false) /\
  (escape (escape s) = escape s <-> existsb special s = false).
Proof.
  split; [apply escape_fix|].
  rewrite <- escape_fix. split.
  - apply escape_inj.
  - intros E. by rewrite !E.
Qed.

(** X12: escape distributes over concatenation, the replacement being made
    code unit by code unit. *)
Theorem escape_app a b : escape (a ++ b) = escape a ++ escape b.
Proof. apply escape_app_eq. Qed.

(** ** Inliner *)

Lemma render_push p i :
  Inliner.render (Inliner.push p i) = Inliner.render i ++ p.
Proof.
  unfold Inliner.render, Inliner.push. cbn [Inliner.pieces].
  rewrite concat_app. cbn [concat]. by rewrite app_nil_r.
Qed.

Ltac unfold_methods :=
  unfold Inliner.raw, Inliner.text, Inliner.strong, Inliner.em, Inliner.u,
    Inliner.ins, Inliner.s, Inliner.del, Inliner.sub, Inliner.sup,
    Inliner.span, Inliner.small, Inliner.space.

Lemma render_invoke c i :
  Inliner.render (Inliner.invoke c i) =
  Inliner.render i ++ Inliner.render (Inliner.invoke c Inliner.create).
Proof. destruct c; cbn [Inliner.invoke]; unfold_methods; by rewrite !render_push. Qed.

Lemma render_chain cs : forall i,
  Inliner.render (Inliner.chain cs i) =
  Inliner.render i ++
  concat (map (fun c => Inliner.render (Inliner.invoke c Inliner.create)) cs).
Proof.
  induction cs as [|c cs IH]; intros i; cbn [Inliner.chain fold_left map concat].
  - by rewrite app_nil_r.
  - change (fold_left _ cs ?j) with (Inliner.chain cs j).
    by rewrite IH, render_invoke, app_assoc.
Qed.

Lemma occ_invoke ch c :
  special ch = true -> ch <> 38%N -> Inliner.is_raw c = false ->
  occ ch (Inliner.render (Inliner.invoke c Inliner.create)) =
  if Inliner.is_element c then occ ch (lit "<></>") else 0.
Proof.
  intros Hs Hne Hraw.
  destruct c; try done; cbn [Inliner.invoke Inliner.is_element];
    unfold_methods; rewrite render_push; cbn [Inliner.render Inliner.create Inliner.pieces
                                concat app];
    rewrite ?occ_app, ?(occ_escape _ _ Hs Hne);
    apply special_cases in Hs;
    destruct Hs as [->|[->|[->|[->|[->|[->|[->| ->]]]]]]]; done.
Qed.

(** X13: two [text] calls in a row, anywhere in a chain of calls, render as
    one [text] call on the concatenation of their contents. *)
Theorem text_calls_merge cs1 a b cs2 i :
  Inliner.render
    (Inliner.chain (cs1 ++ [Inliner.CText a; Inliner.CText b] ++ cs2) i) =
  Inliner.render (Inliner.chain (cs1 ++ [Inliner.CText (a ++ b)] ++ cs2) i).
Proof.
  rewrite !render_chain, !map_app, !concat_app. do 2 f_equal.
  cbn [map concat Inliner.invoke]. unfold Inliner.text.
  rewrite !render_push. cbn [Inliner.render Inliner.create Inliner.pieces
                               concat app].
  by rewrite escape_app_eq, <- !app_assoc.
Qed.

(** X14: in what a chain of calls without [raw] renders, started on a new
    builder, the angle brackets and the slash are those of the tags (two
    opening brackets, two closing brackets and one slash for each element
    call), and there is no quote, backtick or equals sign: the contents
    contribute no markup. *)
Theorem render_markup_from_tags_only cs :
  forallb (fun c => negb (Inliner.is_raw c)) cs = true ->
  let out := Inliner.toString (Inliner.chain cs Inliner.create) in
  let elements := length (List.filter Inliner.is_element cs) in
  occ 60 out = 2 * elements /\ occ 62 out = 2 * elements /\
  occ 47 out = elements /\
  occ 34 out = 0 /\ occ 39 out = 0 /\ occ 96 out = 0 /\ occ 61 out = 0.
Proof.
  intros Hnr. cbn zeta. unfold Inliner.toString.
  rewrite render_chain. cbn [Inliner.render Inliner.create Inliner.pieces
                               concat app].
  assert (forall ch, special ch = true -> ch <> 38%N ->
            occ ch (concat (map (fun c => Inliner.render
                       (Inliner.invoke c Inliner.create)) cs))
            = occ ch (lit "<></>") * length (List.filter Inliner.is_element cs))
    as Hocc.
  { intros ch Hs Hne. induction cs as [|c cs IH]; [by rewrite Nat.mul_0_r|].
    cbn [forallb] in Hnr. apply andb_true_iff in Hnr as [Hc Hnr].
    apply negb_true_iff in Hc.
    cbn [map concat List.filter]. rewrite occ_app, (IH Hnr), occ_invoke by done.
    destruct (Inliner.is_element c); cbn [length]; lia. }
  rewrite !Hocc by done. vm_compute occ. lia.
Qed.

Lemma render_markup_from_tags_only_witness :
  let out := Inliner.toString
    (Inliner.chain [Inliner.CSpan (lit "a < b"); Inliner.CSpace;
                    Inliner.CStrong (lit "John")] Inliner.create) in
  occ 60 out = 2 * 2 /\ occ 62 out = 2 * 2 /\ occ 47 out = 2 /\
  occ 34 out = 0 /\ occ 39 out = 0 /\ occ 96 out = 0 /\ occ 61 out = 0.
Proof.
  apply (render_markup_from_tags_only
           [Inliner.CSpan (lit "a < b"); Inliner.CSpace;
            Inliner.CStrong (lit "John")]).
  reflexivity.
Defined.

(** * Further properties: type guards *)

Lemma isPrimitive_reify n h1 x1 h2 x2 d :
  reify n h1 x1 = Some d -> reify n h2 x2 = Some d ->
  isPrimitive x1 = isPrimitive x2.
Proof.
  destruct d as [p|tag ks ss cs]; intros E1 E2.
  - apply reify_prim_inv in E1, E2. congruence.
  - apply reify_DObj_inv in E1 as (? & l1 & ? & _ & -> & _).
    apply reify_DObj_inv in E2 as (? & l2 & ? & _ & -> & _). done.
Qed.

Lemma forallb_traverse n h1 h2 : forall xs1 xs2 ss,
  traverse (reify n h1) xs1 = Some ss -> traverse (reify n h2) xs2 = Some ss ->
  forallb isPrimitive xs1 = forallb isPrimitive xs2.
Proof.
  induction xs1 as [|x1 xs1 IH]; intros [|x2 xs2] ss; cbn [traverse].
  - done.
  - intros [= <-].
    destruct (reify n h2 x2), (traverse (reify n h2) xs2); done.
  - destruct (reify n h1 x1), (traverse (reify n h1) xs1); try done.
    by intros [= <-].
  - destruct (reify n h1 x1) as [d1|] eqn:E1; [|done].
    destruct (traverse (reify n h1) xs1) as [s1|] eqn:T1; [|done].
    destruct (reify n h2 x2) as [d2|] eqn:E2; [|done].
    destruct (traverse (reify n h2) xs2) as [s2|] eqn:T2; [|done].
    intros [= <-] [= -> ->]. cbn [forallb].
    by rewrite (isPrimitive_reify _ _ _ _ _ _ E1 E2), (IH _ _ eq_refl T2).
Qed.

Lemma traverse_app_inv {A B} (f : A -> option B) a b : forall ss,
  traverse f (a ++ b) = Some ss ->
  exists sa sb, ss = sa ++ sb /\ traverse f a = Some sa /\
    traverse f b = Some sb.
Proof.
  induction a as [|x a IH]; intros ss; cbn [app traverse].
  - intros E. by exists [], ss.
  - destruct (f x) as [y|]; [|done].
    destruct (traverse f (a ++ b)) as [r|] eqn:E; [|done].
    intros [= <-]. destruct (IH _ eq_refl) as (sa & sb & -> & -> & Hb).
    by exists (y :: sa), sb.
Qed.

Lemma reify_DPrim_prim n h v p :
  reify n h v = Some (DPrim p) -> v = p /\ is_prim p = true.
Proof.
  destruct v as [| | | | |l];
    try (rewrite reify_prim by done; by intros [= <-]).
  destruct n as [|n]; [done|]. rewrite reify_S.
  destruct (h !! l) as [o|]; [|done].
  by destruct (traverse (reify n h) (slots o)),
              (traverse (reify n h) (contents o)).
Qed.

(** The guards only look at the shape of a value. *)
Lemma guards_reify n h1 v1 h2 v2 d :
  reify n h1 v1 = Some d -> reify n h2 v2 = Some d ->
  isPrimitive v1 = isPrimitive v2 /\
  isPrimitiveArray h1 v1 = isPrimitiveArray h2 v2 /\
  isPrimitiveRecord h1 v1 = isPrimitiveRecord h2 v2.
Proof.
  intros E1 E2. split; [by eapply isPrimitive_reify|].
  destruct d as [p|tag ks ss cs].
  - apply reify_DPrim_prim in E1 as [-> Hp], E2 as [-> _].
    unfold isPrimitiveArray, isPrimitiveRecord, isObject.
    by destruct p.
  - apply reify_DObj_inv in E1 as (n1 & l1 & o1 & -> & -> & Hl1 & Ht1 & Hk1 & Hs1 & _).
    apply reify_DObj_inv in E2 as (n2 & l2 & o2 & [= <-] & -> & Hl2 & Ht2 & Hk2 & Hs2 & _).
    unfold isPrimitiveArray, isPrimitiveRecord, isObject, isArray, elements,
      values. rewrite Hl1, Hl2.
    rewrite (forallb_traverse _ _ _ _ _ _ Hs1 Hs2).
    destruct o1 as [k1 p1], o2 as [k2 p2]. cbn [okind oprops] in *.
    subst tag. destruct k1, k2; try discriminate Ht2; try done.
    split; [|done]. cbn [andb].
    unfold slots in Hs1, Hs2. cbn [okind oprops] in Hs1, Hs2.
    apply traverse_app_inv in Hs1 as (sa1 & sb1 & -> & Ha1 & Hb1).
    apply traverse_app_inv in Hs2 as (sa2 & sb2 & Hss & Ha2 & Hb2).
    apply app_inj_2 in Hss as [-> ->].
    + by apply (forallb_traverse _ _ _ _ _ _ Ha1 Ha2).
    + rewrite (traverse_length _ _ _ Hb1), (traverse_length _ _ _ Hb2).
      rewrite !length_map. unfold keys in *.
      rewrite <- (length_map fst p1), <- (length_map fst p2). congruence.
Qed.

(** X15: a value passes at most one of the three tests that isCompoundType
    combines: a primitive is neither a primitive array nor a primitive
    record, and no value is both of these. *)
Theorem compound_cases_exclusive h v :
  isPrimitive v && isPrimitiveArray h v = false /\
  isPrimitive v && isPrimitiveRecord h v = false /\
  isPrimitiveArray h v && isPrimitiveRecord h v = false.
Proof.
  unfold isPrimitiveArray, isPrimitiveRecord, isObject.
  destruct v as [| | | | |l]; try done. cbn [isPrimitive is_null isString
    isNumber isBoolean orb andb]. split_and!; try done.
  destruct (isArray h (VRef l)); [|done]. by rewrite !andb_false_r.
Qed.

(** X16: every Date, Map and Set without own properties is a primitive
    record, hence a compound type, whatever a Map or a Set holds: isObject
    only rules out null, undefined and arrays, and [Object.values] finds
    nothing on such an object. *)
Theorem builtin_object_is_compound h l o :
  h !! l = Some o ->
  tag_of (okind o) <> TagPlain -> tag_of (okind o) <> TagArray ->
  oprops o = [] ->
  isPrimitiveRecord h (VRef l) = true /\ isCompoundType h (VRef l) = true.
Proof.
  intros Hl Hnp Hna Hemp.
  assert (isPrimitiveRecord h (VRef l) = true) as Hr.
  { unfold isPrimitiveRecord, isObject, isArray, values, slots.
    rewrite Hl, Hemp. destruct o as [[] ?]; done. }
  split; [done|]. unfold isCompoundType. by rewrite Hr, orb_true_r.
Qed.

Lemma builtin_object_is_compound_witness :
  isPrimitiveRecord base_store (VRef 2) = true /\
  isCompoundType base_store (VRef 2) = true.
Proof.
  apply (builtin_object_is_compound base_store 2
           (Obj (KMap [(VStr "k", VRef 0)]) []));
    try reflexivity; discriminate.
Defined.

Lemma every_callable_deep_equal h1 v1 h2 v2 :
  deep_equal h1 v1 h2 v2 -> every_callable h1 v1 = every_callable h2 v2.
Proof.
  intros (n & d & E1 & E2). destruct d as [p|tag ks ss cs].
  - apply reify_DPrim_prim in E1 as [-> Hp], E2 as [-> _]. by destruct p.
  - apply reify_DObj_inv in E1
      as (n1 & l1 & o1 & -> & -> & Hl1 & Ht1 & Hk1 & _).
    apply reify_DObj_inv in E2
      as (n2 & l2 & o2 & [= <-] & -> & Hl2 & Ht2 & Hk2 & _).
    cbn [every_callable]. rewrite Hl1, Hl2. unfold callable, has_own.
    rewrite Hk1, <- Hk2.
    destruct o1 as [k1 p1], o2 as [k2 p2]; cbn [okind oprops] in *.
    subst tag. by destruct k1, k2.
Qed.

(** X17: the guards depend on the shape of a value only: deep-equal values,
    also of different stores, get the same answers, where the guards have
    an answer: the value is not an array with an own property [every],
    which the call [v.every] would find instead of the method.  (The arrays
    of the store are dense; an array with holes, which [every] skips, is
    not a value of the store.) *)
Theorem guards_respect_deep_equal h1 v1 h2 v2 :
  deep_equal h1 v1 h2 v2 -> every_callable h1 v1 = true ->
  every_callable h2 v2 = true /\
  isPrimitive v1 = isPrimitive v2 /\
  isPrimitiveArray h1 v1 = isPrimitiveArray h2 v2 /\
  isPrimitiveRecord h1 v1 = isPrimitiveRecord h2 v2 /\
  isCompoundType h1 v1 = isCompoundType h2 v2.
Proof.
  intros Hde Hc. split.
  { by rewrite <- (every_callable_deep_equal _ _ _ _ Hde). }
  destruct Hde as (n & d & E1 & E2).
  destruct (guards_reify _ _ _ _ _ _ E1 E2) as (Hp & Ha & Hr).
  unfold isCompoundType. by rewrite Hp, Ha, Hr.
Qed.

Lemma guards_respect_deep_equal_witness :
  every_callable test_store (VRef 0) = true /\
  isPrimitive (VRef 0) = isPrimitive (VRef 0) /\
  isPrimitiveArray base_store (VRef 0) = isPrimitiveArray test_store (VRef 0) /\
  isPrimitiveRecord base_store (VRef 0) = isPrimitiveRecord test_store (VRef 0) /\
  isCompoundType base_store (VRef 0) = isCompoundType test_store (VRef 0).
Proof.
  apply (guards_respect_deep_equal base_store (VRef 0) test_store (VRef 0));
    [|reflexivity].
  exists 1. eexists. split; reflexivity.
Defined.

(** X18: deepClone keeps a value in or out of the compound types: on
    well-formed plain data (no cycle, own properties on plain objects only,
    no own key [__proto__]) the clone passes each guard exactly when the
    input does. *)
Theorem deepClone_keeps_guards n h v :
  wf n h v = true ->
  exists v' h',
    deepClone n h v = Ok (v', h') /\
    isPrimitiveArray h' v' = isPrimitiveArray h v /\
    isPrimitiveRecord h' v' = isPrimitiveRecord h v /\
    isCompoundType h' v' = isCompoundType h v.
Proof.
  intros Hwf.
  destruct (deepClone_total n h v) as (v' & ext & E); [by apply wf_bounded|].
  destruct (clone_base n h _ _ _ Hwf E) as (_ & Hre & _).
  destruct (reify_wf _ _ _ Hwf) as [d Hd].
  rewrite Hd in Hre.
  destruct (guards_reify _ _ _ _ _ _ Hre Hd) as (Hp & Ha & Hr).
  exists v', (h ++ ext). split_and!; auto.
  unfold isCompoundType. by rewrite Hp, Ha, Hr.
Qed.

Lemma deepClone_keeps_guards_witness :
  exists v' h',
    deepClone 1 base_store (VRef 0) = Ok (v', h') /\
    isPrimitiveArray h' v' = false /\
    isPrimitiveRecord h' v' = true /\
    isCompoundType h' v' = true.
Proof.
  apply (deepClone_keeps_guards 1 base_store (VRef 0)). reflexivity.
Defined.

(** * Further properties: defaults *)

(** X19: toArray always returns an array. An array argument is returned
    itself, not a copy, so the result is the argument's object and the store
    is as before; any other argument gives a newly allocated empty array and
    leaves every existing object alone; and toArray applied to its result
    returns it again. *)
Theorem toArray_result h v :
  let '(r, h') := toArray h v in
  isArray h' r = true /\
  (isArray h v = true -> r = v /\ h' = h) /\
  (isArray h v = false ->
   r = VRef (length h) /\ h' = h ++ [Obj (KArray []) []] /\
   elements h' r = []) /\
  toArray h' r = (r, h').
Proof.
  unfold toArray. destruct (isArray h v) eqn:E.
  - rewrite E. by split_and!.
  - unfold alloc, isArray, elements.
    rewrite lookup_app_r, Nat.sub_diag by done. cbn. by split_and!.
Qed.

(** X20: chains of defaults associate, for [??] and for [||]:
    [(v ?? a) ?? b] is [v ?? (a ?? b)], and likewise for alter. *)
Theorem defaults_associate v a b :
  nullish (nullish v a) b = nullish v (nullish a b) /\
  alter (alter v a) b = alter v (alter a b).
Proof.
  unfold nullish, alter. split.
  - destruct (is_null v || is_undef v) eqn:E; [done|]. by rewrite E.
  - destruct (truthy v) eqn:E; [|done]. by rewrite E.
Qed.

(** X21: alter and nullish differ exactly on the falsy values that are
    neither null nor undefined (false, zero and the empty string): there
    alter gives the alternative and nullish the value; on every other value
    they agree. *)
Theorem alter_nullish v alt :
  (v = VBool false \/ v = VNum 0 \/ v = VStr EmptyString ->
   alter v alt = alt /\ nullish v alt = v) /\
  (v <> VBool false -> v <> VNum 0 -> v <> VStr EmptyString ->
   alter v alt = nullish v alt).
Proof.
  split.
  - by intros [-> | [-> | ->]].
  - intros Hb Hn Hs. unfold alter, nullish.
    destruct v as [| |b|z|s|l]; try done; cbn.
    + by destruct b.
    + destruct (Z.eqb_spec z 0) as [->|_]; done.
    + destruct s; done.
Qed.

(** * Further properties: numeric strings *)

Lemma substitution_plain repl matched before after :
  36%N ∉ repl -> substitution repl matched before after = repl.
Proof.
  induction repl as [|c r IH]; [done|]. intros Hni.
  apply not_elem_of_cons in Hni as [Hc Hr]. cbn [substitution].
  destruct (N.eqb_spec c 36) as [->|_]; [done|]. by rewrite IH.
Qed.

Lemma replace_runs_plain separator :
  36%N ∉ separator ->
  forall s before run,
    replace_runs separator before run s =
    put_separator separator (negb (bool_decide (run = []))) s.
Proof.
  intros Hni. induction s as [|c r IH]; intros before run.
  - cbn [replace_runs]. destruct run; [done|]. by rewrite substitution_plain.
  - cbn [replace_runs put_separator]. destruct (numeric_char c).
    + destruct run; rewrite IH; [done|]. by rewrite substitution_plain.
    + rewrite IH. by destruct run.
Qed.

Lemma unifySeparator_plain separator str :
  36%N ∉ separator ->
  unifySeparator (Some str) separator = put_separator separator false str.
Proof. intros Hni. unfold unifySeparator. by rewrite replace_runs_plain. Qed.

Lemma digit_numeric ch : is_digit ch = true -> numeric_char ch = true.
Proof. unfold numeric_char. by intros ->. Qed.

Lemma put_separator_digits separator :
  List.filter is_digit separator = [] ->
  forall s inrun,
    List.filter is_digit (put_separator separator inrun s)
    = List.filter is_digit s.
Proof.
  intros Hsep. induction s as [|c r IH]; intros inrun; cbn [put_separator].
  - by destruct inrun.
  - destruct (numeric_char c) eqn:Ec.
    + rewrite List.filter_app. cbn [List.filter]. rewrite IH.
      destruct inrun; by rewrite ?Hsep.
    + rewrite IH. cbn [List.filter].
      destruct (is_digit c) eqn:Ed; [|done].
      apply digit_numeric in Ed. congruence.
Qed.

(** A separator made of code units outside the class is a run. *)
Lemma put_separator_run separator t :
  forallb (fun ch => negb (numeric_char ch)) separator = true ->
  separator <> [] ->
  forall inrun,
    put_separator separator inrun (separator ++ t) =
    put_separator separator true t.
Proof.
  intros Hall Hne.
  assert (forall p inrun, forallb (fun ch => negb (numeric_char ch)) p = true ->
            put_separator separator inrun (p ++ t)
            = put_separator separator (inrun || negb (bool_decide (p = []))) t)
    as Hgen.
  { induction p as [|c p IH]; intros inrun Hp.
    - by rewrite orb_false_r.
    - cbn [forallb] in Hp. apply andb_true_iff in Hp as [Hc Hp].
      apply negb_true_iff in Hc. cbn [app put_separator]. rewrite Hc.
      rewrite IH by done. by rewrite orb_true_r. }
  intros inrun. rewrite Hgen by done.
  destruct separator; [done|]. by rewrite orb_true_r.
Qed.

Lemma put_separator_numeric separator s :
  forallb numeric_char s = true -> put_separator separator false s = s.
Proof.
  induction s as [|c r IH]; [done|]. cbn [forallb put_separator].
  intros [-> Hr]%andb_true_iff. by rewrite IH.
Qed.

Lemma put_separator_all_numeric separator :
  forallb numeric_char separator = true ->
  forall s inrun, forallb numeric_char (put_separator separator inrun s) = true.
Proof.
  intros Hsep. induction s as [|c r IH]; intros inrun; cbn [put_separator].
  - by destruct inrun.
  - destruct (numeric_char c) eqn:Ec; [|done].
    rewrite forallb_app. cbn [forallb]. rewrite Ec, IH.
    destruct inrun; by rewrite ?Hsep.
Qed.

Lemma put_separator_again separator :
  forallb (fun ch => negb (numeric_char ch)) separator = true ->
  separator <> [] ->
  forall s inrun,
    put_separator separator false (put_separator separator inrun s)
    = put_separator separator inrun s.
Proof.
  intros Hall Hne.
  assert (put_separator separator true [] = separator) as Hend by done.
  induction s as [|c r IH]; intros inrun; cbn [put_separator].
  - destruct inrun; [|done].
    rewrite <- (app_nil_r separator) at 2.
    by rewrite put_separator_run.
  - destruct (numeric_char c) eqn:Ec; [|done].
    destruct inrun; cbn [app].
    + rewrite put_separator_run by done.
      cbn [put_separator]. by rewrite Ec, IH.
    + cbn [put_separator]. by rewrite Ec, IH.
Qed.

(** X22: extractNumeric returns digits only, and returns a string of digits
    as it is; so applying it twice is applying it once. *)
Theorem extractNumeric_digits v :
  Forall (fun ch => (48 <= ch <= 57)%N) (extractNumeric v) /\
  extractNumeric (Some (extractNumeric v)) = extractNumeric v.
Proof.
  destruct v as [str|]; [|by split]. cbn [extractNumeric]. split.
  - apply Forall_forall. intros ch Hin%list_elem_of_In%filter_In.
    destruct Hin as [_ Hd]. unfold is_digit in Hd.
    apply andb_true_iff in Hd as [H1%N.leb_le H2%N.leb_le]. lia.
  - induction str as [|c r IH]; [done|]. cbn [List.filter].
    destruct (is_digit c) eqn:Ed; [|done].
    cbn [List.filter]. by rewrite Ed, IH.
Qed.

(** X23: unifySeparator keeps the digits: when the separator holds no digit
    and no dollar sign (which [replace] would expand), the digits of the
    result are the digits of the input, in order. *)
Theorem unifySeparator_keeps_digits v separator :
  36%N ∉ separator -> List.filter is_digit separator = [] ->
  extractNumeric (Some (unifySeparator v separator)) = extractNumeric v.
Proof.
  intros Hd Hs. destruct v as [str|]; [|done].
  rewrite unifySeparator_plain by done. cbn [extractNumeric].
  by apply put_separator_digits.
Qed.

Lemma unifySeparator_keeps_digits_witness :
  extractNumeric (Some (unifySeparator (Some (lit "1,234.56")) (lit "_")))
  = extractNumeric (Some (lit "1,234.56")).
Proof.
  apply (unifySeparator_keeps_digits (Some (lit "1,234.56")) (lit "_")).
  - apply (bool_decide_unpack _). by vm_compute.
  - reflexivity.
Defined.

(** X24: unifySeparator applied again with the same separator changes
    nothing, when the separator holds no dollar sign and is made either of
    code units outside the class (and then every run is one separator
    again) or of digits, full stops and hyphens only (and then no run is
    left); the empty separator is of the second sort. *)
Theorem unifySeparator_twice v separator :
  36%N ∉ separator ->
  forallb (fun ch => negb (numeric_char ch)) separator = true \/
  forallb numeric_char separator = true ->
  unifySeparator (Some (unifySeparator v separator)) separator
  = unifySeparator v separator.
Proof.
  intros Hd Hs. destruct v as [str|]; [|done].
  rewrite !unifySeparator_plain by done.
  destruct (decide (separator = [])) as [->|Hne].
  - apply put_separator_numeric. by apply put_separator_all_numeric.
  - destruct Hs as [Hs|Hs].
    + by apply put_separator_again.
    + apply put_separator_numeric. by apply put_separator_all_numeric.
Qed.

Lemma unifySeparator_twice_witness :
  unifySeparator (Some (unifySeparator (Some (lit "abc-123")) (lit "|")))
    (lit "|")
  = unifySeparator (Some (lit "abc-123")) (lit "|").
Proof.
  apply (unifySeparator_twice (Some (lit "abc-123")) (lit "|")).
  - apply (bool_decide_unpack _). by vm_compute.
  - left. reflexivity.
Defined.

(** * Further properties: strings *)

(** ** truncate *)

(** X25: truncate applied again with the same length changes nothing. *)
Theorem truncate_twice v n :
  Text.truncate (Text.truncate v n) n = Text.truncate v n.
Proof.
  unfold Text.truncate. destruct (Z.leb_spec n 0) as [Hn|Hn]; [done|].
  destruct (Z.leb_spec (Z.of_nat (length v)) n) as [Hv|Hv].
  - destruct (Z.leb_spec (Z.of_nat (length v)) n); [done | lia].
  - destruct (Z.leb_spec (Z.of_nat (length (take (Z.to_nat n) v ++ lit "...")))
                n) as [Hc|Hc].
    + rewrite length_app, length_take in Hc. cbn in Hc. lia.
    + rewrite take_app_le by (rewrite length_take; lia).
      rewrite take_take. by rewrite Nat.min_id.
Qed.

(** X26: when truncate cuts (the string is longer than [length], which is
    positive), the result is three code units longer than [length]: the
    ellipsis is not counted in the limit. The result is then longer than
    the string itself if the string exceeds the limit by one or two code
    units. In every case the result is at most two code units longer than
    the string. *)
Theorem truncate_length v n :
  ((0 < n)%Z -> (n < Z.of_nat (length v))%Z ->
   length (Text.truncate v n) = Z.to_nat n + 3 /\
   take (Z.to_nat n) (Text.truncate v n) = take (Z.to_nat n) v /\
   (length v < Z.to_nat n + 3 -> length v < length (Text.truncate v n))) /\
  length (Text.truncate v n) <= length v + 2.
Proof.
  unfold Text.truncate. split.
  - intros Hn Hv.
    destruct (Z.leb_spec n 0); [lia|].
    destruct (Z.leb_spec (Z.of_nat (length v)) n); [lia|].
    rewrite length_app, length_take. cbn [lit list_ascii_of_string map length].
    split_and!; [lia | | lia].
    rewrite take_app_le by (rewrite length_take; lia).
    rewrite take_take. by rewrite Nat.min_id.
  - destruct (Z.leb_spec n 0); [cbn; lia|].
    destruct (Z.leb_spec (Z.of_nat (length v)) n); [lia|].
    rewrite length_app, length_take. cbn [lit list_ascii_of_string map length].
    lia.
Qed.

(** ** concat *)

Lemma trim_start_head s :
  trim_start s = [] \/
  exists a r, trim_start s = a :: r /\ is_space a = false.
Proof.
  induction s as [|c r IH]; [by left|]. cbn [trim_start].
  destruct (is_space c) eqn:E; [done|]. right. by exists c, r.
Qed.

Lemma trim_start_suffix s : exists pre, s = pre ++ trim_start s.
Proof.
  induction s as [|c r [pre IH]]; [by exists []|]. cbn [trim_start].
  destruct (is_space c); [|by exists []].
  exists (c :: pre). cbn [app]. by rewrite <- IH.
Qed.

Lemma trim_start_clean a r : is_space a = false -> trim_start (a :: r) = a :: r.
Proof. cbn [trim_start]. by intros ->. Qed.

Lemma clean_trim p : clean p -> trim p = p.
Proof.
  intros (a & b & Ha & Hb & Hsa & Hsb). unfold trim.
  destruct p as [|a' r]; [done|]. injection Ha as ->.
  rewrite trim_start_clean by done.
  destruct (rev (a :: r)) as [|b' r'] eqn:Er.
  { apply (f_equal (@rev N)) in Er. by rewrite rev_involutive in Er. }
  assert (b' = b) as ->.
  { rewrite <- (rev_involutive (a :: r)), Er in Hb.
    cbn [rev] in Hb. rewrite last_snoc in Hb. congruence. }
  rewrite trim_start_clean by done. by rewrite <- Er, rev_involutive.
Qed.

Lemma trim_clean s : trim s = [] \/ clean (trim s).
Proof.
  unfold trim.
  destruct (trim_start_head s) as [->|(a & t & Et & Ha)]; [by left|].
  rewrite Et.
  destruct (trim_start_head (rev (a :: t))) as [->|(b & u & Eu & Hb)];
    [by left|].
  right. rewrite Eu.
  destruct (trim_start_suffix (rev (a :: t))) as [pre Hpre].
  rewrite Eu in Hpre. apply (f_equal (@rev N)) in Hpre.
  rewrite rev_involutive, rev_app_distr in Hpre.
  exists a, b. split_and!; try done.
  - destruct (rev (b :: u)) as [|x xs] eqn:Ex.
    + apply (f_equal (@rev N)) in Ex. by rewrite rev_involutive in Ex.
    + cbn [app] in Hpre. by injection Hpre as -> _.
  - cbn [rev]. by rewrite last_snoc.
Qed.

Lemma piece_clean item : Text.piece item = [] \/ clean (Text.piece item).
Proof.
  destruct item as [s|]; [|by left]. cbn [Text.piece].
  destruct (trim_clean s) as [->|Hc]; [by left|].
  destruct (trim s) eqn:E; [by left | by right].
Qed.

Lemma pieces_clean items :
  Forall clean (List.filter Text.nonempty (map Text.piece items)).
Proof.
  induction items as [|item items IH]; [constructor|].
  cbn [map List.filter].
  destruct (piece_clean item) as [->|Hc]; [done|].
  destruct (Text.piece item) eqn:E; [done|]. by constructor.
Qed.

Lemma join_cons sep p q ps :
  join sep (p :: q :: ps) = p ++ sep ++ join sep (q :: ps).
Proof. done. Qed.

Lemma join_app sep ps qs :
  ps <> [] -> qs <> [] ->
  join sep (ps ++ qs) = join sep ps ++ sep ++ join sep qs.
Proof.
  intros Hp Hq. induction ps as [|p ps IH]; [done|].
  destruct ps as [|p' ps].
  - destruct qs; done.
  - cbn [app] in *. rewrite !join_cons, IH by done.
    by rewrite <- !app_assoc.
Qed.

Lemma join_clean sep ps : Forall clean ps -> ps <> [] -> clean (join sep ps).
Proof.
  intros Hall Hne. induction Hall as [|p ps Hp Hall IH]; [done|].
  destruct ps as [|q ps]; [done|]. rewrite join_cons.
  destruct Hp as (a & _ & Ha & _ & Hsa & _).
  destruct IH as (_ & b & _ & Hb & _ & Hsb); [done|].
  exists a, b. split_and!; try done.
  - destruct p; [done|]. done.
  - rewrite app_assoc. destruct (join sep (q :: ps)) as [|x xs] eqn:E; [done|].
    by rewrite last_app, Hb.
Qed.

Lemma concat_clean_or_empty items :
  (List.filter Text.nonempty (map Text.piece items) = [] /\
   Text.concat items = []) \/
  (List.filter Text.nonempty (map Text.piece items) <> [] /\
   clean (Text.concat items)).
Proof.
  unfold Text.concat.
  destruct (List.filter Text.nonempty (map Text.piece items)) as [|p ps] eqn:E.
  - by left.
  - right. split; [done|]. apply join_clean; [|done].
    rewrite <- E. apply pieces_clean.
Qed.

Lemma piece_concat items : Text.piece (Some (Text.concat items)) = Text.concat items.
Proof.
  cbn [Text.piece].
  destruct (concat_clean_or_empty items) as [[_ ->]|[_ Hc]]; [done|].
  rewrite (clean_trim _ Hc).
  destruct Hc as (a & _ & Ha & _). by destruct (Text.concat items).
Qed.

(** X27: what concat returns neither begins nor ends with white space, so
    trimming it changes nothing; and it is empty exactly when every item is
    null, undefined, NaN or blank. *)
Theorem concat_trimmed items :
  trim (Text.concat items) = Text.concat items /\
  (Text.concat items = [] <->
   Forall (fun item => Text.piece item = []) items).
Proof.
  split.
  - destruct (concat_clean_or_empty items) as [[_ ->]|[_ Hc]]; [done|].
    by apply clean_trim.
  - destruct (concat_clean_or_empty items) as [[He ->]|[Hne Hc]].
    + split; [intros _|done].
      induction items as [|item items IH]; [constructor|].
      cbn [map List.filter] in He.
      destruct (Text.piece item) eqn:E; [|done].
      constructor; [done|]. by apply IH.
    + split.
      * intros E. rewrite E in Hc. by destruct Hc as (? & ? & ? & _).
      * intros Hall. destruct Hne. clear Hc.
        induction Hall as [|item items Hi Hall IH]; [done|].
        cbn [map List.filter]. rewrite Hi. exact IH.
Qed.

(** X28: concat can be applied in stages: joining the results of two calls
    gives what one call on all the items gives. *)
Theorem concat_flatten xs ys :
  Text.concat [Some (Text.concat xs); Some (Text.concat ys)]
  = Text.concat (xs ++ ys).
Proof.
  unfold Text.concat at 1. cbn [map]. rewrite !piece_concat.
  unfold Text.concat at 3. rewrite map_app, List.filter_app.
  destruct (concat_clean_or_empty xs) as [[Hx Ex]|[Hx Cx]];
    destruct (concat_clean_or_empty ys) as [[Hy Ey]|[Hy Cy]].
  - by rewrite Ex, Ey, Hx, Hy.
  - rewrite Ex, Hx. cbn [List.filter Text.nonempty app].
    change (join (lit " ") (List.filter Text.nonempty (map Text.piece ys)))
      with (Text.concat ys).
    destruct Cy as (? & _ & Hh & _).
    by destruct (Text.concat ys).
  - rewrite Ey, Hy, app_nil_r.
    change (join (lit " ") (List.filter Text.nonempty (map Text.piece xs)))
      with (Text.concat xs).
    destruct Cx as (? & _ & Hh & _).
    by destruct (Text.concat xs).
  - rewrite join_app by done.
    change (join (lit " ") (List.filter Text.nonempty (map Text.piece xs)))
      with (Text.concat xs).
    change (join (lit " ") (List.filter Text.nonempty (map Text.piece ys)))
      with (Text.concat ys).
    destruct Cx as (? & _ & Hhx & _), Cy as (? & _ & Hhy & _).
    destruct (Text.concat xs) eqn:Ex; [done|].
    by destruct (Text.concat ys) eqn:Ey.
Qed.

(** * Further properties: what deepClone leaves out *)

(** X29: deepClone copies the elements of an array, the time of a Date and
    the contents of a Map or a Set, and nothing else of them: own
    properties set on such an object are not in the clone, which is of the
    same kind. *)
Theorem deepClone_drops_own_properties n h l o v' h' :
  deepClone n h (VRef l) = Ok (v', h') -> h !! l = Some o ->
  okind o <> KPlain ->
  exists l' o', v' = VRef l' /\ h' !! l' = Some o' /\
    oprops o' = [] /\ tag_of (okind o') = tag_of (okind o).
Proof.
  intros E Hl Hk. destruct n as [|n]; [done|]. rewrite deepClone_S in E.
  rewrite Hl in E. destruct (methods_ok o); [|done]. unfold alloc in E.
  destruct (okind o) as [|elems|t|entries|members] eqn:Ek; [done| | | |].
  - destruct (clone_elems (deepClone n) h elems) as [[vs h1]| | |] eqn:Ee;
      cbn [bind] in E; try done.
    injection E as <- <-. eexists _, _. split; [done|].
    rewrite lookup_app_r, Nat.sub_diag by done. done.
  - injection E as <- <-. eexists _, _. split; [done|].
    rewrite lookup_app_r, Nat.sub_diag by done. done.
  - injection E as <- <-. eexists _, _. split; [done|].
    rewrite lookup_app_r, Nat.sub_diag by done. done.
  - injection E as <- <-. eexists _, _. split; [done|].
    rewrite lookup_app_r, Nat.sub_diag by done. done.
Qed.

Lemma deepClone_drops_own_properties_witness :
  exists l' o', VRef 2 = VRef l' /\
    (tagged_store ++ [Obj (KArray [VNum 1]) []]) !! l' = Some o' /\
    oprops o' = [] /\ tag_of (okind o') = TagArray.
Proof.
  apply (deepClone_drops_own_properties 1 tagged_store 0
           (Obj (KArray [VNum 1]) [("tag", VNum 7)]) (VRef 2)
           (tagged_store ++ [Obj (KArray [VNum 1]) []]));
    try reflexivity; discriminate.
Defined.

(** * The cases of the repository's tests *)

Example test_inliner_text :
  Inliner.toString (Inliner.chain [Inliner.CText (lit "3 > 7")] Inliner.create)
  = lit "3 &gt; 7".
Proof. reflexivity. Qed.

Example test_inliner_elements :
  Inliner.toString
    (Inliner.chain [Inliner.CSpan (lit "Hello"); Inliner.CSpace;
                    Inliner.CStrong (lit "John");
                    Inliner.CSpan (lit ", Have a nice day")] Inliner.create)
  = lit "<span>Hello</span>&nbsp;<strong>John</strong><span>, Have a nice day</span>".
Proof. reflexivity. Qed.

Example test_extractNumeric :
  extractNumeric (Some (lit "abc123def")) = lit "123" /\
  extractNumeric (Some (lit "12.34")) = lit "1234" /\
  extractNumeric (Some (lit "no digits")) = [] /\
  extractNumeric None = [].
Proof. by split_and!. Qed.

Example test_unifySeparator :
  unifySeparator (Some (lit "1,234.56")) (lit "_") = lit "1_234.56" /\
  unifySeparator (Some (lit "abc-123")) (lit "|") = lit "|-123" /\
  unifySeparator None (lit ",") = [].
Proof. by split_and!. Qed.

Example test_concat :
  Text.concat [Some (lit "a"); Some (lit "b"); Some (lit "c")] = lit "a b c" /\
  Text.concat [Some (lit "a"); Some []; Some (lit "b")] = lit "a b" /\
  Text.concat [Some (lit "a"); None; Some (lit "b")] = lit "a b" /\
  Text.concat [Some []; None; None; None] = [].
Proof. by split_and!. Qed.

Example test_truncate :
  Text.truncate (lit "abcdef") 3 = lit "abc..." /\
  Text.truncate (lit "abcdef") 6 = lit "abcdef" /\
  Text.truncate (lit "abcdef") 0 = [].
Proof. by split_and!. Qed.
